(** * Thread actions of the forum application

    A shallow embedding of [lib/actions/thread.actions.ts] together with the
    Mongoose schema of the [Thread] model, and the properties of the thread
    tree service: the cascade delete, the bounded tree fetch, the paginated
    feed, and the two creation paths.

    Documents are records, collections are lists in natural (insertion)
    order, and every [async] function is a computation in a small monad that
    threads the database through the calls and carries thrown errors by their
    message. *)

From Stdlib Require Import List String ZArith Arith Bool Lia Permutation Sorted.
Import ListNotations.
Set Warnings "-register-all".
Local Open Scope string_scope.
Local Open Scope list_scope.

(** ** Documents *)

(** An [ObjectId] is only ever compared for equality (after casting either
    side to or from its hexadecimal string), so it is modelled by a natural
    number and [toString] by the identity. *)
Definition ObjectId := nat.

Module Thread.
(** [threadSchema]: [createdAt] is in milliseconds since the epoch,
    [parentId] is absent on a top-level post. *)
Record doc := mk {
  _id : ObjectId;
  text : string;
  author : ObjectId;
  community : option ObjectId;
  createdAt : Z;
  parentId : option ObjectId;
  children : list ObjectId
}.
End Thread.

Module User.
(** Modelled from the spec: the schema of the User model
    ([models/user.model] is imported by the actions but is not part of the
    sources): identifying fields and the [threads] back-reference list. *)
Record doc := mk {
  _id : ObjectId;
  id : string;
  name : string;
  image : string;
  threads : list ObjectId
}.

(** A document restricted by a [select] list; [_id] is always kept. *)
Record partial := mkPartial {
  p_id : ObjectId;
  p_extid : option string;
  p_name : option string;
  p_image : option string;
  p_threads : option (list ObjectId)
}.
End User.

Module Community.
(** Modelled from the spec: the schema of the Community model
    ([models/community.model] is not part of the sources): the external
    identifier [id], the identifying fields and the [threads]
    back-reference list. *)
Record doc := mk {
  _id : ObjectId;
  id : string;
  name : string;
  image : string;
  threads : list ObjectId
}.

Record partial := mkPartial {
  p_id : ObjectId;
  p_extid : option string;
  p_name : option string;
  p_image : option string;
  p_threads : option (list ObjectId)
}.
End Community.

(** ** The database and the world around it *)

Record World := mkWorld {
  Thread_collection : list Thread.doc;
  User_collection : list User.doc;
  Community_collection : list Community.doc;
  now : Z;                 (* what [Date.now] returns *)
  nextId : ObjectId;       (* the next [ObjectId] the driver generates *)
  console : list string    (* lines written by [console.error] *)
}.

Definition set_threads (w : World) (ts : list Thread.doc) : World :=
  mkWorld ts (User_collection w) (Community_collection w)
          (now w) (nextId w) (console w).

Definition set_users (w : World) (us : list User.doc) : World :=
  mkWorld (Thread_collection w) us (Community_collection w)
          (now w) (nextId w) (console w).

Definition set_communities (w : World) (cs : list Community.doc) : World :=
  mkWorld (Thread_collection w) (User_collection w) cs
          (now w) (nextId w) (console w).

Definition set_nextId (w : World) (n : ObjectId) : World :=
  mkWorld (Thread_collection w) (User_collection w) (Community_collection w)
          (now w) n (console w).

Definition log (w : World) (line : string) : World :=
  mkWorld (Thread_collection w) (User_collection w) (Community_collection w)
          (now w) (nextId w) (console w ++ [line]).

(** ** Asynchronous computations

    An awaited promise either fulfils with a value, rejects with an [Error]
    (kept by its [message]), or never settles.  The last case is what a
    recursion that does not terminate looks like; the model reaches it when
    the recursion bound it is given is exhausted, and no [catch] sees it. *)
Inductive Completion (A : Type) : Type :=
| Return (a : A)
| Throw (message : string)
| Pending.
Arguments Return {A} a.
Arguments Throw {A} message.
Arguments Pending {A}.

Definition Async (A : Type) : Type := World -> Completion A * World.

Definition ret {A} (a : A) : Async A := fun w => (Return a, w).
Definition throw {A} (message : string) : Async A := fun w => (Throw message, w).
Definition pending {A} : Async A := fun w => (Pending, w).

Definition bind {A B} (m : Async A) (k : A -> Async B) : Async B :=
  fun w =>
    match m w with
    | (Return a, w') => k a w'
    | (Throw e, w') => (Throw e, w')
    | (Pending, w') => (Pending, w')
    end.

Definition try_catch {A} (body : Async A) (handler : string -> Async A) : Async A :=
  fun w =>
    match body w with
    | (Throw e, w') => handler e w'
    | r => r
    end.

Notation "x <- m ;; k" := (bind m (fun x => k))
  (at level 61, m at next level, right associativity).
Notation "m ;; k" := (bind m (fun _ => k))
  (at level 61, right associativity).

(** [for (const x of xs) { ... }] over a loop-carried local. *)
Fixpoint for_of {A S} (xs : list A) (body : S -> A -> Async S) (s : S) : Async S :=
  match xs with
  | [] => ret s
  | x :: xs' => s' <- body s x ;; for_of xs' body s'
  end.

Definition console_error (line : string) : Async unit :=
  fun w => (Return tt, log w line).

(** Out of scope collaborators: the connection helper is fired and not
    awaited, and the cache invalidation of Next.js has no effect on the
    database. *)
Definition connectToDB : Async unit := ret tt.
Definition revalidatePath (path : string) : Async unit := ret tt.

(** ** Pure views of the collections *)

Definition mem (i : ObjectId) (ids : list ObjectId) : bool :=
  existsb (Nat.eqb i) ids.

Definition has_parent (threadId : ObjectId) (t : Thread.doc) : bool :=
  match Thread.parentId t with
  | Some p => Nat.eqb p threadId
  | None => false
  end.

(** The filter [{ parentId: { $in: [null, undefined] } }]. *)
Definition top_level (t : Thread.doc) : bool :=
  match Thread.parentId t with
  | Some _ => false
  | None => true
  end.

Definition Thread_byId (ts : list Thread.doc) (i : ObjectId) : option Thread.doc :=
  find (fun t => Nat.eqb (Thread._id t) i) ts.

Definition User_byId (us : list User.doc) (i : ObjectId) : option User.doc :=
  find (fun u => Nat.eqb (User._id u) i) us.

Definition Community_byId (cs : list Community.doc) (i : ObjectId)
  : option Community.doc :=
  find (fun c => Nat.eqb (Community._id c) i) cs.

(** The filter [{ id: communityId }]: every community has an [id], so a
    [null] identifier matches none. *)
Definition Community_byExtId (cs : list Community.doc) (communityId : option string)
  : option Community.doc :=
  match communityId with
  | Some ext => find (fun c => String.eqb (Community.id c) ext) cs
  | None => None
  end.

(** [new Set(xs)] followed by [Array.from]: first occurrences, in order. *)
Fixpoint Set_from (xs : list ObjectId) : list ObjectId :=
  match xs with
  | [] => []
  | x :: xs' => x :: filter (fun y => negb (Nat.eqb y x)) (Set_from xs')
  end.

(** [.filter((id) => id !== undefined)]. *)
Fixpoint defined (xs : list (option ObjectId)) : list ObjectId :=
  match xs with
  | [] => []
  | Some x :: xs' => x :: defined xs'
  | None :: xs' => defined xs'
  end.

(** [.sort({ createdAt: "desc" })]: newest first, documents of equal date in
    natural order. *)
Fixpoint insert_desc (t : Thread.doc) (l : list Thread.doc) : list Thread.doc :=
  match l with
  | [] => [t]
  | x :: l' =>
      if (Thread.createdAt x <=? Thread.createdAt t)%Z
      then t :: x :: l'
      else x :: insert_desc t l'
  end.

Definition sort_createdAt_desc (l : list Thread.doc) : list Thread.doc :=
  fold_right insert_desc [] l.

(** [updateOne]-like writes touch the first document that matches. *)
Fixpoint update_first {A} (p : A -> bool) (f : A -> A) (l : list A) : list A :=
  match l with
  | [] => []
  | x :: l' => if p x then f x :: l' else x :: update_first p f l'
  end.

(** [$push: { threads: id }] and [children.push(id)]. *)
Definition User_push (i : ObjectId) (u : User.doc) : User.doc :=
  User.mk (User._id u) (User.id u) (User.name u) (User.image u)
          (User.threads u ++ [i]).

Definition Community_push (i : ObjectId) (c : Community.doc) : Community.doc :=
  Community.mk (Community._id c) (Community.id c) (Community.name c)
               (Community.image c) (Community.threads c ++ [i]).

Definition Thread_push_children (ids : list ObjectId) (t : Thread.doc) : Thread.doc :=
  Thread.mk (Thread._id t) (Thread.text t) (Thread.author t) (Thread.community t)
            (Thread.createdAt t) (Thread.parentId t) (Thread.children t ++ ids).

(** [$pull: { threads: { $in: ids } }] on one array. *)
Definition pull (ids : list ObjectId) (refs : list ObjectId) : list ObjectId :=
  filter (fun r => negb (mem r ids)) refs.

Definition User_pull (authors ids : list ObjectId) (u : User.doc) : User.doc :=
  if mem (User._id u) authors
  then User.mk (User._id u) (User.id u) (User.name u) (User.image u)
               (pull ids (User.threads u))
  else u.

Definition Community_pull (communities ids : list ObjectId) (c : Community.doc)
  : Community.doc :=
  if mem (Community._id c) communities
  then Community.mk (Community._id c) (Community.id c) (Community.name c)
                    (Community.image c) (pull ids (Community.threads c))
  else c.

(** ** Populate *)

(** A reference field: still the stored id (or absent), or replaced by the
    referenced document ([null] when there is none). *)
Inductive Ref (D : Type) : Type :=
| Unpopulated (id : option ObjectId)
| Populated (d : option D).
Arguments Unpopulated {D} id.
Arguments Populated {D} d.

(** A thread as a query hands it out: the stored document, its two
    references, and its [children] either as stored ids or as documents. *)
Inductive PThread : Type :=
| PT (d : Thread.doc) (a : Ref User.partial) (c : Ref Community.partial)
     (k : list ObjectId + list PThread).

Definition doc (p : PThread) : Thread.doc := let 'PT d _ _ _ := p in d.
Definition author (p : PThread) : Ref User.partial := let 'PT _ a _ _ := p in a.
Definition community (p : PThread) : Ref Community.partial :=
  let 'PT _ _ c _ := p in c.
Definition children (p : PThread) : list ObjectId + list PThread :=
  let 'PT _ _ _ k := p in k.

(** A document as a query without [populate] hands it out. *)
Definition unresolved (t : Thread.doc) : PThread :=
  PT t (Unpopulated (Some (Thread.author t)))
       (Unpopulated (Thread.community t))
       (inl (Thread.children t)).

(** The argument object of [.populate]: [path], [select] (a list of field
    names, absent for all fields) and the nested [populate]; [model] only
    repeats what the schema's [ref] says. *)
Inductive PopulateOptions : Type :=
| Path (path : string) (select : option (list string))
       (populate : list PopulateOptions).

Definition selected (select : option (list string)) (field : string) : bool :=
  match select with
  | None => true
  | Some fields => existsb (String.eqb field) fields
  end.

Definition pick {A} (select : option (list string)) (field : string) (a : A)
  : option A :=
  if selected select field then Some a else None.

Definition User_project (select : option (list string)) (u : User.doc)
  : User.partial :=
  User.mkPartial (User._id u)
    (pick select "id" (User.id u)) (pick select "name" (User.name u))
    (pick select "image" (User.image u)) (pick select "threads" (User.threads u)).

Definition Community_project (select : option (list string)) (c : Community.doc)
  : Community.partial :=
  Community.mkPartial (Community._id c)
    (pick select "id" (Community.id c)) (pick select "name" (Community.name c))
    (pick select "image" (Community.image c))
    (pick select "threads" (Community.threads c)).

(** The documents an array of references resolves to: in the order of the
    array, ids without a document dropped. *)
Definition resolve_all (ts : list Thread.doc) (ids : list ObjectId)
  : list Thread.doc :=
  flat_map (fun i => match Thread_byId ts i with
                     | Some t => [t]
                     | None => []
                     end) ids.

Fixpoint populate_path (w : World) (o : PopulateOptions) (p : PThread) : PThread :=
  match o, p with
  | Path path select nested, PT d a c k =>
      if String.eqb path "author" then
        PT d (Populated (option_map (User_project select)
                           (User_byId (User_collection w) (Thread.author d)))) c k
      else if String.eqb path "community" then
        PT d a (Populated
                  (match Thread.community d with
                   | Some i => option_map (Community_project select)
                                 (Community_byId (Community_collection w) i)
                   | None => None
                   end)) k
      else if String.eqb path "children" then
        PT d a c
           (inr (map (fun t => fold_left (fun q o' => populate_path w o' q)
                                         nested (unresolved t))
                     (resolve_all (Thread_collection w) (Thread.children d))))
      else p
  end.

Definition populate_all (w : World) (os : list PopulateOptions) (t : Thread.doc)
  : PThread :=
  fold_left (fun q o => populate_path w o q) os (unresolved t).

(** [ref?._id?.toString()]: the [_id] of an [ObjectId] is that id, the
    [_id] of a document is its key, and there is none on [null] or on an
    absent field. *)
Definition ref_id {D} (key : D -> ObjectId) (r : Ref D) : option ObjectId :=
  match r with
  | Unpopulated i => i
  | Populated (Some d) => Some (key d)
  | Populated None => None
  end.

(** Messages of the failures the driver raises by itself. *)
Definition text_required : string :=
  "Thread validation failed: text: Path `text` is required.".
Definition duplicate_key : string :=
  "E11000 duplicate key error collection: threads index: _id_".
Definition document_gone : string := "No document found for query".
Definition negative_skip : string := "Skip value must be non-negative".

(** ** The store driver

    Every call into the driver may fail; which calls do, and with what
    message, is a parameter of the model. *)
Inductive Model := ThreadModel | UserModel | CommunityModel.

Inductive Method :=
| Find | FindOne | FindById | Populate | CountDocuments
| Create | Save | FindByIdAndUpdate | UpdateMany | DeleteMany.

Definition Faults := Model -> Method -> World -> option string.

Definition no_faults : Faults := fun _ _ _ => None.

Section Driver.

Variable faults : Faults.

Definition query {A} (m : Model) (op : Method) (f : World -> A) : Async A :=
  fun w =>
    match faults m op w with
    | Some e => (Throw e, w)
    | None => (Return (f w), w)
    end.

Definition command (m : Model) (op : Method) (f : World -> World) : Async unit :=
  fun w =>
    match faults m op w with
    | Some e => (Throw e, w)
    | None => (Return tt, f w)
    end.

(** [Thread.find({ parentId: threadId })] *)
Definition Thread_find_children (threadId : ObjectId) : Async (list Thread.doc) :=
  query ThreadModel Find
        (fun w => filter (has_parent threadId) (Thread_collection w)).

(** [Thread.findById(id)] *)
Definition Thread_findById (id : ObjectId) : Async (option Thread.doc) :=
  query ThreadModel FindById (fun w => Thread_byId (Thread_collection w) id).

(** [.populate(...)] chained on a query for one document: when the query
    found none there is nothing to populate, and the driver is not asked. *)
Definition exec_populate (os : list PopulateOptions) (r : option Thread.doc)
  : Async (option PThread) :=
  match r with
  | None => ret None
  | Some t => query ThreadModel Populate (fun w => Some (populate_all w os t))
  end.

(** [Thread.deleteMany({ _id: { $in: ids } })] *)
Definition Thread_deleteMany (ids : list ObjectId) : Async unit :=
  command ThreadModel DeleteMany
          (fun w => set_threads w
                      (filter (fun t => negb (mem (Thread._id t) ids))
                              (Thread_collection w))).

(** [User.updateMany({ _id: { $in: authors } }, { $pull: ... })] *)
Definition User_updateMany_pull (authors ids : list ObjectId) : Async unit :=
  command UserModel UpdateMany
          (fun w => set_users w (map (User_pull authors ids) (User_collection w))).

Definition Community_updateMany_pull (communities ids : list ObjectId)
  : Async unit :=
  command CommunityModel UpdateMany
          (fun w => set_communities w
                      (map (Community_pull communities ids)
                           (Community_collection w))).

(** ** Cascade delete *)

(** The recursion of the source has no bound; [fuel] bounds its depth here,
    and a run that exhausts it stands for the promise that never settles. *)
Fixpoint fetchAllChildThreads (fuel : nat) (threadId : ObjectId)
  : Async (list Thread.doc) :=
  match fuel with
  | O => pending
  | S fuel' =>
      childThreads <- Thread_find_children threadId ;;
      for_of childThreads
             (fun descendantThreads childThread =>
                descendants <- fetchAllChildThreads fuel' (Thread._id childThread) ;;
                ret (descendantThreads ++ childThread :: descendants))
             []
  end.

Definition deleteThread (fuel : nat) (id : ObjectId) (path : string) : Async unit :=
  try_catch
    (connectToDB ;;
     found <- Thread_findById id ;;
     mainThread <- exec_populate [Path "author" None []; Path "community" None []]
                                 found ;;
     match mainThread with
     | None => throw "Thread not found"
     | Some mainThread =>
         descendantThreads <- fetchAllChildThreads fuel id ;;
         let descendantThreadIds := id :: map Thread._id descendantThreads in
         let uniqueAuthorIds :=
           Set_from (defined
                       (map (fun thread => ref_id User.p_id (author (unresolved thread)))
                            descendantThreads
                        ++ [ref_id User.p_id (author mainThread)])) in
         let uniqueCommunityIds :=
           Set_from (defined
                       (map (fun thread =>
                               ref_id Community.p_id (community (unresolved thread)))
                            descendantThreads
                        ++ [ref_id Community.p_id (community mainThread)])) in
         Thread_deleteMany descendantThreadIds ;;
         User_updateMany_pull uniqueAuthorIds descendantThreadIds ;;
         Community_updateMany_pull uniqueCommunityIds descendantThreadIds ;;
         revalidatePath path
     end)
    (fun error => throw ("Failed to delete thread: " ++ error)%string).

(** ** Tree fetch *)

Definition fetchThreadById (threadId : ObjectId) : Async (option PThread) :=
  connectToDB ;;
  try_catch
    (found <- Thread_findById threadId ;;
     thread <-
       exec_populate
         [ Path "author" (Some ["_id"; "id"; "name"; "image"]) [];
           Path "community" (Some ["_id"; "id"; "name"; "image"]) [];
           Path "children" None
             [ Path "author" (Some ["_id"; "id"; "name"; "parentId"; "image"]) [];
               Path "children" None
                 [ Path "author"
                        (Some ["_id"; "id"; "name"; "parentId"; "image"]) [] ] ] ]
         found ;;
     ret thread)
    (fun err =>
       console_error ("Error while fetching thread: " ++ err)%string ;;
       throw "Unable to fetch thread").

(** ** Top-level feed *)

(** [.skip(n).limit(m)] as the server applies them: a negative skip is
    rejected, a zero limit is no limit, a negative limit is its absolute
    value. *)
Definition skip_limit {A} (skip limit : Z) (l : list A) : Completion (list A) :=
  if (skip <? 0)%Z then Throw negative_skip
  else
    let rest := skipn (Z.to_nat skip) l in
    if (limit =? 0)%Z then Return rest
    else Return (firstn (Z.abs_nat limit) rest).

(** [Thread.find({ parentId: { $in: [null, undefined] } })] with its sort,
    window and populate, run by [.exec()]; an empty page has nothing to
    populate. *)
Definition Thread_find_posts (skip limit : Z) (os : list PopulateOptions)
  : Async (list PThread) :=
  fun w =>
    match faults ThreadModel Find w with
    | Some e => (Throw e, w)
    | None =>
        match skip_limit skip limit
                (sort_createdAt_desc (filter top_level (Thread_collection w))) with
        | Return [] => (Return [], w)
        | Return page =>
            match faults ThreadModel Populate w with
            | Some e => (Throw e, w)
            | None => (Return (map (populate_all w os) page), w)
            end
        | Throw e => (Throw e, w)
        | Pending => (Pending, w)
        end
    end.

Definition Thread_countDocuments_posts : Async Z :=
  query ThreadModel CountDocuments
        (fun w => Z.of_nat (List.length (filter top_level (Thread_collection w)))).

(** The parameters default to page 1 and size 20 when the caller leaves them
    out. *)
Definition fetchPosts (pageNumber pageSize : Z) : Async (list PThread * bool) :=
  connectToDB ;;
  let skipAmount := ((pageNumber - 1) * pageSize)%Z in
  let postsQuery :=
    Thread_find_posts skipAmount pageSize
      [ Path "author" None [];
        Path "community" None [];
        Path "children" None
          [ Path "author" (Some ["_id"; "name"; "parentId"; "image"]) [] ] ] in
  totalPostsCount <- Thread_countDocuments_posts ;;
  posts <- postsQuery ;;
  let isNext := (totalPostsCount >? skipAmount + Z.of_nat (List.length posts))%Z in
  ret (posts, isNext).

(** ** Creation *)

(** [Community.findOne({ id: communityId }, { _id: 1 })] *)
Definition Community_findOne_id (communityId : option string)
  : Async (option Community.partial) :=
  query CommunityModel FindOne
        (fun w => option_map (Community_project (Some ["_id"]))
                             (Community_byExtId (Community_collection w)
                                                communityId)).

(** [Thread.create(fields)] and [new Thread(fields).save()]: the document
    is built with a fresh [_id] and the schema defaults; saving it first
    validates it ([text] is [required], which an empty string does not pass)
    and only then asks the driver, where the unique index on [_id] holds. *)
Definition Thread_insert (op : Method) (text : string) (author : ObjectId)
           (community parentId : option ObjectId) : Async Thread.doc :=
  fun w =>
    let created :=
      Thread.mk (nextId w) text author community (now w) parentId [] in
    let w' := set_nextId w (S (nextId w)) in
    if String.eqb text "" then
      (Throw text_required, w')
    else
      match faults ThreadModel op w with
      | Some e => (Throw e, w')
      | None =>
          if mem (nextId w) (map Thread._id (Thread_collection w)) then
            (Throw duplicate_key, w')
          else (Return created, set_threads w' (Thread_collection w ++ [created]))
      end.

(** [document.save()] after [document.children.push(...)]: the pushed ids
    are appended to the stored array; a document that is gone by then
    rejects the save. *)
Definition Thread_save_children (document : Thread.doc) (pushed : list ObjectId)
  : Async unit :=
  fun w =>
    match faults ThreadModel Save w with
    | Some e => (Throw e, w)
    | None =>
        match Thread_byId (Thread_collection w) (Thread._id document) with
        | None => (Throw document_gone, w)
        | Some _ =>
            (Return tt,
             set_threads w
               (update_first (fun t => Nat.eqb (Thread._id t) (Thread._id document))
                             (Thread_push_children pushed)
                             (Thread_collection w)))
        end
    end.

(** [User.findByIdAndUpdate(id, { $push: { threads: threadId } })] *)
Definition User_findByIdAndUpdate_push (id threadId : ObjectId) : Async unit :=
  command UserModel FindByIdAndUpdate
          (fun w => set_users w
                      (update_first (fun u => Nat.eqb (User._id u) id)
                                    (User_push threadId) (User_collection w))).

Definition Community_findByIdAndUpdate_push (id threadId : ObjectId) : Async unit :=
  command CommunityModel FindByIdAndUpdate
          (fun w => set_communities w
                      (update_first (fun c => Nat.eqb (Community._id c) id)
                                    (Community_push threadId)
                                    (Community_collection w))).

Definition createThread (text : string) (author : ObjectId)
           (communityId : option string) (path : string) : Async unit :=
  try_catch
    (connectToDB ;;
     communityIdObject <- Community_findOne_id communityId ;;
     createdThread <-
       Thread_insert Create text author
                     (option_map Community.p_id communityIdObject) None ;;
     User_findByIdAndUpdate_push author (Thread._id createdThread) ;;
     match communityIdObject with
     | Some c =>
         Community_findByIdAndUpdate_push (Community.p_id c)
                                          (Thread._id createdThread)
     | None => ret tt
     end ;;
     revalidatePath path)
    (fun error => throw ("Failed to create post: " ++ error)%string).

Definition addCommentToThread (threadId : ObjectId) (commentText : string)
           (userId : ObjectId) (path : string) : Async unit :=
  connectToDB ;;
  try_catch
    (originalThread <- Thread_findById threadId ;;
     match originalThread with
     | None => throw "Thread not found"
     | Some originalThread =>
         savedCommentThread <-
           Thread_insert Save commentText userId None (Some threadId) ;;
         Thread_save_children originalThread [Thread._id savedCommentThread] ;;
         revalidatePath path
     end)
    (fun err =>
       console_error ("Error while adding comment: " ++ err)%string ;;
       throw "Unable to add comment").

(** One [addCommentToThread] after the other on the same thread, each with
    its own text and author. *)
Fixpoint addComments (threadId : ObjectId) (comments : list (string * ObjectId))
         (path : string) : Async unit :=
  match comments with
  | [] => ret tt
  | (commentText, userId) :: rest =>
      addCommentToThread threadId commentText userId path ;;
      addComments threadId rest path
  end.

End Driver.

(** ** The thread forest *)

Section Forest.

Variable threads : list Thread.doc.

(** [descends a t]: the stored thread [t] is reached from the id [a] by
    following [parentId] links of stored threads towards [a]. *)
Inductive descends (a : ObjectId) : Thread.doc -> Prop :=
| descends_child t :
    In t threads -> Thread.parentId t = Some a -> descends a t
| descends_deeper p t :
    descends a p -> In t threads ->
    Thread.parentId t = Some (Thread._id p) -> descends a t.

(** The [parentId] relation has no cycle. *)
Definition Acyclic : Prop := forall t, ~ descends (Thread._id t) t.

(** The unique index on [_id]. *)
Definition UniqueIds : Prop := NoDup (map Thread._id threads).

(** The subtree of [a]: the thread [a] itself and what descends from it. *)
Definition in_subtree (a : ObjectId) (t : Thread.doc) : Prop :=
  Thread._id t = a \/ descends a t.

(** Below [a] hangs a single chain of replies, [depth] threads long. *)
Fixpoint chain (a : ObjectId) (depth : nat) : Prop :=
  match depth with
  | O => filter (has_parent a) threads = []
  | S depth' =>
      exists c, filter (has_parent a) threads = [c] /\ chain (Thread._id c) depth'
  end.

(** [l] lists [t] somewhere before [d]. *)
Definition before (l : list Thread.doc) (t d : Thread.doc) : Prop :=
  exists l1 l2 l3, l = l1 ++ t :: l2 ++ d :: l3.

(** A sufficient, checkable reason for acyclicity: ids ranked so that every
    reply ranks above its parent. *)
Definition ranked (rank : ObjectId -> nat) : bool :=
  forallb (fun t => match Thread.parentId t with
                    | Some p => Nat.ltb (rank p) (rank (Thread._id t))
                    | None => true
                    end) threads.

End Forest.

(** ** Stores the operations build

    Every stored id was handed out by the id generator, no id twice, and
    every reply was created after the thread it replies to. *)
Definition Generated (w : World) : Prop :=
  (forall i, In i (map Thread._id (Thread_collection w)) -> i < nextId w) /\
  UniqueIds (Thread_collection w) /\
  ranked (Thread_collection w) (fun i => i) = true.

(** Every id a back-reference list holds was handed out by the id generator,
    and where it names a stored thread, that thread is one of the list's own
    user or community. *)
Definition Owned (w : World) : Prop :=
  (forall u i, In u (User_collection w) -> In i (User.threads u) ->
               i < nextId w /\
               forall t, In t (Thread_collection w) -> Thread._id t = i ->
                         Thread.author t = User._id u) /\
  (forall c i, In c (Community_collection w) -> In i (Community.threads c) ->
               i < nextId w /\
               forall t, In t (Thread_collection w) -> Thread._id t = i ->
                         Thread.community t = Some (Community._id c)).

(** ** A small database

    Two users, one community, and three posts: post 1 with the replies 2 and
    3, a chain 2 - 4 - 5 below it; post 6 with the reply 7; post 8. *)

Definition alice : User.doc := User.mk 100 "user_alice" "Alice" "alice.png" [1; 8].
Definition bob : User.doc := User.mk 101 "user_bob" "Bob" "bob.png" [6].
Definition guild : Community.doc :=
  Community.mk 200 "org_guild" "Guild" "guild.png" [1; 6].

Definition post1 : Thread.doc := Thread.mk 1 "first post" 100 (Some 200) 10 None [2; 3].
Definition reply2 : Thread.doc := Thread.mk 2 "a reply" 101 None 20 (Some 1) [4].
Definition reply3 : Thread.doc := Thread.mk 3 "another reply" 100 None 30 (Some 1) [].
Definition reply4 : Thread.doc := Thread.mk 4 "a reply to 2" 101 None 40 (Some 2) [5].
Definition reply5 : Thread.doc := Thread.mk 5 "a reply to 4" 100 None 50 (Some 4) [].
Definition post6 : Thread.doc := Thread.mk 6 "second post" 101 (Some 200) 60 None [7].
Definition reply7 : Thread.doc := Thread.mk 7 "a reply to 6" 100 None 70 (Some 6) [].
Definition post8 : Thread.doc := Thread.mk 8 "third post" 100 None 80 None [].

Definition forum : World :=
  mkWorld [post1; reply2; reply3; reply4; reply5; post6; reply7; post8]
          [alice; bob] [guild] 1000 9 [].

(** Twenty-five posts, created one millisecond apart, and one reply. *)
Definition timeline (n : nat) : list Thread.doc :=
  map (fun i => Thread.mk i "post" 100 None (Z.of_nat i) None []) (seq 1 n).

Definition busy : World :=
  mkWorld (timeline 24
           ++ [Thread.mk 25 "post" 100 None 25 None [26];
               Thread.mk 26 "a reply" 101 None 26 (Some 25) []])
          [alice; bob] [guild] 1000 27 [].

(** Newest first: every document is at least as recent as all that follow. *)
Definition newest_first (l : list Thread.doc) : Prop :=
  StronglySorted (fun a b => (Thread.createdAt b <= Thread.createdAt a)%Z) l.

(** A driver that fails every call, and what counts as a message of an
    underlying failure. *)
Definition outage : Faults := fun _ _ _ => Some "connection lost".

Definition store_failure (faults : Faults) (cause : string) : Prop :=
  exists m op w, faults m op w = Some cause.

(** ** What the outcomes are measured against

    Relations on the stored data alone, in which the properties say what an
    operation must have produced. *)

(** [without D l l']: the list [l'] is [l] with the ids in [D] taken out and
    every other id kept, in their order. *)
Inductive without (D : ObjectId -> Prop) : list ObjectId -> list ObjectId -> Prop :=
| without_nil : without D [] []
| without_drop i l l' : D i -> without D l l' -> without D (i :: l) l'
| without_keep i l l' : ~ D i -> without D l l' -> without D (i :: l) (i :: l').

(** An id the Thread collection held in [w] and no longer holds in [w']. *)
Definition deleted (w w' : World) (i : ObjectId) : Prop :=
  In i (map Thread._id (Thread_collection w)) /\
  ~ In i (map Thread._id (Thread_collection w')).

(** [resolves ts ids ds]: the documents [ds] are what the ids [ids] stand
    for in the collection [ts]: one stored document with that [_id] for
    every id that has one, in the order of the ids, and nothing for an id
    that has none. *)
Inductive resolves (ts : list Thread.doc) : list ObjectId -> list Thread.doc -> Prop :=
| resolves_nil : resolves ts [] []
| resolves_found i ids t ds :
    In t ts -> Thread._id t = i -> resolves ts ids ds ->
    resolves ts (i :: ids) (t :: ds)
| resolves_dangling i ids ds :
    (forall t, In t ts -> Thread._id t <> i) -> resolves ts ids ds ->
    resolves ts (i :: ids) ds.


(** ** Views for the further properties *)

(** The feed [fetchPosts] pages through, and the populate options it passes. *)
Definition feed (w : World) : list Thread.doc :=
  sort_createdAt_desc (filter top_level (Thread_collection w)).

Definition feed_populate : list PopulateOptions :=
  [ Path "author" None [];
    Path "community" None [];
    Path "children" None
      [ Path "author" (Some ["_id"; "name"; "parentId"; "image"]) [] ] ].

(** The stored documents of one page, as a caller that pages through the feed
    collects them (nothing when the call fails). *)
Definition feed_page (faults : Faults) (pageSize : Z) (w : World) (page : nat)
  : list Thread.doc :=
  match fetchPosts faults (Z.of_nat page) pageSize w with
  | (Return (posts, _), _) => map doc posts
  | _ => []
  end.

(** Two threads that differ at most in their [children]. *)
Definition same_but_children (t t' : Thread.doc) : Prop :=
  Thread._id t' = Thread._id t /\
  Thread.text t' = Thread.text t /\
  Thread.author t' = Thread.author t /\
  Thread.community t' = Thread.community t /\
  Thread.createdAt t' = Thread.createdAt t /\
  Thread.parentId t' = Thread.parentId t.

(** Drivers on which one collection cannot be written. *)
Definition users_down : Faults :=
  fun m op _ =>
    match m, op with
    | UserModel, UpdateMany => Some "users unavailable"
    | UserModel, FindByIdAndUpdate => Some "users unavailable"
    | _, _ => None
    end.

Definition populate_down : Faults :=
  fun m op _ =>
    match m, op with
    | ThreadModel, Populate => Some "cursor lost"
    | _, _ => None
    end.

Definition saves_down : Faults :=
  fun m op w =>
    match m, op with
    | ThreadModel, Save =>
        if Nat.eqb (nextId w) 9 then None else Some "write conflict"
    | _, _ => None
    end.

(** * Properties *)

(** ** Facts about the forest *)

Section ForestFacts.

Variable threads : list Thread.doc.

Lemma has_parent_spec a t :
  has_parent a t = true <-> Thread.parentId t = Some a.
Proof.
  unfold has_parent. destruct (Thread.parentId t) as [p|].
  - rewrite Nat.eqb_eq. split; congruence.
  - split; discriminate.
Qed.

Lemma in_children a c :
  In c (filter (has_parent a) threads) <->
  In c threads /\ Thread.parentId c = Some a.
Proof. rewrite filter_In, has_parent_spec. tauto. Qed.

Lemma descends_In a t : descends threads a t -> In t threads.
Proof. destruct 1; assumption. Qed.

Lemma descends_below_child x c t :
  In c threads -> Thread.parentId c = Some x ->
  descends threads (Thread._id c) t -> descends threads x t.
Proof.
  intros Hc Hp H. induction H as [t Ht Hpt | p t _ IH Ht Hpt].
  - apply (descends_deeper threads x c t); [apply descends_child | | ]; assumption.
  - eapply descends_deeper; eassumption.
Qed.

Lemma descends_trans a p t :
  descends threads a p -> descends threads (Thread._id p) t ->
  descends threads a t.
Proof.
  intros Hap H. induction H as [t Ht Hpt | q t _ IH Ht Hpt].
  - eapply descends_deeper; eassumption.
  - eapply descends_deeper; eassumption.
Qed.

Lemma descends_first x t :
  descends threads x t ->
  exists c, In c threads /\ Thread.parentId c = Some x /\
            (c = t \/ descends threads (Thread._id c) t).
Proof.
  induction 1 as [t Ht Hpt | p t _ IH Ht Hpt].
  - exists t. auto.
  - destruct IH as (c & Hc & Hpc & [-> | Hd]).
    + exists p. repeat split; auto. right. apply descends_child; assumption.
    + exists c. repeat split; auto. right. eapply descends_deeper; eassumption.
Qed.

Lemma unique_doc t t' :
  UniqueIds threads -> In t threads -> In t' threads ->
  Thread._id t = Thread._id t' -> t = t'.
Proof.
  unfold UniqueIds. induction threads as [|x l IH]; simpl; [tauto|].
  intros Hnd [-> | Ht] [-> | Ht'] Heq; inversion Hnd as [|? ? Hx Hl]; subst.
  - reflexivity.
  - exfalso. apply Hx. rewrite Heq. apply in_map. assumption.
  - exfalso. apply Hx. rewrite <- Heq. apply in_map. assumption.
  - apply IH; assumption.
Qed.

(** The ancestors of a thread are linearly ordered. *)
Lemma descends_linear a b t :
  UniqueIds threads ->
  descends threads a t -> descends threads b t ->
  a = b \/
  (exists ta, In ta threads /\ Thread._id ta = a /\ descends threads b ta) \/
  (exists tb, In tb threads /\ Thread._id tb = b /\ descends threads a tb).
Proof.
  intros U Ha. revert b.
  induction Ha as [t Ht Hpt | p t Hap IH Ht Hpt]; intros b Hb.
  - inversion Hb as [t' _ Hpb | q t' Hbq _ Hpq]; subst.
    + left. congruence.
    + right; left. exists q. split; [eapply descends_In; eassumption|].
      split; [congruence | assumption].
  - inversion Hb as [t' _ Hpb | q t' Hbq _ Hpq]; subst.
    + right; right. exists p. split; [eapply descends_In; eassumption|].
      split; [congruence | assumption].
    + assert (p = q) as ->.
      { apply unique_doc; try assumption.
        - eapply descends_In; eassumption.
        - eapply descends_In; eassumption.
        - congruence. }
      apply IH. assumption.
Qed.

(** One sibling never sits below another. *)
Lemma sibling_not_below x c c' :
  Acyclic threads ->
  Thread.parentId c = Some x ->
  In c' threads -> Thread.parentId c' = Some x ->
  ~ descends threads (Thread._id c') c.
Proof.
  intros A Hpc Hc' Hpc' H.
  inversion H as [t _ Hp | p t Hd _ Hp]; subst.
  - apply (A c'). apply descends_child; [assumption | congruence].
  - apply (A c'). eapply descends_deeper; [eassumption | assumption | congruence].
Qed.

Lemma ranked_sound rank a t :
  ranked threads rank = true -> descends threads a t ->
  rank a < rank (Thread._id t).
Proof.
  unfold ranked. rewrite forallb_forall. intros R.
  induction 1 as [t Ht Hpt | p t _ IH Ht Hpt];
    specialize (R t Ht); rewrite Hpt in R; apply Nat.ltb_lt in R; lia.
Qed.

Lemma ranked_acyclic rank : ranked threads rank = true -> Acyclic threads.
Proof.
  intros R t H. apply (ranked_sound rank) in H; [lia | assumption].
Qed.

End ForestFacts.

(** ** The descendant enumeration *)

Section Enumeration.

Variable faults : Faults.

Local Abbreviation visit n :=
  (fun descendantThreads childThread =>
     descendants <- fetchAllChildThreads faults n (Thread._id childThread) ;;
     ret (descendantThreads ++ childThread :: descendants)).

(** The enumeration only reads. *)
Lemma fetchAllChildThreads_reads n :
  forall x w, exists r, fetchAllChildThreads faults n x w = (r, w).
Proof.
  induction n as [|n IH]; intros x w.
  - exists Pending. reflexivity.
  - simpl. unfold bind at 1, Thread_find_children, query.
    destruct (faults ThreadModel Find w) as [e|]; [exists (Throw e); reflexivity|].
    generalize (filter (has_parent x) (Thread_collection w)) as cs.
    generalize (@nil Thread.doc) as acc.
    intros acc cs. revert acc.
    induction cs as [|c cs IHcs]; intros acc; simpl.
    + eexists. reflexivity.
    + unfold bind at 1 2.
      destruct (IH (Thread._id c) w) as [r ->].
      destruct r as [ds|e|]; [apply IHcs | eexists; reflexivity ..].
Qed.

Variable w : World.
Hypothesis find_ok : faults ThreadModel Find w = None.

Local Abbreviation threads := (Thread_collection w).
Local Abbreviation fetch n x := (fetchAllChildThreads faults n x w).

Lemma fetch_step n x :
  fetch (S n) x = for_of (filter (has_parent x) threads) (visit n) [] w.
Proof.
  simpl. unfold bind at 1, Thread_find_children, query.
  rewrite find_ok. reflexivity.
Qed.

(** What one run of the loop leaves in its accumulator: after each child,
    the enumeration below that child. *)
Lemma loop_inv n cs :
  forall acc l w',
    for_of cs (visit n) acc w = (Return l, w') ->
    exists bs,
      map fst bs = cs /\
      Forall (fun b => fetch n (Thread._id (fst b)) = (Return (snd b), w)) bs /\
      l = acc ++ flat_map (fun b => fst b :: snd b) bs.
Proof.
  induction cs as [|c cs IH]; intros acc l w'; simpl.
  - unfold ret. intros [= <- _]. exists []. simpl. rewrite app_nil_r. auto.
  - unfold bind at 1 2.
    destruct (fetchAllChildThreads_reads n (Thread._id c) w) as [r Hr].
    rewrite Hr. destruct r as [ds|e|]; try discriminate.
    unfold ret at 1. intros H. apply IH in H.
    destruct H as (bs & Hbs & Hall & ->).
    exists ((c, ds) :: bs). simpl. split; [congruence|]. split.
    + constructor; assumption.
    + rewrite <- app_assoc. reflexivity.
Qed.

Lemma loop_runs n cs :
  (forall c, In c cs -> exists l, fetch n (Thread._id c) = (Return l, w)) ->
  forall acc, exists l, for_of cs (visit n) acc w = (Return l, w).
Proof.
  induction cs as [|c cs IH]; intros Hcs acc; simpl.
  - eexists. reflexivity.
  - unfold bind at 1 2. destruct (Hcs c (or_introl eq_refl)) as [ds ->].
    unfold ret at 1. apply IH. intros c' Hc'. apply Hcs. right. assumption.
Qed.

Lemma fetch_inv n x l w' :
  fetchAllChildThreads faults (S n) x w = (Return l, w') ->
  exists bs,
    map fst bs = filter (has_parent x) threads /\
    Forall (fun b => fetch n (Thread._id (fst b)) = (Return (snd b), w)) bs /\
    l = flat_map (fun b => fst b :: snd b) bs.
Proof. rewrite fetch_step. intros H. apply loop_inv in H. exact H. Qed.

Lemma block_child x (bs : list (Thread.doc * list Thread.doc)) b :
  map fst bs = filter (has_parent x) threads -> In b bs ->
  In (fst b) threads /\ Thread.parentId (fst b) = Some x.
Proof.
  intros Hbs Hb. apply in_children. rewrite <- Hbs. apply in_map. assumption.
Qed.

(** Everything listed descends from the starting id. *)
Lemma fetch_sound n :
  forall x l, fetch n x = (Return l, w) ->
              forall t, In t l -> descends threads x t.
Proof.
  induction n as [|n IH]; intros x l H t Ht; [discriminate|].
  apply fetch_inv in H. destruct H as (bs & Hbs & Hall & ->).
  apply in_flat_map in Ht. destruct Ht as (b & Hb & Hin).
  destruct (block_child x bs b Hbs Hb) as [Hc Hp].
  rewrite Forall_forall in Hall. specialize (Hall b Hb).
  destruct Hin as [<- | Hin].
  - apply descends_child; assumption.
  - eapply descends_below_child; [exact Hc | exact Hp |].
    eapply IH; eassumption.
Qed.

(** Everything that descends from the starting id is listed. *)
Lemma fetch_complete n :
  forall x l, fetch n x = (Return l, w) ->
              forall t, descends threads x t -> In t l.
Proof.
  induction n as [|n IH]; intros x l H t Ht; [discriminate|].
  apply fetch_inv in H. destruct H as (bs & Hbs & Hall & ->).
  apply descends_first in Ht. destruct Ht as (c & Hc & Hp & Hct).
  assert (Hin : In c (map fst bs)) by (rewrite Hbs; apply in_children; auto).
  apply in_map_iff in Hin. destruct Hin as (b & <- & Hb).
  rewrite Forall_forall in Hall. specialize (Hall b Hb).
  apply in_flat_map. exists b. split; [assumption|].
  destruct Hct as [<- | Hd]; [left; reflexivity|].
  right. eapply IH; eassumption.
Qed.

Lemma loop_mono n m cs :
  (forall c l, fetch n (Thread._id c) = (Return l, w) ->
               fetch m (Thread._id c) = (Return l, w)) ->
  forall acc l,
    for_of cs (visit n) acc w = (Return l, w) ->
    for_of cs (visit m) acc w = (Return l, w).
Proof.
  intros Hnm. induction cs as [|c cs IH]; intros acc l; simpl; [auto|].
  unfold bind at 1 2 4 5.
  destruct (fetchAllChildThreads_reads n (Thread._id c) w) as [r Hr].
  rewrite Hr. destruct r as [ds|e|]; try discriminate.
  rewrite (Hnm c ds Hr). unfold ret at 1 3. apply IH.
Qed.

(** More fuel does not change a result. *)
Lemma fetch_mono n :
  forall x l, fetch n x = (Return l, w) ->
              forall m, n <= m -> fetch m x = (Return l, w).
Proof.
  induction n as [|n IH]; intros x l H m Hm; [discriminate|].
  destruct m as [|m]; [lia|].
  rewrite fetch_step in *. revert H. apply loop_mono.
  intros c lc Hc. apply IH; [assumption | lia].
Qed.

Hypothesis acyclic : Acyclic threads.

(** Termination: along a branch the ids met so far are pairwise distinct
    ids of stored threads, so a branch is no longer than the collection. *)
Lemma fetch_runs_below n :
  forall c anc,
    In c threads -> NoDup anc -> incl anc (map Thread._id threads) ->
    (forall a, In a anc -> descends threads a c) ->
    List.length threads < n + S (List.length anc) ->
    exists l, fetch n (Thread._id c) = (Return l, w).
Proof.
  induction n as [|n IH]; intros c anc Hc Hnd Hincl Hanc Hlen.
  - exfalso.
    assert (Hnd' : NoDup (Thread._id c :: anc)).
    { constructor; [|assumption]. intros Hin. apply (acyclic c). auto. }
    assert (Hincl' : incl (Thread._id c :: anc) (map Thread._id threads)).
    { intros a [<- | Ha]; [apply in_map; assumption | auto]. }
    apply NoDup_incl_length in Hincl'; [|assumption].
    rewrite length_map in Hincl'. simpl in *. lia.
  - rewrite fetch_step. apply loop_runs. intros c' Hc'.
    apply in_children in Hc'. destruct Hc' as [Hc' Hp].
    apply (IH c' (Thread._id c :: anc)).
    + assumption.
    + constructor; [|assumption]. intros Hin. apply (acyclic c). auto.
    + intros a [<- | Ha]; [apply in_map; assumption | auto].
    + intros a [<- | Ha].
      * apply descends_child; assumption.
      * eapply descends_deeper; [apply Hanc; exact Ha | assumption | assumption].
    + simpl. lia.
Qed.

Lemma fetch_runs n x :
  List.length threads < n -> exists l, fetch n x = (Return l, w).
Proof.
  destruct n as [|n]; [lia|]. intros Hn.
  rewrite fetch_step. apply loop_runs. intros c Hc.
  apply in_children in Hc. destruct Hc as [Hc _].
  apply (fetch_runs_below n c []); simpl; try lia; try assumption.
  - constructor.
  - intros a [].
Qed.

Hypothesis unique : UniqueIds threads.

Lemma NoDup_threads : NoDup threads.
Proof. eapply NoDup_map_inv. exact unique. Qed.

(** Two blocks of one loop that share a thread start at the same child. *)
Lemma blocks_disjoint n x (bs : list (Thread.doc * list Thread.doc)) b b' t :
  map fst bs = filter (has_parent x) threads ->
  Forall (fun b => fetch n (Thread._id (fst b)) = (Return (snd b), w)) bs ->
  In b bs -> In b' bs ->
  In t (fst b :: snd b) -> In t (fst b' :: snd b') -> fst b = fst b'.
Proof.
  intros Hbs Hall Hb Hb' Ht Ht'. rewrite Forall_forall in Hall.
  destruct (block_child x bs b Hbs Hb) as [Hc Hp].
  destruct (block_child x bs b' Hbs Hb') as [Hc' Hp'].
  pose proof (fetch_sound n _ _ (Hall b Hb)) as S.
  pose proof (fetch_sound n _ _ (Hall b' Hb')) as S'.
  destruct Ht as [<- | Ht], Ht' as [Heq | Ht'].
  - congruence.
  - exfalso. apply (sibling_not_below threads x (fst b) (fst b')); auto.
  - exfalso. subst t.
    apply (sibling_not_below threads x (fst b') (fst b)); auto.
  - destruct (descends_linear threads _ _ t unique (S t Ht) (S' t Ht'))
      as [Heq | [(ta & Hta & Hid & Hd) | (tb & Htb & Hid & Hd)]].
    + apply (unique_doc threads); assumption.
    + exfalso. assert (ta = fst b) as -> by (apply (unique_doc threads); assumption).
      apply (sibling_not_below threads x (fst b) (fst b')); auto.
    + exfalso. assert (tb = fst b') as -> by (apply (unique_doc threads); assumption).
      apply (sibling_not_below threads x (fst b') (fst b)); auto.
Qed.

Lemma NoDup_blocks {A} (bs : list (A * list A)) :
  NoDup (map fst bs) ->
  (forall b, In b bs -> NoDup (fst b :: snd b)) ->
  (forall b b' t, In b bs -> In b' bs ->
                  In t (fst b :: snd b) -> In t (fst b' :: snd b') ->
                  fst b = fst b') ->
  NoDup (flat_map (fun b => fst b :: snd b) bs).
Proof.
  induction bs as [|b bs IH]; intros Hnd Hblock Hdis; [constructor|].
  change (NoDup ((fst b :: snd b) ++ flat_map (fun b => fst b :: snd b) bs)).
  inversion Hnd as [|? ? Hhead Htail]; subst.
  apply NoDup_app.
  - apply Hblock. left. reflexivity.
  - apply IH; [assumption | |].
    + intros b0 Hb0. apply Hblock. right. assumption.
    + intros b0 b1 t Hb0 Hb1. apply Hdis; right; assumption.
  - intros t Ht Ht'. apply in_flat_map in Ht'. destruct Ht' as (b' & Hb' & Hin).
    apply Hhead. rewrite (Hdis b b' t); auto using in_eq, in_cons.
    apply in_map. assumption.
Qed.

(** Nothing is listed twice. *)
Lemma fetch_NoDup n :
  forall x l, fetch n x = (Return l, w) -> NoDup l.
Proof.
  induction n as [|n IH]; intros x l H; [discriminate|].
  apply fetch_inv in H. destruct H as (bs & Hbs & Hall & ->).
  apply NoDup_blocks.
  - rewrite Hbs. apply NoDup_filter, NoDup_threads.
  - intros b Hb. rewrite Forall_forall in Hall. constructor.
    + intros Hin. apply (acyclic (fst b)).
      eapply fetch_sound; [apply Hall; exact Hb | exact Hin].
    + eapply IH. apply Hall. exact Hb.
  - intros b b' t. eapply blocks_disjoint; eassumption.
Qed.

Lemma NoDup_ids l : incl l threads -> NoDup l -> NoDup (map Thread._id l).
Proof.
  intros Hincl Hnd. apply Finite.Injective_map_NoDup_in; [|assumption].
  intros t t' Ht Ht'. apply (unique_doc threads); auto.
Qed.

Lemma before_embed (p q l : list Thread.doc) t d :
  before l t d -> before (p ++ l ++ q) t d.
Proof.
  intros (l1 & l2 & l3 & ->). exists (p ++ l1), l2, (l3 ++ q).
  repeat (rewrite <- ?app_assoc; simpl). reflexivity.
Qed.

(** A thread comes before whatever descends from it. *)
Lemma fetch_order n :
  forall x l, fetch n x = (Return l, w) ->
              forall t d, In t l -> descends threads (Thread._id t) d ->
                          before l t d.
Proof.
  induction n as [|n IH]; intros x l H t d Ht Hd; [discriminate|].
  apply fetch_inv in H. destruct H as (bs & Hbs & Hall & ->).
  apply in_flat_map in Ht. destruct Ht as (b & Hb & Ht).
  rewrite Forall_forall in Hall. pose proof (Hall b Hb) as Hrun.
  assert (Hin : In d (snd b)).
  { eapply fetch_complete; [exact Hrun |].
    destruct Ht as [<- | Ht]; [assumption|].
    eapply descends_trans; [|exact Hd].
    eapply fetch_sound; [exact Hrun | exact Ht]. }
  assert (Hblock : before (fst b :: snd b) t d).
  { destruct Ht as [<- | Ht].
    - apply in_split in Hin. destruct Hin as (l2 & l3 & ->).
      exists [], l2, l3. reflexivity.
    - destruct (IH _ _ Hrun t d Ht Hd) as (l1 & l2 & l3 & ->).
      exists (fst b :: l1), l2, l3. reflexivity. }
  apply in_split in Hb. destruct Hb as (bs1 & bs2 & ->).
  rewrite flat_map_app. simpl. rewrite app_comm_cons.
  apply before_embed. exact Hblock.
Qed.

End Enumeration.

Ltac distinct_ids :=
  unfold UniqueIds; simpl;
  repeat (constructor; [simpl; intuition discriminate|]); constructor.

(** C10. When the [parentId] relation over the stored threads has no cycle,
    [fetchAllChildThreads] terminates for every starting id (any recursion
    bound above the size of the collection gives the same list), and its
    result holds each thread that descends from the starting id, each exactly
    once, every thread before the threads that descend from it. *)
Theorem fetchAllChildThreads_enumerates_forest :
  forall faults w threadId,
    faults ThreadModel Find w = None ->
    UniqueIds (Thread_collection w) ->
    Acyclic (Thread_collection w) ->
    exists l,
      (forall fuel, List.length (Thread_collection w) < fuel ->
                    fetchAllChildThreads faults fuel threadId w = (Return l, w)) /\
      (forall t, In t l <-> descends (Thread_collection w) threadId t) /\
      NoDup (map Thread._id l) /\
      (forall t d, In t l -> descends (Thread_collection w) (Thread._id t) d ->
                   before l t d).
Proof.
  intros faults w x Hfind U A.
  destruct (fetch_runs faults w Hfind A (S (List.length (Thread_collection w))) x)
    as [l Hl]; [lia|].
  exists l. split; [|split; [|split]].
  - intros fuel Hfuel. eapply fetch_mono; [assumption | exact Hl | lia].
  - intros t. split.
    + eapply fetch_sound; eassumption.
    + eapply fetch_complete; eassumption.
  - apply (NoDup_ids w U).
    + intros t Ht. eapply descends_In, fetch_sound; eassumption.
    + eapply fetch_NoDup; eassumption.
  - eapply fetch_order; eassumption.
Qed.

Lemma fetchAllChildThreads_enumerates_forest_witness :
  exists l,
    (forall fuel, List.length (Thread_collection forum) < fuel ->
                  fetchAllChildThreads no_faults fuel 1 forum = (Return l, forum)) /\
    (forall t, In t l <-> descends (Thread_collection forum) 1 t) /\
    NoDup (map Thread._id l) /\
    (forall t d, In t l -> descends (Thread_collection forum) (Thread._id t) d ->
                 before l t d).
Proof.
  apply (fetchAllChildThreads_enumerates_forest no_faults forum 1).
  - reflexivity.
  - distinct_ids.
  - apply (ranked_acyclic _ (fun i => i)). reflexivity.
Defined.

Example fetchAllChildThreads_forum :
  fetchAllChildThreads no_faults 9 1 forum
  = (Return [reply2; reply4; reply5; reply3], forum).
Proof. reflexivity. Qed.

(** A thread that is its own parent: the enumeration never settles. *)
Lemma fetchAllChildThreads_cycle :
  let w := mkWorld [Thread.mk 1 "loop" 100 None 0 (Some 1) []] [] [] 0 2 [] in
  forall fuel, fetchAllChildThreads no_faults fuel 1 w = (Pending, w).
Proof.
  intros w fuel. induction fuel as [|fuel IH]; [reflexivity|].
  rewrite (fetch_step no_faults w eq_refl). simpl. unfold bind.
  fold w. rewrite IH. reflexivity.
Qed.

(** ** Facts about the collection views *)

Lemma mem_In i ids : mem i ids = true <-> In i ids.
Proof.
  unfold mem. rewrite existsb_exists. split.
  - intros (x & Hx & Heq). apply Nat.eqb_eq in Heq. subst x. exact Hx.
  - intros H. exists i. split; [assumption | apply Nat.eqb_refl].
Qed.

Lemma mem_not_In i ids : mem i ids = false <-> ~ In i ids.
Proof.
  rewrite <- mem_In. destruct (mem i ids); intuition congruence.
Qed.

Lemma Set_from_In x xs : In x (Set_from xs) <-> In x xs.
Proof.
  induction xs as [|y xs IH]; simpl; [tauto|].
  rewrite filter_In, IH, negb_true_iff, Nat.eqb_neq.
  destruct (Nat.eq_dec y x); intuition congruence.
Qed.

Lemma defined_In x xs : In x (defined xs) <-> In (Some x) xs.
Proof.
  induction xs as [|[y|] xs IH]; simpl; [tauto | |].
  - rewrite IH. intuition congruence.
  - rewrite IH. intuition congruence.
Qed.

Lemma Thread_byId_Some ts i t :
  Thread_byId ts i = Some t -> In t ts /\ Thread._id t = i.
Proof.
  intros H. apply find_some in H. rewrite Nat.eqb_eq in H. exact H.
Qed.

Lemma pull_In ids refs i : In i (pull ids refs) <-> In i refs /\ ~ In i ids.
Proof.
  unfold pull. rewrite filter_In, negb_true_iff, mem_not_In. tauto.
Qed.

Lemma pull_idempotent ids refs : pull ids (pull ids refs) = pull ids refs.
Proof.
  unfold pull. induction refs as [|r refs IH]; simpl; [reflexivity|].
  destruct (negb (mem r ids)) eqn:E; simpl; rewrite ?E, IH; reflexivity.
Qed.

Lemma insert_desc_Permutation t l : Permutation (insert_desc t l) (t :: l).
Proof.
  induction l as [|x l IH]; simpl; [reflexivity|].
  destruct (Thread.createdAt x <=? Thread.createdAt t)%Z; [reflexivity|].
  rewrite IH. apply perm_swap.
Qed.

Lemma sort_createdAt_desc_Permutation l : Permutation (sort_createdAt_desc l) l.
Proof.
  induction l as [|x l IH]; simpl; [reflexivity|].
  rewrite insert_desc_Permutation. apply perm_skip. exact IH.
Qed.

Lemma without_pull (D : ObjectId -> Prop) ids refs :
  (forall i, D i <-> In i ids) -> without D refs (pull ids refs).
Proof.
  intros HD. induction refs as [|r refs IH]; simpl; [constructor|].
  destruct (mem r ids) eqn:E; simpl.
  - apply without_drop; [|exact IH]. apply HD, mem_In. assumption.
  - apply without_keep; [|exact IH]. rewrite HD. apply mem_not_In. assumption.
Qed.

Lemma without_same (D : ObjectId -> Prop) l :
  (forall i, In i l -> ~ D i) -> without D l l.
Proof.
  induction l as [|x l IH]; intros H; [constructor|]. apply without_keep.
  - apply H. left. reflexivity.
  - apply IH. intros i Hi. apply H. right. assumption.
Qed.

Lemma without_In (D : ObjectId -> Prop) l l' :
  without D l l' -> forall i, In i l' <-> In i l /\ ~ D i.
Proof.
  induction 1 as [|x l l' Hx _ IH|x l l' Hx _ IH]; intros i; simpl.
  - tauto.
  - rewrite IH. split; [tauto|]. intros [[<- | Hi] Hn]; [contradiction | tauto].
  - rewrite IH. split; [intros [<- | Hi]; tauto | tauto].
Qed.

(** [without] leaves no choice: the outcome is determined by the list. *)
Lemma without_functional (D : ObjectId -> Prop) l l1 l2 :
  without D l l1 -> without D l l2 -> l1 = l2.
Proof.
  intros H. revert l2.
  induction H as [|x l l1 Hx _ IH|x l l1 Hx _ IH]; intros l2 H2;
    inversion H2; subst; try contradiction; auto.
  f_equal. auto.
Qed.

(** Filtering keeps the first match of a search when it keeps that match. *)
Lemma find_filter_Some {A} (f q : A -> bool) l x :
  find f l = Some x -> q x = true -> find f (filter q l) = Some x.
Proof.
  induction l as [|y l IH]; simpl; [discriminate|].
  destruct (f y) eqn:Hf.
  - intros [= ->] Hq. rewrite Hq. simpl. rewrite Hf. reflexivity.
  - intros H Hq. destruct (q y); simpl; rewrite ?Hf; auto.
Qed.

Lemma find_filter_None {A} (f q : A -> bool) l :
  (forall x, In x l -> f x = true -> q x = false) -> find f (filter q l) = None.
Proof.
  induction l as [|y l IH]; simpl; intros H; [reflexivity|].
  destruct (q y) eqn:Hq; simpl.
  - destruct (f y) eqn:Hf.
    + rewrite (H y) in Hq by auto. discriminate.
    + apply IH. auto.
  - apply IH. auto.
Qed.

Lemma NoDup_map_filter {A B} (f : A -> B) (p : A -> bool) l :
  NoDup (map f l) -> NoDup (map f (filter p l)).
Proof.
  induction l as [|x l IH]; simpl; intros H; [constructor|].
  inversion H as [|? ? Hx Hl]; subst.
  destruct (p x); simpl; [|auto].
  constructor; [|auto].
  intros Hin. apply Hx. apply in_map_iff in Hin.
  destruct Hin as (y & Hy & Hin). apply filter_In in Hin.
  rewrite <- Hy. apply in_map. tauto.
Qed.

(** Deleting by a duplicate-free list of stored ids removes one document for
    each id. *)
Lemma deleteMany_count ts ids :
  NoDup (map Thread._id ts) -> NoDup ids -> incl ids (map Thread._id ts) ->
  List.length ts
  = List.length (filter (fun t => negb (mem (Thread._id t) ids)) ts)
    + List.length ids.
Proof.
  intros U Hnd Hincl.
  rewrite <- (filter_length (fun t => mem (Thread._id t) ids) ts).
  rewrite Nat.add_comm. f_equal.
  rewrite <- (length_map Thread._id).
  apply Permutation_length, NoDup_Permutation.
  - apply NoDup_map_filter. assumption.
  - assumption.
  - intros i. rewrite in_map_iff. split.
    + intros (t & <- & Ht). apply filter_In in Ht. apply mem_In. tauto.
    + intros Hi. destruct (proj1 (in_map_iff _ _ _) (Hincl i Hi)) as (t & <- & Ht).
      exists t. split; [reflexivity|]. apply filter_In. split; [assumption|].
      apply mem_In. assumption.
Qed.

(** ** Cascade delete *)

Lemma fetch_Return_find_ok faults fuel x w l w' :
  fetchAllChildThreads faults fuel x w = (Return l, w') ->
  faults ThreadModel Find w = None.
Proof.
  destruct fuel as [|n]; [discriminate|]. simpl.
  unfold bind at 1, Thread_find_children, query.
  destruct (faults ThreadModel Find w); [discriminate | reflexivity].
Qed.

Lemma User_byId_Some us i u :
  User_byId us i = Some u -> In u us /\ User._id u = i.
Proof. intros H. apply find_some in H. rewrite Nat.eqb_eq in H. exact H. Qed.

Lemma Community_byId_Some cs i c :
  Community_byId cs i = Some c -> In c cs /\ Community._id c = i.
Proof. intros H. apply find_some in H. rewrite Nat.eqb_eq in H. exact H. Qed.

Lemma deleteThread_Return faults fuel id path w w' :
  deleteThread faults fuel id path w = (Return tt, w') ->
  exists main l authors communities,
    Thread_byId (Thread_collection w) id = Some main /\
    fetchAllChildThreads faults fuel id w = (Return l, w) /\
    (forall a, In a authors <->
               (exists t, In t l /\ Thread.author t = a) \/
               (a = Thread.author main /\
                exists u, User_byId (User_collection w) a = Some u)) /\
    (forall c, In c communities <->
               (exists t, In t l /\ Thread.community t = Some c) \/
               (Thread.community main = Some c /\
                exists d, Community_byId (Community_collection w) c = Some d)) /\
    Thread_collection w'
    = filter (fun t => negb (mem (Thread._id t) (id :: map Thread._id l)))
             (Thread_collection w) /\
    User_collection w'
    = map (User_pull authors (id :: map Thread._id l)) (User_collection w) /\
    Community_collection w'
    = map (Community_pull communities (id :: map Thread._id l))
          (Community_collection w) /\
    now w' = now w /\ nextId w' = nextId w /\ console w' = console w.
Proof.
  unfold deleteThread, try_catch. intros H.
  match type of H with
  | (match ?b with _ => _ end) = _ => destruct b as [[[]|e|] w1] eqn:E
  end; try discriminate.
  injection H as <-.
  unfold connectToDB, bind, ret, Thread_findById, exec_populate, query in E.
  destruct (faults ThreadModel FindById w); [discriminate|].
  destruct (Thread_byId (Thread_collection w) id) as [main|] eqn:Hmain;
    [|discriminate].
  destruct (faults ThreadModel Populate w); [discriminate|].
  simpl in E.
  destruct (fetchAllChildThreads_reads faults fuel id w) as [r Hr].
  rewrite Hr in E. destruct r as [l|e|]; try discriminate.
  unfold Thread_deleteMany, User_updateMany_pull, Community_updateMany_pull,
    command, revalidatePath, ret in E.
  destruct (faults ThreadModel DeleteMany w); [discriminate|].
  destruct (faults UserModel UpdateMany _); [discriminate|].
  destruct (faults CommunityModel UpdateMany _); [discriminate|].
  injection E as <-.
  eexists main, l, _, _. split; [reflexivity|]. split; [exact Hr|].
  split; [|split; [|repeat split]].
  - intros a. rewrite Set_from_In, defined_In, in_app_iff, in_map_iff. simpl.
    assert (E1 : (exists x, Some (Thread.author x) = Some a /\ In x l) <->
                 (exists t, In t l /\ Thread.author t = a)).
    { split; intros (t & H1 & H2); exists t; split; congruence || assumption. }
    rewrite E1. apply or_iff_compat_l.
    destruct (User_byId (User_collection w) (Thread.author main)) as [u|] eqn:Hu;
      simpl.
    + destruct (User_byId_Some _ _ _ Hu) as [_ Hid]. split.
      * intros [[= <-] | []]. rewrite Hid. eauto.
      * intros [-> _]. left. congruence.
    + split; [intros [[=] | []] | intros (-> & u & Hu')]. congruence.
  - intros c. rewrite Set_from_In, defined_In, in_app_iff, in_map_iff. simpl.
    assert (E1 : (exists x, Thread.community x = Some c /\ In x l) <->
                 (exists t, In t l /\ Thread.community t = Some c)).
    { split; intros (t & H1 & H2); exists t; split; assumption. }
    rewrite E1. apply or_iff_compat_l.
    destruct (Thread.community main) as [i|]; simpl.
    + destruct (Community_byId (Community_collection w) i) as [d|] eqn:Hd; simpl.
      * destruct (Community_byId_Some _ _ _ Hd) as [_ Hid]. split.
        -- intros [[= <-] | []]. rewrite Hid. eauto.
        -- intros [[= <-] _]. left. congruence.
      * split; [intros [[=] | []] | intros ([= <-] & d & Hd')]. congruence.
    + split; [intros [[=] | []] | intros ([=] & _)].
Qed.

Lemma chain_length faults w :
  faults ThreadModel Find w = None ->
  forall depth n x l,
    chain (Thread_collection w) x depth ->
    fetchAllChildThreads faults n x w = (Return l, w) ->
    List.length l = depth.
Proof.
  intros Hfind. induction depth as [|depth IH]; intros n x l Hchain H;
    (destruct n as [|n]; [discriminate|]);
    apply (fetch_inv faults w Hfind) in H; destruct H as (bs & Hbs & Hall & ->);
    simpl in Hchain.
  - rewrite Hchain in Hbs. destruct bs; [reflexivity | discriminate].
  - destruct Hchain as (c & Hc & Hchain). rewrite Hc in Hbs.
    destruct bs as [|b [|b' bs]]; try discriminate.
    injection Hbs as <-. inversion Hall as [|? ? Hb _]; subst.
    simpl. rewrite app_nil_r. f_equal. eapply IH; eassumption.
Qed.

(** The ids the cascade deletes are exactly the ids of the subtree. *)
Lemma deleted_ids_subtree faults w fuel id main l :
  UniqueIds (Thread_collection w) ->
  Thread_byId (Thread_collection w) id = Some main ->
  fetchAllChildThreads faults fuel id w = (Return l, w) ->
  forall t, In t (Thread_collection w) ->
            (In (Thread._id t) (id :: map Thread._id l)
             <-> in_subtree (Thread_collection w) id t).
Proof.
  intros U Hmain Hl t Ht.
  pose proof (fetch_Return_find_ok _ _ _ _ _ _ Hl) as Hfind.
  unfold in_subtree. simpl. rewrite in_map_iff. split.
  - intros [<- | (t' & Hid & Ht')]; [left; reflexivity | right].
    pose proof (fetch_sound faults w Hfind fuel id l Hl t' Ht') as Hd.
    assert (t' = t) as <-; [|assumption].
    apply (unique_doc (Thread_collection w)); auto.
    eapply descends_In; eassumption.
  - intros [<- | Hd]; [left; reflexivity | right].
    exists t. split; [reflexivity|].
    eapply fetch_complete; eassumption.
Qed.

(** C1. For every existing thread id, in a store whose [parentId] relation
    is a forest, [deleteThread] succeeds and removes from the Thread
    collection exactly the target and the threads that descend from it: a
    stored thread survives if and only if it is outside the target's subtree,
    and when a single chain of [depth] replies hangs below the target, the
    collection shrinks by [depth + 1] threads (by one thread for a target
    without replies, [depth = 0]). *)
Theorem deleteThread_removes_subtree :
  forall w id path main,
    Thread_byId (Thread_collection w) id = Some main ->
    UniqueIds (Thread_collection w) ->
    Acyclic (Thread_collection w) ->
    forall fuel,
      List.length (Thread_collection w) < fuel ->
      exists w',
        deleteThread no_faults fuel id path w = (Return tt, w') /\
        (forall t, In t (Thread_collection w') <->
                   In t (Thread_collection w) /\
                   ~ in_subtree (Thread_collection w) id t) /\
        (forall depth,
            chain (Thread_collection w) id depth ->
            List.length (Thread_collection w)
            = List.length (Thread_collection w') + S depth).
Proof.
  intros w id path main Hmain U A fuel Hfuel.
  destruct (fetch_runs no_faults w eq_refl A fuel id Hfuel) as [l Hl].
  assert (Hrun : exists w', deleteThread no_faults fuel id path w = (Return tt, w')).
  { unfold deleteThread, try_catch, connectToDB, bind, ret, Thread_findById,
      exec_populate, query. simpl. rewrite Hmain. simpl. rewrite Hl.
    eexists. reflexivity. }
  destruct Hrun as [w' Hrun]. exists w'. split; [exact Hrun|].
  apply deleteThread_Return in Hrun.
  destruct Hrun as (main' & l' & authors & communities & Hmain' & Hl' & _ & _
                    & Hthreads & _).
  rewrite Hl in Hl'. injection Hl' as <-.
  pose proof (deleted_ids_subtree no_faults w fuel id main l U Hmain Hl) as Hsub.
  split.
  - intros t. rewrite Hthreads, filter_In, negb_true_iff, mem_not_In.
    split; intros [Ht Hn]; (split; [assumption|]); rewrite (Hsub t Ht) in *;
      assumption.
  - intros depth Hchain. rewrite Hthreads.
    rewrite <- (chain_length no_faults w eq_refl depth fuel id l Hchain Hl).
    rewrite <- (length_map Thread._id l).
    change (S (List.length (map Thread._id l)))
      with (List.length (id :: map Thread._id l)).
    destruct (Thread_byId_Some _ _ _ Hmain) as [Hin Hid].
    apply deleteMany_count.
    + exact U.
    + constructor.
      * intros Hx. apply in_map_iff in Hx. destruct Hx as (t & Ht & Htl).
        pose proof (fetch_sound no_faults w eq_refl fuel id l Hl t Htl) as Hd.
        assert (t = main) as ->.
        { apply (unique_doc (Thread_collection w)); auto.
          - eapply descends_In; eassumption.
          - congruence. }
        apply (A main). rewrite Hid. exact Hd.
      * apply (NoDup_ids w U).
        -- intros t Ht. eapply descends_In, (fetch_sound no_faults w eq_refl);
             eassumption.
        -- eapply (fetch_NoDup no_faults w eq_refl); eassumption.
    + intros i [<- | Hi].
      * rewrite <- Hid. apply in_map. assumption.
      * apply in_map_iff in Hi. destruct Hi as (t & <- & Ht). apply in_map.
        eapply descends_In, (fetch_sound no_faults w eq_refl); eassumption.
Qed.

Lemma deleteThread_removes_subtree_witness :
  exists w',
    deleteThread no_faults 9 1 "/" forum = (Return tt, w') /\
    (forall t, In t (Thread_collection w') <->
               In t (Thread_collection forum) /\
               ~ in_subtree (Thread_collection forum) 1 t) /\
    (forall depth,
        chain (Thread_collection forum) 1 depth ->
        List.length (Thread_collection forum)
        = List.length (Thread_collection w') + S depth).
Proof.
  apply (deleteThread_removes_subtree forum 1 "/" post1).
  - reflexivity.
  - distinct_ids.
  - apply (ranked_acyclic _ (fun i => i)). reflexivity.
  - simpl. lia.
Defined.

Example deleteThread_forum :
  deleteThread no_faults 9 1 "/" forum
  = (Return tt,
     mkWorld [post6; reply7; post8]
             [User.mk 100 "user_alice" "Alice" "alice.png" [8]; bob]
             [Community.mk 200 "org_guild" "Guild" "guild.png" [6]]
             1000 9 []).
Proof. reflexivity. Qed.

(** Deleting the bottom of the chain 2 - 4 - 5 removes three threads. *)
Example deleteThread_chain :
  chain (Thread_collection forum) 2 2 /\
  map Thread._id (Thread_collection (snd (deleteThread no_faults 9 2 "/" forum)))
  = [1; 3; 6; 7; 8].
Proof.
  split; [|reflexivity].
  exists reply4. split; [reflexivity|]. exists reply5. split; reflexivity.
Qed.

Example deleteThread_missing :
  deleteThread no_faults 9 42 "/" forum
  = (Throw "Failed to delete thread: Thread not found", forum).
Proof. reflexivity. Qed.

Lemma find_exists {A} (f : A -> bool) l x :
  In x l -> f x = true -> exists y, find f l = Some y.
Proof.
  intros Hin Hf. destruct (find f l) as [y|] eqn:E; [eauto|].
  rewrite (find_none f l E x Hin) in Hf. discriminate.
Qed.

Lemma find_filter_same {A} (f q : A -> bool) l :
  (forall y, In y l -> f y = true -> q y = true) ->
  find f (filter q l) = find f l.
Proof.
  induction l as [|y l IH]; simpl; intros H; [reflexivity|].
  destruct (f y) eqn:Hf.
  - rewrite (H y) by auto. simpl. rewrite Hf. reflexivity.
  - destruct (q y); simpl; rewrite ?Hf; apply IH; auto.
Qed.

Lemma Forall2_map_self {A} (R : A -> A -> Prop) (f : A -> A) l :
  (forall x, In x l -> R x (f x)) -> Forall2 R l (map f l).
Proof.
  induction l as [|x l IH]; simpl; intros H; constructor; auto.
Qed.

(** What the cascade deleted, read off the collection before and after. *)
Lemma deleted_ids faults w fuel id main l :
  Thread_byId (Thread_collection w) id = Some main ->
  fetchAllChildThreads faults fuel id w = (Return l, w) ->
  forall i,
    In i (id :: map Thread._id l) <->
    In i (map Thread._id (Thread_collection w)) /\
    ~ In i (map Thread._id
                (filter (fun t => negb (mem (Thread._id t) (id :: map Thread._id l)))
                        (Thread_collection w))).
Proof.
  intros Hmain Hl i.
  pose proof (fetch_Return_find_ok _ _ _ _ _ _ Hl) as Hfind.
  destruct (Thread_byId_Some _ _ _ Hmain) as [Hin Hid].
  split.
  - intros Hi. split.
    + destruct Hi as [<- | Hi].
      * rewrite <- Hid. apply in_map. assumption.
      * apply in_map_iff in Hi. destruct Hi as (t & <- & Ht). apply in_map.
        eapply descends_In, (fetch_sound faults w Hfind); eassumption.
    + intros Hx. apply in_map_iff in Hx. destruct Hx as (t & <- & Ht).
      apply filter_In in Ht. destruct Ht as [_ Ht].
      apply negb_true_iff, mem_not_In in Ht. contradiction.
  - intros [Hi Hgone].
    destruct (in_dec Nat.eq_dec i (id :: map Thread._id l)) as [|Hn]; [assumption|].
    exfalso. apply Hgone. apply in_map_iff in Hi. destruct Hi as (t & <- & Ht).
    apply in_map, filter_In. split; [assumption|].
    apply negb_true_iff, mem_not_In. assumption.
Qed.

(** C2. After a successful [deleteThread], with the deleted ids read off
    the Thread collection before and after: every user keeps its identity,
    and the entries of its [threads] list that were not deleted are the same
    before and after, in the same order.  The list of every author of a
    deleted thread is its old list with the deleted ids taken out and all
    others kept in place, so it holds no deleted id; the list of a user who
    wrote none of the deleted threads is not touched; and when the lists
    name only threads of their own user, as the data model demands and as
    the writes keep it (the invariant [Owned]), the list of every user is
    its old list without the deleted ids.  The same holds for the
    communities and the threads posted in them. *)
Theorem deleteThread_scrubs_back_references :
  forall faults fuel id path w w',
    deleteThread faults fuel id path w = (Return tt, w') ->
    UniqueIds (Thread_collection w) ->
    Forall2
      (fun u u' =>
         (User._id u' = User._id u /\ User.id u' = User.id u /\
          User.name u' = User.name u /\ User.image u' = User.image u) /\
         (exists kept, without (deleted w w') (User.threads u) kept /\
                       without (deleted w w') (User.threads u') kept) /\
         ((exists t, In t (Thread_collection w) /\ deleted w w' (Thread._id t) /\
                     Thread.author t = User._id u) ->
          without (deleted w w') (User.threads u) (User.threads u') /\
          forall i, deleted w w' i -> ~ In i (User.threads u')) /\
         ((forall t, In t (Thread_collection w) -> deleted w w' (Thread._id t) ->
                     Thread.author t <> User._id u) ->
          User.threads u' = User.threads u) /\
         ((forall t, In t (Thread_collection w) ->
                     In (Thread._id t) (User.threads u) ->
                     Thread.author t = User._id u) ->
          without (deleted w w') (User.threads u) (User.threads u') /\
          forall i, deleted w w' i -> ~ In i (User.threads u')))
      (User_collection w) (User_collection w') /\
    Forall2
      (fun c c' =>
         (Community._id c' = Community._id c /\ Community.id c' = Community.id c /\
          Community.name c' = Community.name c /\
          Community.image c' = Community.image c) /\
         (exists kept, without (deleted w w') (Community.threads c) kept /\
                       without (deleted w w') (Community.threads c') kept) /\
         ((exists t, In t (Thread_collection w) /\ deleted w w' (Thread._id t) /\
                     Thread.community t = Some (Community._id c)) ->
          without (deleted w w') (Community.threads c) (Community.threads c') /\
          forall i, deleted w w' i -> ~ In i (Community.threads c')) /\
         ((forall t, In t (Thread_collection w) -> deleted w w' (Thread._id t) ->
                     Thread.community t <> Some (Community._id c)) ->
          Community.threads c' = Community.threads c) /\
         ((forall t, In t (Thread_collection w) ->
                     In (Thread._id t) (Community.threads c) ->
                     Thread.community t = Some (Community._id c)) ->
          without (deleted w w') (Community.threads c) (Community.threads c') /\
          forall i, deleted w w' i -> ~ In i (Community.threads c')))
      (Community_collection w) (Community_collection w').
Proof.
  intros faults fuel id path w w' Hrun U.
  apply deleteThread_Return in Hrun.
  destruct Hrun as (main & l & authors & communities & Hmain & Hl & Hauthors
                    & Hcommunities & Hthreads & Husers & Hcomms & _).
  pose proof (fetch_Return_find_ok _ _ _ _ _ _ Hl) as Hfind.
  destruct (Thread_byId_Some _ _ _ Hmain) as [Hin Hid].
  set (ids := id :: map Thread._id l) in *.
  assert (HD : forall i, deleted w w' i <-> In i ids).
  { intros i. unfold deleted. rewrite Hthreads. symmetry.
    apply (deleted_ids faults w fuel id main l Hmain Hl). }
  (* a stored thread with a deleted id is the target or is enumerated *)
  assert (Hwho : forall t, In t (Thread_collection w) -> In (Thread._id t) ids ->
                           t = main \/ In t l).
  { intros t Ht [Hi | Hi].
    - left. apply (unique_doc (Thread_collection w)); auto. congruence.
    - right. apply in_map_iff in Hi. destruct Hi as (t' & Heq & Ht').
      assert (t' = t) as <-; [|assumption].
      apply (unique_doc (Thread_collection w)); auto.
      eapply descends_In, (fetch_sound faults w Hfind); eassumption. }
  assert (Hl_stored : forall t, In t l -> In t (Thread_collection w) /\
                                          In (Thread._id t) ids).
  { intros t Ht. split.
    - eapply descends_In, (fetch_sound faults w Hfind); eassumption.
    - right. apply in_map. assumption. }
  assert (Hstored : forall i, In i ids ->
                              exists t, In t (Thread_collection w) /\ Thread._id t = i).
  { intros i Hi. apply HD in Hi. destruct Hi as [Hi _]. apply in_map_iff in Hi.
    destruct Hi as (t & Ht & Hti). eauto. }
  split.
  - rewrite Husers. apply Forall2_map_self. intros u Hu.
    assert (Hyes : (exists t, In t (Thread_collection w) /\
                              deleted w w' (Thread._id t) /\
                              Thread.author t = User._id u) ->
                   mem (User._id u) authors = true).
    { intros (t & Ht & Hti & Hta). apply mem_In, Hauthors. apply HD in Hti.
      destruct (Hwho t Ht Hti) as [-> | Htl].
      - right. split; [congruence|].
        apply (find_exists _ _ u Hu). apply Nat.eqb_refl.
      - left. eauto. }
    assert (Hno : mem (User._id u) authors = true ->
                  exists t, In t (Thread_collection w) /\
                            deleted w w' (Thread._id t) /\
                            Thread.author t = User._id u).
    { intros Hm. apply mem_In, Hauthors in Hm.
      destruct Hm as [(t & Ht & Hta) | [Hta _]].
      - exists t. destruct (Hl_stored t Ht). rewrite HD. auto.
      - exists main. rewrite HD. repeat split; auto. left. congruence. }
    assert (Hpulled : mem (User._id u) authors = true ->
                      without (deleted w w') (User.threads u)
                              (User.threads (User_pull authors ids u)) /\
                      forall i, deleted w w' i ->
                                ~ In i (User.threads (User_pull authors ids u))).
    { intros Hm.
      assert (Hw : without (deleted w w') (User.threads u)
                           (User.threads (User_pull authors ids u))).
      { unfold User_pull. rewrite Hm. cbn [User.threads].
        apply without_pull. assumption. }
      split; [assumption|]. intros i Hi Hx.
      apply (without_In _ _ _ Hw) in Hx. tauto. }
    split; [|split; [|split; [|split]]].
    + unfold User_pull. destruct (mem (User._id u) authors); auto.
    + destruct (mem (User._id u) authors) eqn:Hm.
      * exists (User.threads (User_pull authors ids u)).
        destruct (Hpulled eq_refl) as [Hw Hnone]. split; [assumption|].
        apply without_same. intros i Hi Hd. exact (Hnone i Hd Hi).
      * exists (pull ids (User.threads u)). unfold User_pull. rewrite Hm.
        split; apply without_pull; assumption.
    + intros Hex. apply Hpulled, Hyes, Hex.
    + intros Hnone. unfold User_pull.
      destruct (mem (User._id u) authors) eqn:Hm; [|reflexivity].
      destruct (Hno eq_refl) as (t & Ht & Hti & Hta).
      exfalso. exact (Hnone t Ht Hti Hta).
    + intros Hown.
      destruct (mem (User._id u) authors) eqn:Hm; [apply Hpulled; reflexivity|].
      assert (Hclean : forall i, In i (User.threads u) -> ~ deleted w w' i).
      { intros i Hi Hd. pose proof Hd as Hd'. apply HD in Hd'.
        destruct (Hstored i Hd') as (t & Ht & <-).
        enough (false = true) by discriminate. apply Hyes. eauto. }
      unfold User_pull. rewrite Hm. split.
      * apply without_same. assumption.
      * intros i Hd Hi. exact (Hclean i Hi Hd).
  - rewrite Hcomms. apply Forall2_map_self. intros c Hc.
    assert (Hyes : (exists t, In t (Thread_collection w) /\
                              deleted w w' (Thread._id t) /\
                              Thread.community t = Some (Community._id c)) ->
                   mem (Community._id c) communities = true).
    { intros (t & Ht & Hti & Htc). apply mem_In, Hcommunities. apply HD in Hti.
      destruct (Hwho t Ht Hti) as [-> | Htl].
      - right. split; [assumption|].
        apply (find_exists _ _ c Hc). apply Nat.eqb_refl.
      - left. eauto. }
    assert (Hno : mem (Community._id c) communities = true ->
                  exists t, In t (Thread_collection w) /\
                            deleted w w' (Thread._id t) /\
                            Thread.community t = Some (Community._id c)).
    { intros Hm. apply mem_In, Hcommunities in Hm.
      destruct Hm as [(t & Ht & Htc) | [Htc _]].
      - exists t. destruct (Hl_stored t Ht). rewrite HD. auto.
      - exists main. rewrite HD. repeat split; auto. left. congruence. }
    assert (Hpulled : mem (Community._id c) communities = true ->
                      without (deleted w w') (Community.threads c)
                              (Community.threads (Community_pull communities ids c)) /\
                      forall i, deleted w w' i ->
                                ~ In i (Community.threads
                                          (Community_pull communities ids c))).
    { intros Hm.
      assert (Hw : without (deleted w w') (Community.threads c)
                           (Community.threads (Community_pull communities ids c))).
      { unfold Community_pull. rewrite Hm. cbn [Community.threads].
        apply without_pull. assumption. }
      split; [assumption|]. intros i Hi Hx.
      apply (without_In _ _ _ Hw) in Hx. tauto. }
    split; [|split; [|split; [|split]]].
    + unfold Community_pull. destruct (mem (Community._id c) communities); auto.
    + destruct (mem (Community._id c) communities) eqn:Hm.
      * exists (Community.threads (Community_pull communities ids c)).
        destruct (Hpulled eq_refl) as [Hw Hnone]. split; [assumption|].
        apply without_same. intros i Hi Hd. exact (Hnone i Hd Hi).
      * exists (pull ids (Community.threads c)). unfold Community_pull. rewrite Hm.
        split; apply without_pull; assumption.
    + intros Hex. apply Hpulled, Hyes, Hex.
    + intros Hnone. unfold Community_pull.
      destruct (mem (Community._id c) communities) eqn:Hm; [|reflexivity].
      destruct (Hno eq_refl) as (t & Ht & Hti & Htc).
      exfalso. exact (Hnone t Ht Hti Htc).
    + intros Hown.
      destruct (mem (Community._id c) communities) eqn:Hm;
        [apply Hpulled; reflexivity|].
      assert (Hclean : forall i, In i (Community.threads c) -> ~ deleted w w' i).
      { intros i Hi Hd. pose proof Hd as Hd'. apply HD in Hd'.
        destruct (Hstored i Hd') as (t & Ht & <-).
        enough (false = true) by discriminate. apply Hyes. eauto. }
      unfold Community_pull. rewrite Hm. split.
      * apply without_same. assumption.
      * intros i Hd Hi. exact (Hclean i Hi Hd).
Qed.

Lemma deleteThread_scrubs_back_references_witness :
  let forum' := snd (deleteThread no_faults 9 1 "/" forum) in
  Forall2
    (fun u u' =>
       (User._id u' = User._id u /\ User.id u' = User.id u /\
        User.name u' = User.name u /\ User.image u' = User.image u) /\
       (exists kept, without (deleted forum forum') (User.threads u) kept /\
                     without (deleted forum forum') (User.threads u') kept) /\
       ((exists t, In t (Thread_collection forum) /\ deleted forum forum' (Thread._id t) /\
                   Thread.author t = User._id u) ->
        without (deleted forum forum') (User.threads u) (User.threads u') /\
        forall i, deleted forum forum' i -> ~ In i (User.threads u')) /\
       ((forall t, In t (Thread_collection forum) -> deleted forum forum' (Thread._id t) ->
                   Thread.author t <> User._id u) ->
        User.threads u' = User.threads u) /\
       ((forall t, In t (Thread_collection forum) ->
                   In (Thread._id t) (User.threads u) ->
                   Thread.author t = User._id u) ->
        without (deleted forum forum') (User.threads u) (User.threads u') /\
        forall i, deleted forum forum' i -> ~ In i (User.threads u')))
    (User_collection forum) (User_collection forum') /\
  Forall2
    (fun c c' =>
       (Community._id c' = Community._id c /\ Community.id c' = Community.id c /\
        Community.name c' = Community.name c /\
        Community.image c' = Community.image c) /\
       (exists kept, without (deleted forum forum') (Community.threads c) kept /\
                     without (deleted forum forum') (Community.threads c') kept) /\
       ((exists t, In t (Thread_collection forum) /\ deleted forum forum' (Thread._id t) /\
                   Thread.community t = Some (Community._id c)) ->
        without (deleted forum forum') (Community.threads c) (Community.threads c') /\
        forall i, deleted forum forum' i -> ~ In i (Community.threads c')) /\
       ((forall t, In t (Thread_collection forum) -> deleted forum forum' (Thread._id t) ->
                   Thread.community t <> Some (Community._id c)) ->
        Community.threads c' = Community.threads c) /\
       ((forall t, In t (Thread_collection forum) ->
                   In (Thread._id t) (Community.threads c) ->
                   Thread.community t = Some (Community._id c)) ->
        without (deleted forum forum') (Community.threads c) (Community.threads c') /\
        forall i, deleted forum forum' i -> ~ In i (Community.threads c')))
    (Community_collection forum) (Community_collection forum').
Proof.
  apply (deleteThread_scrubs_back_references no_faults 9 1 "/" forum).
  - reflexivity.
  - distinct_ids.
Defined.

(** In the sample, deleting post 1 takes 1 out of Alice's list and out of the
    community's list, and leaves 8 and 6 where they were. *)
Example deleteThread_forum_lists :
  let forum' := snd (deleteThread no_faults 9 1 "/" forum) in
  map User.threads (User_collection forum') = [[8]; [6]] /\
  map Community.threads (Community_collection forum') = [[6]].
Proof. split; reflexivity. Qed.

(** C5. A successful [deleteThread] writes to no surviving thread: every
    document of the Thread collection afterwards is a document of the
    collection before, every id that still resolves resolves to the document
    it resolved to before, and every thread outside the deleted subtree is
    still there.  In particular, when the deleted thread is a comment whose
    parent lies outside the deleted subtree, the parent is found afterwards
    as the very same document, its [children] list included, while the
    comment's id no longer resolves: where that list named the comment, it
    now holds a dangling id. *)
Theorem deleteThread_leaves_survivors_untouched :
  forall faults fuel id path w w',
    deleteThread faults fuel id path w = (Return tt, w') ->
    UniqueIds (Thread_collection w) ->
    (forall t, In t (Thread_collection w') -> In t (Thread_collection w)) /\
    (forall i t, Thread_byId (Thread_collection w') i = Some t ->
                 Thread_byId (Thread_collection w) i = Some t) /\
    (forall t, In t (Thread_collection w) ->
               ~ in_subtree (Thread_collection w) id t ->
               In t (Thread_collection w')) /\
    (forall comment pid parent,
        Thread_byId (Thread_collection w) id = Some comment ->
        Thread.parentId comment = Some pid ->
        Thread_byId (Thread_collection w) pid = Some parent ->
        ~ in_subtree (Thread_collection w) id parent ->
        Thread_byId (Thread_collection w') pid = Some parent /\
        Thread_byId (Thread_collection w') id = None /\
        (In id (Thread.children parent) ->
         exists parent', Thread_byId (Thread_collection w') pid = Some parent' /\
                         In id (Thread.children parent') /\
                         Thread_byId (Thread_collection w') id = None)).
Proof.
  intros faults fuel id path w w' Hrun U.
  apply deleteThread_Return in Hrun.
  destruct Hrun as (main & l & _ & _ & Hmain & Hl & _ & _ & Hthreads & _).
  pose proof (deleted_ids_subtree faults w fuel id main l U Hmain Hl) as Hsub.
  assert (Hgone : Thread_byId (Thread_collection w') id = None).
  { rewrite Hthreads. apply find_filter_None. intros t _ Ht.
    apply Nat.eqb_eq in Ht. apply negb_false_iff, mem_In. left. congruence. }
  assert (Hkeep : forall pid parent,
             Thread_byId (Thread_collection w) pid = Some parent ->
             ~ in_subtree (Thread_collection w) id parent ->
             Thread_byId (Thread_collection w') pid = Some parent).
  { intros pid parent Hp Hout. rewrite Hthreads.
    apply find_filter_Some; [assumption|].
    destruct (Thread_byId_Some _ _ _ Hp) as [Hin _].
    apply negb_true_iff, mem_not_In. rewrite (Hsub parent Hin). assumption. }
  split; [|split; [|split]].
  - intros t. rewrite Hthreads, filter_In. tauto.
  - intros i t. rewrite Hthreads. unfold Thread_byId. intros Hfound.
    rewrite find_filter_same in Hfound; [assumption|].
    intros y _ Hy. apply find_some in Hfound. destruct Hfound as [Ht Hi].
    apply filter_In in Ht. destruct Ht as [_ Ht].
    apply Nat.eqb_eq in Hy, Hi. rewrite Hy, <- Hi. assumption.
  - intros t Ht Hout. rewrite Hthreads. apply filter_In. split; [assumption|].
    apply negb_true_iff, mem_not_In. rewrite (Hsub t Ht). assumption.
  - intros comment pid parent _ _ Hp Hout.
    split; [auto | split; [assumption|]].
    intros Hdangling. exists parent. auto.
Qed.

Lemma deleteThread_leaves_survivors_untouched_witness :
  let forum' := snd (deleteThread no_faults 9 3 "/" forum) in
  Thread_byId (Thread_collection forum') 1 = Some post1 /\
  Thread_byId (Thread_collection forum') 3 = None /\
  (In 3 (Thread.children post1) ->
   exists parent', Thread_byId (Thread_collection forum') 1 = Some parent' /\
                   In 3 (Thread.children parent') /\
                   Thread_byId (Thread_collection forum') 3 = None).
Proof.
  refine (proj2 (proj2 (proj2
            (deleteThread_leaves_survivors_untouched
               no_faults 9 3 "/" forum _ _ _))) reply3 1 post1 _ _ _ _).
  - reflexivity.
  - distinct_ids.
  - reflexivity.
  - reflexivity.
  - reflexivity.
  - intros [H | H]; [discriminate H|].
    apply (ranked_sound _ (fun i => i)) in H; [simpl in H; lia | reflexivity].
Defined.

(** ** Tree fetch *)

Lemma Thread_byId_absent ts i :
  ~ In i (map Thread._id ts) -> Thread_byId ts i = None.
Proof.
  intros Hn. unfold Thread_byId.
  destruct (find (fun t => Nat.eqb (Thread._id t) i) ts) as [t|] eqn:E;
    [|reflexivity].
  apply find_some in E. destruct E as [Ht Hi]. apply Nat.eqb_eq in Hi.
  exfalso. apply Hn. rewrite <- Hi. apply in_map. assumption.
Qed.



(** With the unique index on [_id], [resolves] leaves no choice either. *)
Lemma resolves_functional ts ids ds ds' :
  UniqueIds ts -> resolves ts ids ds -> resolves ts ids ds' -> ds = ds'.
Proof.
  intros U H. revert ds'.
  induction H as [|i ids t ds Ht Hi _ IH|i ids ds Hno _ IH]; intros ds' H';
    inversion H' as [|i' ids' t' ds0 Ht' Hi' Hrest|i' ids' ds0 Hno' Hrest]; subst.
  - reflexivity.
  - f_equal; [|auto]. apply (unique_doc ts); auto.
  - exfalso. exact (Hno' t Ht eq_refl).
  - exfalso. exact (Hno t' Ht' eq_refl).
  - auto.
Qed.




(** The chain 1 - 2 - 4 - 5 of the sample: 2 and 4 come back as documents,
    5 as an id. *)
Example fetchThreadById_forum :
  exists a1 c1 a2 c2 a3 c3 a4 c4,
    fetchThreadById no_faults 1 forum
    = (Return (Some (PT post1 a1 c1
                        (inr [PT reply2 a2 c2 (inr [PT reply4 a4 c4 (inl [5])]);
                              PT reply3 a3 c3 (inr [])]))),
       forum).
Proof. repeat eexists. Qed.

(** C3, as the code has it.  For an id without a thread, [fetchThreadById]
    does not fail: unless the lookup itself fails, the promise fulfils with
    [null], whatever populate would do.  When the lookup fails, or when the
    populate of a thread that was found fails, the cause is written to the
    console and the error signalled is the fixed ["Unable to fetch thread"]. *)
Theorem fetchThreadById_missing_or_failing :
  forall faults threadId w,
    (~ In threadId (map Thread._id (Thread_collection w)) ->
     faults ThreadModel FindById w = None ->
     fetchThreadById faults threadId w = (Return None, w)) /\
    (forall cause,
        faults ThreadModel FindById w = Some cause ->
        fetchThreadById faults threadId w
        = (Throw "Unable to fetch thread",
           log w ("Error while fetching thread: " ++ cause)%string)) /\
    (forall cause,
        faults ThreadModel FindById w = None ->
        In threadId (map Thread._id (Thread_collection w)) ->
        faults ThreadModel Populate w = Some cause ->
        fetchThreadById faults threadId w
        = (Throw "Unable to fetch thread",
           log w ("Error while fetching thread: " ++ cause)%string)).
Proof.
  intros faults threadId w.
  unfold fetchThreadById, connectToDB, try_catch, bind, ret, throw, console_error,
    Thread_findById, exec_populate, query. simpl. split; [|split].
  - intros Hmissing ->. rewrite (Thread_byId_absent _ _ Hmissing). reflexivity.
  - intros cause ->. reflexivity.
  - intros cause -> Hin Hp.
    destruct (Thread_byId (Thread_collection w) threadId) as [t|] eqn:E.
    + rewrite Hp. reflexivity.
    + exfalso. apply in_map_iff in Hin. destruct Hin as (t & Hi & Ht).
      apply (find_none _ _ E) in Ht. apply Nat.eqb_neq in Ht. contradiction.
Qed.

Lemma fetchThreadById_missing_or_failing_witness :
  fetchThreadById no_faults 42 forum = (Return None, forum) /\
  fetchThreadById populate_down 42 forum = (Return None, forum) /\
  fetchThreadById outage 42 forum
  = (Throw "Unable to fetch thread",
     log forum "Error while fetching thread: connection lost") /\
  fetchThreadById populate_down 1 forum
  = (Throw "Unable to fetch thread",
     log forum "Error while fetching thread: cursor lost").
Proof.
  assert (Hmissing : ~ In 42 (map Thread._id (Thread_collection forum))).
  { simpl. intros H. repeat (destruct H as [H | H]; [discriminate H|]). exact H. }
  split; [|split; [|split]].
  - apply (proj1 (fetchThreadById_missing_or_failing no_faults 42 forum));
      [exact Hmissing | reflexivity].
  - apply (proj1 (fetchThreadById_missing_or_failing populate_down 42 forum));
      [exact Hmissing | reflexivity].
  - apply (proj1 (proj2 (fetchThreadById_missing_or_failing outage 42 forum))
                 "connection lost").
    reflexivity.
  - apply (proj2 (proj2 (fetchThreadById_missing_or_failing populate_down 1 forum))
                 "cursor lost").
    + reflexivity.
    + simpl. left. reflexivity.
    + reflexivity.
Defined.

(** No thread has the id 42, and fetching it is not an error. *)
Lemma fetchThreadById_missing_is_no_error :
  Thread_byId (Thread_collection forum) 42 = None /\
  fetchThreadById no_faults 42 forum = (Return None, forum) /\
  forall e w', fetchThreadById no_faults 42 forum <> (Throw e, w').
Proof.
  split; [reflexivity|]. split; [reflexivity|]. intros e w'. discriminate.
Qed.

(** ** What a caller sees of a failure *)

Lemma fetch_Throw faults n :
  forall x w e w',
    fetchAllChildThreads faults n x w = (Throw e, w') ->
    faults ThreadModel Find w = Some e.
Proof.
  induction n as [|n IH]; intros x w e w'; [discriminate|].
  simpl. unfold bind at 1, Thread_find_children, query.
  destruct (faults ThreadModel Find w) as [e0|] eqn:F; [intros [= <- _]; reflexivity|].
  generalize (filter (has_parent x) (Thread_collection w)) as cs.
  generalize (@nil Thread.doc) as acc. intros acc cs. revert acc.
  induction cs as [|c cs IHcs]; intros acc; simpl; [discriminate|].
  unfold bind at 1 2.
  destruct (fetchAllChildThreads_reads faults n (Thread._id c) w) as [r Hr].
  rewrite Hr. destruct r as [ds|e0|]; [apply IHcs | | discriminate].
  intros [= <- <-]. apply IH in Hr. congruence.
Qed.

Lemma fetch_Find_fails faults n x w cause :
  faults ThreadModel Find w = Some cause ->
  fetchAllChildThreads faults (S n) x w = (Throw cause, w).
Proof.
  intros F. simpl. unfold bind at 1, Thread_find_children, query.
  rewrite F. reflexivity.
Qed.

Ltac step H :=
  match type of H with
  | context [match ?f ?m ?o ?w with Some _ => _ | None => _ end] =>
      let F := fresh "F" in destruct (f m o w) eqn:F
  | context [if ?b then _ else _] => destruct b eqn:?
  | context [match ?x with Some _ => _ | None => _ end] => destruct x eqn:?
  end; simpl in H.

Lemma createThread_Throw faults text author communityId path w e w' :
  createThread faults text author communityId path w = (Throw e, w') ->
  exists cause,
    e = ("Failed to create post: " ++ cause)%string /\
    (store_failure faults cause \/ cause = text_required \/ cause = duplicate_key).
Proof.
  unfold createThread, try_catch. intros H.
  match type of H with
  | (match ?b with _ => _ end) = _ => destruct b as [[[]|cause|] w1] eqn:E
  end; try discriminate.
  unfold throw in H. injection H as <- <-.
  exists cause. split; [reflexivity|].
  unfold connectToDB, bind, ret, Community_findOne_id, Thread_insert,
    User_findByIdAndUpdate_push, Community_findByIdAndUpdate_push, query, command,
    revalidatePath in E. simpl in E.
  repeat step E; try discriminate; injection E as <- <-;
    solve [ left; do 3 eexists; eassumption | auto ].
Qed.

Lemma deleteThread_Throw faults fuel id path w e w' :
  deleteThread faults fuel id path w = (Throw e, w') ->
  exists cause,
    e = ("Failed to delete thread: " ++ cause)%string /\
    (store_failure faults cause \/ cause = "Thread not found").
Proof.
  unfold deleteThread, try_catch. intros H.
  match type of H with
  | (match ?b with _ => _ end) = _ => destruct b as [[[]|cause|] w1] eqn:E
  end; try discriminate.
  unfold throw in H. injection H as <- <-.
  exists cause. split; [reflexivity|].
  unfold connectToDB, bind, ret, throw, Thread_findById, exec_populate, query in E.
  simpl in E.
  destruct (faults ThreadModel FindById w) eqn:F1;
    [injection E as <- <-; left; do 3 eexists; eassumption|].
  destruct (Thread_byId (Thread_collection w) id) as [main|]; simpl in E;
    [|injection E as <- <-; auto].
  destruct (faults ThreadModel Populate w) eqn:F2;
    [injection E as <- <-; left; do 3 eexists; eassumption|].
  simpl in E.
  destruct (fetchAllChildThreads_reads faults fuel id w) as [r Hr].
  rewrite Hr in E. destruct r as [l|e0|]; [| |discriminate].
  - unfold Thread_deleteMany, User_updateMany_pull, Community_updateMany_pull,
      command, revalidatePath, ret in E.
    repeat step E; try discriminate; injection E as <- <-;
      left; do 3 eexists; eassumption.
  - injection E as <- <-. apply fetch_Throw in Hr. left. do 3 eexists. eassumption.
Qed.

Lemma fetchThreadById_Throw faults threadId w e w' :
  fetchThreadById faults threadId w = (Throw e, w') ->
  e = "Unable to fetch thread" /\
  exists cause,
    store_failure faults cause /\
    w' = log w ("Error while fetching thread: " ++ cause)%string.
Proof.
  unfold fetchThreadById, connectToDB, try_catch, bind, ret, throw, console_error,
    Thread_findById, exec_populate, query. simpl.
  destruct (faults ThreadModel FindById w) eqn:F1.
  - intros [= <- <-]. split; [reflexivity|]. eexists. split; [|reflexivity].
    do 3 eexists. eassumption.
  - destruct (Thread_byId (Thread_collection w) threadId); [|discriminate].
    destruct (faults ThreadModel Populate w) eqn:F2; [|discriminate].
    intros [= <- <-]. split; [reflexivity|]. eexists. split; [|reflexivity].
    do 3 eexists. eassumption.
Qed.

Lemma addCommentToThread_Throw faults threadId commentText userId path w e w' :
  addCommentToThread faults threadId commentText userId path w = (Throw e, w') ->
  e = "Unable to add comment" /\
  exists cause w1,
    (store_failure faults cause \/ cause = "Thread not found" \/
     cause = text_required \/ cause = duplicate_key \/ cause = document_gone) /\
    w' = log w1 ("Error while adding comment: " ++ cause)%string.
Proof.
  unfold addCommentToThread, connectToDB, try_catch, bind, ret, throw, console_error,
    Thread_findById, Thread_insert, Thread_save_children, revalidatePath, query.
  simpl. intros H.
  repeat step H; try discriminate; injection H as <- <-;
    (split; [reflexivity|]); eexists _, _; (split; [|reflexivity]);
    solve [ left; do 3 eexists; eassumption | auto 6 ].
Qed.

Lemma fetchPosts_Throw faults pageNumber pageSize w e w' :
  fetchPosts faults pageNumber pageSize w = (Throw e, w') ->
  (store_failure faults e \/ e = negative_skip) /\ w' = w.
Proof.
  unfold fetchPosts, connectToDB, bind, ret, Thread_countDocuments_posts,
    Thread_find_posts, skip_limit, query. simpl. intros H.
  destruct (faults ThreadModel CountDocuments w) eqn:F1;
    [injection H as <- <-; split; [left; do 3 eexists; eassumption | reflexivity]|].
  destruct (faults ThreadModel Find w) eqn:F2;
    [injection H as <- <-; split; [left; do 3 eexists; eassumption | reflexivity]|].
  destruct ((pageNumber - 1) * pageSize <? 0)%Z;
    [injection H as <- <-; auto|].
  destruct (pageSize =? 0)%Z;
    match type of H with
    | context [match ?page with [] => _ | _ :: _ => _ end] => destruct page
    end; try discriminate;
    (destruct (faults ThreadModel Populate w) eqn:F3; [|discriminate]);
    injection H as <- <-; (split; [left; do 3 eexists; eassumption | reflexivity]).
Qed.

Lemma Thread_byId_present ts i :
  In i (map Thread._id ts) -> exists t, Thread_byId ts i = Some t.
Proof.
  intros Hin. apply in_map_iff in Hin. destruct Hin as (t & Hi & Ht).
  apply (find_exists _ _ t Ht). apply Nat.eqb_eq. assumption.
Qed.

Lemma createThread_resignals faults text author communityId path w :
  let found := Community_byExtId (Community_collection w) communityId in
  let created :=
    Thread.mk (nextId w) text author (option_map Community._id found)
              (now w) None [] in
  let w0 := set_nextId w (S (nextId w)) in
  let w1 := set_threads w0 (Thread_collection w ++ [created]) in
  let w2 := set_users w1 (update_first (fun u => Nat.eqb (User._id u) author)
                                       (User_push (nextId w))
                                       (User_collection w)) in
  let run := createThread faults text author communityId path w in
  (forall cause,
      faults CommunityModel FindOne w = Some cause ->
      run = (Throw ("Failed to create post: " ++ cause), w)) /\
  (faults CommunityModel FindOne w = None ->
   (text = "" ->
    run = (Throw ("Failed to create post: " ++ text_required), w0)) /\
   (text <> "" ->
    (forall cause,
        faults ThreadModel Create w = Some cause ->
        run = (Throw ("Failed to create post: " ++ cause), w0)) /\
    (faults ThreadModel Create w = None ->
     ~ In (nextId w) (map Thread._id (Thread_collection w)) ->
     (forall cause,
         faults UserModel FindByIdAndUpdate w1 = Some cause ->
         run = (Throw ("Failed to create post: " ++ cause), w1)) /\
     (faults UserModel FindByIdAndUpdate w1 = None ->
      found <> None ->
      forall cause,
        faults CommunityModel FindByIdAndUpdate w2 = Some cause ->
        run = (Throw ("Failed to create post: " ++ cause), w2))))).
Proof.
  intros found created w0 w1 w2 run. subst run.
  unfold createThread, try_catch, connectToDB, bind, ret, throw,
    Community_findOne_id, Thread_insert, User_findByIdAndUpdate_push,
    Community_findByIdAndUpdate_push, query, command, revalidatePath.
  cbn [Thread._id]. split.
  - intros cause ->. reflexivity.
  - intros ->. split.
    + intros ->. reflexivity.
    + intros Htext. apply String.eqb_neq in Htext. rewrite Htext. split.
      * intros cause ->. reflexivity.
      * intros -> Hfresh. apply mem_not_In in Hfresh. rewrite Hfresh.
        assert (Hc : option_map Community.p_id
                       (option_map (Community_project (Some ["_id"])) found)
                     = option_map Community._id found)
          by (destruct found; reflexivity).
        fold found. rewrite Hc. fold created. fold w0. fold w1.
        split.
        -- intros cause ->. reflexivity.
        -- intros -> Hfound cause Hcause.
           destruct found as [d|]; [|contradiction]. cbn.
           fold w2. rewrite Hcause. reflexivity.
Qed.

Lemma deleteThread_resignals faults fuel id path w :
  let run := deleteThread faults fuel id path w in
  (forall cause,
      faults ThreadModel FindById w = Some cause ->
      run = (Throw ("Failed to delete thread: " ++ cause), w)) /\
  (faults ThreadModel FindById w = None ->
   (~ In id (map Thread._id (Thread_collection w)) ->
    run = (Throw "Failed to delete thread: Thread not found", w)) /\
   (In id (map Thread._id (Thread_collection w)) ->
    (forall cause,
        faults ThreadModel Populate w = Some cause ->
        run = (Throw ("Failed to delete thread: " ++ cause), w)) /\
    (faults ThreadModel Populate w = None ->
     (forall cause,
         faults ThreadModel Find w = Some cause -> fuel <> 0 ->
         run = (Throw ("Failed to delete thread: " ++ cause), w)) /\
     (forall l,
         fetchAllChildThreads faults fuel id w = (Return l, w) ->
         let w1 :=
           set_threads w
             (filter (fun t => negb (mem (Thread._id t) (id :: map Thread._id l)))
                     (Thread_collection w)) in
         (forall cause,
             faults ThreadModel DeleteMany w = Some cause ->
             run = (Throw ("Failed to delete thread: " ++ cause), w)) /\
         (faults ThreadModel DeleteMany w = None ->
          (forall cause,
              faults UserModel UpdateMany w1 = Some cause ->
              run = (Throw ("Failed to delete thread: " ++ cause), w1)) /\
          (faults UserModel UpdateMany w1 = None ->
           forall cause,
             (forall w2, Thread_collection w2 = Thread_collection w1 ->
                         Community_collection w2 = Community_collection w ->
                         faults CommunityModel UpdateMany w2 = Some cause) ->
             exists w2,
               run = (Throw ("Failed to delete thread: " ++ cause), w2) /\
               Thread_collection w2 = Thread_collection w1 /\
               Community_collection w2 = Community_collection w)))))).
Proof.
  intros run. subst run.
  unfold deleteThread, try_catch, connectToDB, bind, ret, throw, Thread_findById,
    exec_populate, query.
  split; [intros cause ->; reflexivity|].
  intros ->. split.
  { intros Hmissing. rewrite (Thread_byId_absent _ _ Hmissing). reflexivity. }
  intros Hin. destruct (Thread_byId_present _ _ Hin) as [main ->]. split.
  { intros cause ->. reflexivity. }
  intros ->. split.
  { intros cause Hfind Hfuel. destruct fuel as [|n]; [contradiction|].
    rewrite (fetch_Find_fails faults n id w cause Hfind). reflexivity. }
  intros l Hl. cbv zeta. rewrite Hl.
  unfold Thread_deleteMany, User_updateMany_pull, Community_updateMany_pull,
    command, revalidatePath, ret.
  split; [intros cause ->; reflexivity|].
  intros ->. split; [intros cause ->; reflexivity|].
  intros -> cause Hcause.
  match goal with
  | |- context [faults CommunityModel UpdateMany ?w2] =>
      rewrite (Hcause w2 eq_refl eq_refl); exists w2
  end.
  repeat split.
Qed.

Lemma fetchThreadById_resignals faults threadId w :
  let run := fetchThreadById faults threadId w in
  (forall cause,
      faults ThreadModel FindById w = Some cause ->
      run = (Throw "Unable to fetch thread",
             log w ("Error while fetching thread: " ++ cause))) /\
  (faults ThreadModel FindById w = None ->
   In threadId (map Thread._id (Thread_collection w)) ->
   forall cause,
     faults ThreadModel Populate w = Some cause ->
     run = (Throw "Unable to fetch thread",
            log w ("Error while fetching thread: " ++ cause))).
Proof.
  intros run. subst run.
  unfold fetchThreadById, connectToDB, try_catch, bind, ret, throw, console_error,
    Thread_findById, exec_populate, query.
  split; [intros cause ->; reflexivity|].
  intros -> Hin cause Hcause.
  destruct (Thread_byId_present _ _ Hin) as [t ->]. rewrite Hcause. reflexivity.
Qed.

Lemma addCommentToThread_resignals faults threadId commentText userId path w :
  let comment :=
    Thread.mk (nextId w) commentText userId None (now w) (Some threadId) [] in
  let w0 := set_nextId w (S (nextId w)) in
  let w1 := set_threads w0 (Thread_collection w ++ [comment]) in
  let run := addCommentToThread faults threadId commentText userId path w in
  (forall cause,
      faults ThreadModel FindById w = Some cause ->
      run = (Throw "Unable to add comment",
             log w ("Error while adding comment: " ++ cause))) /\
  (faults ThreadModel FindById w = None ->
   (~ In threadId (map Thread._id (Thread_collection w)) ->
    run = (Throw "Unable to add comment",
           log w "Error while adding comment: Thread not found")) /\
   (In threadId (map Thread._id (Thread_collection w)) ->
    (commentText = "" ->
     run = (Throw "Unable to add comment",
            log w0 ("Error while adding comment: " ++ text_required))) /\
    (commentText <> "" ->
     (forall cause,
         faults ThreadModel Save w = Some cause ->
         run = (Throw "Unable to add comment",
                log w0 ("Error while adding comment: " ++ cause))) /\
     (faults ThreadModel Save w = None ->
      ~ In (nextId w) (map Thread._id (Thread_collection w)) ->
      forall cause,
        faults ThreadModel Save w1 = Some cause ->
        run = (Throw "Unable to add comment",
               log w1 ("Error while adding comment: " ++ cause)))))).
Proof.
  intros comment w0 w1 run. subst run.
  unfold addCommentToThread, connectToDB, try_catch, bind, ret, throw, console_error,
    Thread_findById, Thread_insert, Thread_save_children, revalidatePath, query.
  split; [intros cause ->; reflexivity|].
  intros ->. split.
  { intros Hmissing. rewrite (Thread_byId_absent _ _ Hmissing). reflexivity. }
  intros Hin. destruct (Thread_byId_present _ _ Hin) as [post ->]. split.
  { intros ->. reflexivity. }
  intros Htext. apply String.eqb_neq in Htext. rewrite Htext. split.
  { intros cause ->. reflexivity. }
  intros -> Hfresh cause Hcause. apply mem_not_In in Hfresh. rewrite Hfresh.
  fold comment. fold w0. fold w1. cbn [Thread._id]. rewrite Hcause. reflexivity.
Qed.

Lemma fetchPosts_resignals faults pageNumber pageSize w :
  let run := fetchPosts faults pageNumber pageSize w in
  (forall cause,
      faults ThreadModel CountDocuments w = Some cause ->
      run = (Throw cause, w)) /\
  (faults ThreadModel CountDocuments w = None ->
   (forall cause,
       faults ThreadModel Find w = Some cause -> run = (Throw cause, w)) /\
   (faults ThreadModel Find w = None ->
    (1 <= pageNumber)%Z -> (0 < pageSize)%Z ->
    ((pageNumber - 1) * pageSize
     < Z.of_nat (List.length (filter top_level (Thread_collection w))))%Z ->
    forall cause,
      faults ThreadModel Populate w = Some cause -> run = (Throw cause, w))).
Proof.
  intros run. subst run.
  unfold fetchPosts, connectToDB, bind, ret, Thread_countDocuments_posts,
    Thread_find_posts, skip_limit, query.
  split; [intros cause ->; reflexivity|].
  intros ->. split; [intros cause ->; reflexivity|].
  intros -> Hpage Hsize Hmore cause Hcause.
  set (skip := ((pageNumber - 1) * pageSize)%Z) in *.
  assert (Hskip : (0 <= skip)%Z) by (subst skip; nia).
  destruct (skip <? 0)%Z eqn:E1; [apply Z.ltb_lt in E1; lia|].
  destruct (pageSize =? 0)%Z eqn:E2; [apply Z.eqb_eq in E2; lia|].
  match goal with
  | |- context [match ?page with [] => _ | _ :: _ => _ end] =>
      destruct page as [|p ps] eqn:Epage
  end.
  - apply (f_equal (@List.length _)) in Epage.
    rewrite length_firstn, length_skipn in Epage.
    rewrite (Permutation_length (sort_createdAt_desc_Permutation _)) in Epage.
    simpl in Epage. lia.
  - rewrite Hcause. reflexivity.
Qed.

(** C4, as the code has it.  Every failure below [createThread] and
    [deleteThread] is caught and signalled again with the operation's own
    prefix in front of the message of the cause: whichever call of the
    driver is the first to fail (the earlier ones having succeeded), and
    likewise the validation of the text and the missing thread, the
    operation ends in exactly that error.  [fetchThreadById] and
    [addCommentToThread] catch every failure too, write the cause to the
    console, and signal a fixed message that does not carry it.
    [fetchPosts] has no handler: whichever of its calls fails, the failure
    of the driver reaches the caller as it is.  No operation signals an
    error of another shape. *)
Theorem failures_as_signalled :
  forall faults,
    (forall text author communityId path w,
      let found := Community_byExtId (Community_collection w) communityId in
      let created :=
        Thread.mk (nextId w) text author (option_map Community._id found)
                  (now w) None [] in
      let w0 := set_nextId w (S (nextId w)) in
      let w1 := set_threads w0 (Thread_collection w ++ [created]) in
      let w2 := set_users w1 (update_first (fun u => Nat.eqb (User._id u) author)
                                           (User_push (nextId w))
                                           (User_collection w)) in
      let run := createThread faults text author communityId path w in
      (forall cause,
          faults CommunityModel FindOne w = Some cause ->
          run = (Throw ("Failed to create post: " ++ cause), w)) /\
      (faults CommunityModel FindOne w = None ->
       (text = "" ->
        run = (Throw ("Failed to create post: " ++ text_required), w0)) /\
       (text <> "" ->
        (forall cause,
            faults ThreadModel Create w = Some cause ->
            run = (Throw ("Failed to create post: " ++ cause), w0)) /\
        (faults ThreadModel Create w = None ->
         ~ In (nextId w) (map Thread._id (Thread_collection w)) ->
         (forall cause,
             faults UserModel FindByIdAndUpdate w1 = Some cause ->
             run = (Throw ("Failed to create post: " ++ cause), w1)) /\
         (faults UserModel FindByIdAndUpdate w1 = None ->
          found <> None ->
          forall cause,
            faults CommunityModel FindByIdAndUpdate w2 = Some cause ->
            run = (Throw ("Failed to create post: " ++ cause), w2))))) /\
      (forall e w',
          run = (Throw e, w') ->
          exists cause,
            e = ("Failed to create post: " ++ cause)%string /\
            (store_failure faults cause \/ cause = text_required \/
             cause = duplicate_key))) /\
    (forall fuel id path w,
      let run := deleteThread faults fuel id path w in
      (forall cause,
          faults ThreadModel FindById w = Some cause ->
          run = (Throw ("Failed to delete thread: " ++ cause), w)) /\
      (faults ThreadModel FindById w = None ->
       (~ In id (map Thread._id (Thread_collection w)) ->
        run = (Throw "Failed to delete thread: Thread not found", w)) /\
       (In id (map Thread._id (Thread_collection w)) ->
        (forall cause,
            faults ThreadModel Populate w = Some cause ->
            run = (Throw ("Failed to delete thread: " ++ cause), w)) /\
        (faults ThreadModel Populate w = None ->
         (forall cause,
             faults ThreadModel Find w = Some cause -> fuel <> 0 ->
             run = (Throw ("Failed to delete thread: " ++ cause), w)) /\
         (forall l,
             fetchAllChildThreads faults fuel id w = (Return l, w) ->
             let w1 :=
               set_threads w
                 (filter (fun t => negb (mem (Thread._id t) (id :: map Thread._id l)))
                         (Thread_collection w)) in
             (forall cause,
                 faults ThreadModel DeleteMany w = Some cause ->
                 run = (Throw ("Failed to delete thread: " ++ cause), w)) /\
             (faults ThreadModel DeleteMany w = None ->
              (forall cause,
                  faults UserModel UpdateMany w1 = Some cause ->
                  run = (Throw ("Failed to delete thread: " ++ cause), w1)) /\
              (faults UserModel UpdateMany w1 = None ->
               forall cause,
                 (forall w2, Thread_collection w2 = Thread_collection w1 ->
                             Community_collection w2 = Community_collection w ->
                             faults CommunityModel UpdateMany w2 = Some cause) ->
                 exists w2,
                   run = (Throw ("Failed to delete thread: " ++ cause), w2) /\
                   Thread_collection w2 = Thread_collection w1 /\
                   Community_collection w2 = Community_collection w)))))) /\
      (forall e w',
          run = (Throw e, w') ->
          exists cause,
            e = ("Failed to delete thread: " ++ cause)%string /\
            (store_failure faults cause \/ cause = "Thread not found"))) /\
    (forall threadId w,
      let run := fetchThreadById faults threadId w in
      (forall cause,
          faults ThreadModel FindById w = Some cause ->
          run = (Throw "Unable to fetch thread",
                 log w ("Error while fetching thread: " ++ cause))) /\
      (faults ThreadModel FindById w = None ->
       In threadId (map Thread._id (Thread_collection w)) ->
       forall cause,
         faults ThreadModel Populate w = Some cause ->
         run = (Throw "Unable to fetch thread",
                log w ("Error while fetching thread: " ++ cause))) /\
      (forall e w',
          run = (Throw e, w') ->
          e = "Unable to fetch thread" /\
          exists cause,
            store_failure faults cause /\
            w' = log w ("Error while fetching thread: " ++ cause)%string)) /\
    (forall threadId commentText userId path w,
      let comment :=
        Thread.mk (nextId w) commentText userId None (now w) (Some threadId) [] in
      let w0 := set_nextId w (S (nextId w)) in
      let w1 := set_threads w0 (Thread_collection w ++ [comment]) in
      let run := addCommentToThread faults threadId commentText userId path w in
      (forall cause,
          faults ThreadModel FindById w = Some cause ->
          run = (Throw "Unable to add comment",
                 log w ("Error while adding comment: " ++ cause))) /\
      (faults ThreadModel FindById w = None ->
       (~ In threadId (map Thread._id (Thread_collection w)) ->
        run = (Throw "Unable to add comment",
               log w "Error while adding comment: Thread not found")) /\
       (In threadId (map Thread._id (Thread_collection w)) ->
        (commentText = "" ->
         run = (Throw "Unable to add comment",
                log w0 ("Error while adding comment: " ++ text_required))) /\
        (commentText <> "" ->
         (forall cause,
             faults ThreadModel Save w = Some cause ->
             run = (Throw "Unable to add comment",
                    log w0 ("Error while adding comment: " ++ cause))) /\
         (faults ThreadModel Save w = None ->
          ~ In (nextId w) (map Thread._id (Thread_collection w)) ->
          forall cause,
            faults ThreadModel Save w1 = Some cause ->
            run = (Throw "Unable to add comment",
                   log w1 ("Error while adding comment: " ++ cause)))))) /\
      (forall e w',
          run = (Throw e, w') ->
          e = "Unable to add comment" /\
          exists cause w1,
            (store_failure faults cause \/ cause = "Thread not found" \/
             cause = text_required \/ cause = duplicate_key \/
             cause = document_gone) /\
            w' = log w1 ("Error while adding comment: " ++ cause)%string)) /\
    (forall pageNumber pageSize w,
      let run := fetchPosts faults pageNumber pageSize w in
      (forall cause,
          faults ThreadModel CountDocuments w = Some cause ->
          run = (Throw cause, w)) /\
      (faults ThreadModel CountDocuments w = None ->
       (forall cause,
           faults ThreadModel Find w = Some cause -> run = (Throw cause, w)) /\
       (faults ThreadModel Find w = None ->
        (1 <= pageNumber)%Z -> (0 < pageSize)%Z ->
        ((pageNumber - 1) * pageSize
         < Z.of_nat (List.length (filter top_level (Thread_collection w))))%Z ->
        forall cause,
          faults ThreadModel Populate w = Some cause -> run = (Throw cause, w))) /\
      (forall e w',
          run = (Throw e, w') ->
          (store_failure faults e \/ e = negative_skip) /\ w' = w)).
Proof.
  intros faults. split; [|split; [|split; [|split]]].
  - intros text author communityId path w found created w0 w1 w2 run.
    destruct (createThread_resignals faults text author communityId path w)
      as [H1 H2].
    split; [exact H1|]. split; [exact H2|]. apply createThread_Throw.
  - intros fuel id path w run.
    destruct (deleteThread_resignals faults fuel id path w) as [H1 H2].
    split; [exact H1|]. split; [exact H2|]. apply deleteThread_Throw.
  - intros threadId w run.
    destruct (fetchThreadById_resignals faults threadId w) as [H1 H2].
    split; [exact H1|]. split; [exact H2|]. apply fetchThreadById_Throw.
  - intros threadId commentText userId path w comment w0 w1 run.
    destruct (addCommentToThread_resignals faults threadId commentText userId path w)
      as [H1 H2].
    split; [exact H1|]. split; [exact H2|]. apply addCommentToThread_Throw.
  - intros pageNumber pageSize w run.
    destruct (fetchPosts_resignals faults pageNumber pageSize w) as [H1 H2].
    split; [exact H1|]. split; [exact H2|]. apply fetchPosts_Throw.
Qed.

Lemma failures_as_signalled_witness :
  createThread users_down "hello" 100 (Some "org_guild") "/" forum
  = (Throw "Failed to create post: users unavailable",
     set_threads (set_nextId forum 10)
                 (Thread_collection forum
                  ++ [Thread.mk 9 "hello" 100 (Some 200) 1000 None []])) /\
  deleteThread users_down 9 1 "/" forum
  = (Throw "Failed to delete thread: users unavailable",
     set_threads forum [post6; reply7; post8]) /\
  fetchThreadById populate_down 1 forum
  = (Throw "Unable to fetch thread",
     log forum "Error while fetching thread: cursor lost") /\
  addCommentToThread saves_down 8 "nice" 101 "/" forum
  = (Throw "Unable to add comment",
     log (set_threads (set_nextId forum 10)
                      (Thread_collection forum
                       ++ [Thread.mk 9 "nice" 101 None 1000 (Some 8) []]))
         "Error while adding comment: write conflict") /\
  fetchPosts populate_down 1 20 forum = (Throw "cursor lost", forum).
Proof.
  assert (Hfresh : ~ In 9 (map Thread._id (Thread_collection forum))).
  { simpl. intros H. repeat (destruct H as [H | H]; [discriminate H|]). exact H. }
  split; [|split; [|split; [|split]]].
  - destruct (proj1 (failures_as_signalled users_down)
                    "hello" 100 (Some "org_guild") "/" forum) as (_ & H & _).
    destruct (H eq_refl) as (_ & H1). clear H.
    destruct (H1 ltac:(discriminate)) as (_ & H2). clear H1.
    destruct (H2 eq_refl Hfresh) as (H3 & _). clear H2.
    exact (H3 "users unavailable" eq_refl).
  - destruct (proj1 (proj2 (failures_as_signalled users_down)) 9 1 "/" forum)
      as (_ & H & _).
    destruct (H eq_refl) as (_ & H1). clear H.
    destruct (H1 ltac:(simpl; tauto)) as (_ & H2). clear H1.
    destruct (H2 eq_refl) as (_ & H3). clear H2.
    destruct (H3 _ eq_refl) as (_ & H4). clear H3.
    destruct (H4 eq_refl) as (H5 & _). clear H4.
    exact (H5 "users unavailable" eq_refl).
  - destruct (proj1 (proj2 (proj2 (failures_as_signalled populate_down))) 1 forum)
      as (_ & H & _).
    exact (H eq_refl ltac:(simpl; tauto) "cursor lost" eq_refl).
  - destruct (proj1 (proj2 (proj2 (proj2 (failures_as_signalled saves_down))))
                    8 "nice" 101 "/" forum) as (_ & H & _).
    destruct (H eq_refl) as (_ & H1). clear H.
    destruct (H1 ltac:(simpl; tauto)) as (_ & H2). clear H1.
    destruct (H2 ltac:(discriminate)) as (_ & H3). clear H2.
    exact (H3 eq_refl Hfresh "write conflict" eq_refl).
  - destruct (proj2 (proj2 (proj2 (proj2 (failures_as_signalled populate_down))))
                    1%Z 20%Z forum) as (_ & H & _).
    destruct (H eq_refl) as (_ & H1). clear H.
    exact (H1 eq_refl ltac:(lia) ltac:(lia) ltac:(simpl; lia) "cursor lost" eq_refl).
Defined.

(** With the driver down, the error of [fetchPosts] is the driver's own, and
    the errors of [fetchThreadById] and [addCommentToThread] do not contain
    the cause, while those of [createThread] and [deleteThread] do. *)
Lemma failures_not_all_wrapped :
  fetchPosts outage 1 20 forum = (Throw "connection lost", forum) /\
  (fst (fetchThreadById outage 1 forum) = Throw "Unable to fetch thread" /\
   index 0 "connection lost" "Unable to fetch thread" = None) /\
  (fst (addCommentToThread outage 1 "hi" 100 "/" forum)
   = Throw "Unable to add comment" /\
   index 0 "connection lost" "Unable to add comment" = None) /\
  fst (createThread outage "hi" 100 None "/" forum)
  = Throw "Failed to create post: connection lost" /\
  fst (deleteThread outage 9 1 "/" forum)
  = Throw "Failed to delete thread: connection lost".
Proof. repeat split; reflexivity. Qed.

(** ** Top-level feed *)

Lemma Thread_find_posts_populated faults skip limit os w :
  faults ThreadModel Find w = None ->
  faults ThreadModel Populate w = None ->
  Thread_find_posts faults skip limit os w
  = (match skip_limit skip limit
             (sort_createdAt_desc (filter top_level (Thread_collection w))) with
     | Return page => Return (map (populate_all w os) page)
     | Throw e => Throw e
     | Pending => Pending
     end, w).
Proof.
  intros Hf Hp. unfold Thread_find_posts. rewrite Hf, Hp.
  destruct (skip_limit skip limit _) as [[|p page]|e|]; reflexivity.
Qed.

Lemma insert_desc_newest_first t l :
  newest_first l -> newest_first (insert_desc t l).
Proof.
  unfold newest_first. induction l as [|x l IH]; simpl; intros H.
  - constructor; constructor.
  - inversion H as [|? ? Hl Hx]; subst.
    destruct (Thread.createdAt x <=? Thread.createdAt t)%Z eqn:E.
    + apply Z.leb_le in E. constructor; [assumption|].
      constructor; [assumption|].
      rewrite Forall_forall in *. intros y Hy. specialize (Hx y Hy). lia.
    + apply Z.leb_gt in E. constructor; [auto|].
      rewrite Forall_forall in *. intros y Hy.
      apply (Permutation_in _ (insert_desc_Permutation t l)) in Hy.
      destruct Hy as [<- | Hy]; [lia | auto].
Qed.

Lemma sort_createdAt_desc_newest_first l : newest_first (sort_createdAt_desc l).
Proof.
  induction l as [|x l IH]; simpl; [constructor|].
  apply insert_desc_newest_first. exact IH.
Qed.

(** C7. The feed is the top-level threads of the store, newest first.  For
    every page >= 1 and page size > 0, [fetchPosts] returns the documents of
    the feed from offset (page - 1) * size on, at most size of them, and
    [isNext] is true exactly when the feed goes on beyond the end of that
    window.  With exactly 25 top-level posts, page 2 of size 10 is the posts
    11 to 20 of the feed with [isNext] true, and page 3 is the posts 21 to 25
    with [isNext] false. *)
Theorem fetchPosts_window :
  forall faults w,
    faults ThreadModel CountDocuments w = None ->
    faults ThreadModel Find w = None ->
    faults ThreadModel Populate w = None ->
    let posts_in_store := filter top_level (Thread_collection w) in
    let feed := sort_createdAt_desc posts_in_store in
    Permutation feed posts_in_store /\
    newest_first feed /\
    (forall pageNumber pageSize,
        (1 <= pageNumber)%Z -> (0 < pageSize)%Z ->
        exists posts hasNext,
          fetchPosts faults pageNumber pageSize w = (Return (posts, hasNext), w) /\
          map doc posts
          = firstn (Z.to_nat pageSize)
                   (skipn (Z.to_nat ((pageNumber - 1) * pageSize)) feed) /\
          (hasNext = true <->
           (pageNumber * pageSize < Z.of_nat (List.length posts_in_store))%Z)) /\
    (List.length posts_in_store = 25 ->
     exists page2 page3,
       fetchPosts faults 2 10 w = (Return (page2, true), w) /\
       map doc page2 = firstn 10 (skipn 10 feed) /\ List.length page2 = 10 /\
       fetchPosts faults 3 10 w = (Return (page3, false), w) /\
       map doc page3 = skipn 20 feed /\ List.length page3 = 5).
Proof.
  intros faults w Hc Hf Hp posts_in_store feed.
  assert (Hperm : Permutation feed posts_in_store)
    by apply sort_createdAt_desc_Permutation.
  assert (Hgen : forall pageNumber pageSize,
        (1 <= pageNumber)%Z -> (0 < pageSize)%Z ->
        exists posts hasNext,
          fetchPosts faults pageNumber pageSize w = (Return (posts, hasNext), w) /\
          map doc posts
          = firstn (Z.to_nat pageSize)
                   (skipn (Z.to_nat ((pageNumber - 1) * pageSize)) feed) /\
          (hasNext = true <->
           (pageNumber * pageSize < Z.of_nat (List.length posts_in_store))%Z)).
  { intros pageNumber pageSize Hpage Hsize.
    unfold fetchPosts, connectToDB, bind, ret, Thread_countDocuments_posts, query.
    rewrite Hc, (Thread_find_posts_populated faults _ _ _ w Hf Hp).
    unfold skip_limit.
    assert (Hskip : (0 <= (pageNumber - 1) * pageSize)%Z) by nia.
    destruct ((pageNumber - 1) * pageSize <? 0)%Z eqn:E1;
      [apply Z.ltb_lt in E1; lia|].
    destruct (pageSize =? 0)%Z eqn:E2; [apply Z.eqb_eq in E2; lia|].
    eexists _, _. split; [reflexivity|].
    fold posts_in_store. fold feed.
    replace (Z.abs_nat pageSize) with (Z.to_nat pageSize) by lia.
    split.
    - rewrite map_map. cbn. apply map_id.
    - rewrite length_map, length_firstn, length_skipn.
      rewrite (Permutation_length Hperm).
      rewrite Z.gtb_ltb, Z.ltb_lt.
      replace (pageNumber * pageSize)%Z
        with ((pageNumber - 1) * pageSize + pageSize)%Z by ring.
      lia. }
  split; [assumption|]. split; [apply sort_createdAt_desc_newest_first|].
  split; [assumption|].
  intros H25.
  destruct (Hgen 2%Z 10%Z) as (page2 & next2 & Hrun2 & Hdocs2 & Hnext2); [lia | lia|].
  destruct (Hgen 3%Z 10%Z) as (page3 & next3 & Hrun3 & Hdocs3 & Hnext3); [lia | lia|].
  assert (Hlen : List.length feed = 25) by (rewrite (Permutation_length Hperm); assumption).
  exists page2, page3.
  assert (next2 = true) as -> by (apply Hnext2; lia).
  assert (next3 = false) as ->.
  { destruct next3; [|reflexivity]. destruct Hnext3 as [Hn _].
    specialize (Hn eq_refl). lia. }
  change (Z.to_nat ((2 - 1) * 10)) with 10 in Hdocs2.
  change (Z.to_nat ((3 - 1) * 10)) with 20 in Hdocs3.
  change (Z.to_nat 10) with 10 in *.
  repeat split; try assumption.
  - rewrite <- (length_map doc), Hdocs2, length_firstn, length_skipn. lia.
  - rewrite Hdocs3. apply firstn_all2. rewrite length_skipn. lia.
  - rewrite <- (length_map doc), Hdocs3, length_firstn, length_skipn. lia.
Qed.

Lemma fetchPosts_window_witness :
  exists page2 page3,
    fetchPosts no_faults 2 10 busy = (Return (page2, true), busy) /\
    map doc page2
    = firstn 10 (skipn 10 (sort_createdAt_desc
                             (filter top_level (Thread_collection busy)))) /\
    List.length page2 = 10 /\
    fetchPosts no_faults 3 10 busy = (Return (page3, false), busy) /\
    map doc page3
    = skipn 20 (sort_createdAt_desc (filter top_level (Thread_collection busy))) /\
    List.length page3 = 5.
Proof.
  apply (proj2 (proj2 (proj2
           (fetchPosts_window no_faults busy eq_refl eq_refl eq_refl)))).
  reflexivity.
Defined.

Example fetchPosts_busy :
  (let '(r, _) := fetchPosts no_faults 2 10 busy in
   match r with
   | Return (posts, isNext) => (map (fun p => Thread._id (doc p)) posts, isNext)
   | _ => ([], false)
   end) = ([15; 14; 13; 12; 11; 10; 9; 8; 7; 6], true) /\
  (let '(r, _) := fetchPosts no_faults 3 10 busy in
   match r with
   | Return (posts, isNext) => (map (fun p => Thread._id (doc p)) posts, isNext)
   | _ => ([], false)
   end) = ([5; 4; 3; 2; 1], false).
Proof. split; reflexivity. Qed.

(** ** Creation *)

Lemma find_app_l {A} (f : A -> bool) l l' x :
  find f l = Some x -> find f (l ++ l') = Some x.
Proof.
  induction l as [|y l IH]; simpl; [discriminate|].
  destruct (f y); auto.
Qed.

Lemma find_app_r {A} (f : A -> bool) l l' :
  find f l = None -> find f (l ++ l') = find f l'.
Proof.
  induction l as [|y l IH]; simpl; [reflexivity|].
  destruct (f y); [discriminate | auto].
Qed.

Section UpdateFirst.
Context {A : Type} (key : A -> ObjectId) (f : A -> A).
Hypothesis key_f : forall x, key (f x) = key x.

Lemma find_update_first_same i l :
  find (fun x => Nat.eqb (key x) i)
       (update_first (fun x => Nat.eqb (key x) i) f l)
  = option_map f (find (fun x => Nat.eqb (key x) i) l).
Proof.
  induction l as [|x l IH]; simpl; [reflexivity|].
  destruct (Nat.eqb (key x) i) eqn:E; simpl.
  - rewrite key_f, E. reflexivity.
  - rewrite E. exact IH.
Qed.

Lemma find_update_first_other i j l :
  j <> i ->
  find (fun x => Nat.eqb (key x) j)
       (update_first (fun x => Nat.eqb (key x) i) f l)
  = find (fun x => Nat.eqb (key x) j) l.
Proof.
  intros Hne. induction l as [|x l IH]; simpl; [reflexivity|].
  destruct (Nat.eqb (key x) i) eqn:E; simpl.
  - rewrite key_f. apply Nat.eqb_eq in E.
    replace (Nat.eqb (key x) j) with false; [reflexivity|].
    symmetry. apply Nat.eqb_neq. congruence.
  - rewrite IH. reflexivity.
Qed.
End UpdateFirst.

Lemma createThread_Return faults text author communityId path w w' :
  createThread faults text author communityId path w = (Return tt, w') ->
  let resolved := Community_byExtId (Community_collection w) communityId in
  let created :=
    Thread.mk (nextId w) text author (option_map Community._id resolved)
              (now w) None [] in
  text <> "" /\
  Thread_byId (Thread_collection w) (nextId w) = None /\
  Thread_collection w' = Thread_collection w ++ [created] /\
  User_collection w'
  = update_first (fun u => Nat.eqb (User._id u) author) (User_push (nextId w))
                 (User_collection w) /\
  Community_collection w'
  = match resolved with
    | Some c => update_first (fun d => Nat.eqb (Community._id d) (Community._id c))
                             (Community_push (nextId w)) (Community_collection w)
    | None => Community_collection w
    end /\
  now w' = now w /\ nextId w' = S (nextId w) /\ console w' = console w.
Proof.
  unfold createThread, try_catch. intros H.
  match type of H with
  | (match ?b with _ => _ end) = _ => destruct b as [[[]|cause|] w1] eqn:E
  end; try discriminate.
  injection H as <-.
  unfold connectToDB, bind, ret, Community_findOne_id, Thread_insert,
    User_findByIdAndUpdate_push, Community_findByIdAndUpdate_push, query, command,
    revalidatePath in E. simpl in E.
  destruct (faults CommunityModel FindOne w); [discriminate|].
  destruct (String.eqb text "") eqn:Etext; [discriminate|].
  destruct (faults ThreadModel Create w); [discriminate|].
  destruct (mem (nextId w) (map Thread._id (Thread_collection w))) eqn:Emem;
    [discriminate|].
  destruct (faults UserModel FindByIdAndUpdate _); [discriminate|].
  assert (Hfresh : Thread_byId (Thread_collection w) (nextId w) = None).
  { unfold Thread_byId. destruct (find _ _) as [t|] eqn:Ft; [|reflexivity].
    apply find_some in Ft. destruct Ft as [Ht Hid]. apply Nat.eqb_eq in Hid.
    apply mem_not_In in Emem. exfalso. apply Emem. rewrite <- Hid.
    apply in_map. assumption. }
  apply String.eqb_neq in Etext.
  destruct (Community_byExtId (Community_collection w) communityId) as [c|];
    simpl in E.
  - destruct (faults CommunityModel FindByIdAndUpdate _); [discriminate|].
    injection E as <-. repeat split; auto.
  - injection E as <-. repeat split; auto.
Qed.

(** C9. After a successful [createThread] the Thread collection has one
    more document: the given text and author, no [parentId], no [children].
    Its id resolves to it, and [fetchThreadById] on that id right after hands
    out that document with its author resolved and an empty list of replies.
    The author's [threads] list has the new id appended (no other user
    changes), and the [threads] list of a community has it appended exactly
    when the community identifier resolved to a community, the one the new
    thread then refers to; otherwise no community changes. *)
Theorem createThread_inserts_post :
  forall faults text author communityId path w w',
    createThread faults text author communityId path w = (Return tt, w') ->
    exists created,
      Thread.text created = text /\
      Thread.author created = author /\
      Thread.parentId created = None /\
      Thread.children created = [] /\
      Thread_collection w' = Thread_collection w ++ [created] /\
      Thread_byId (Thread_collection w') (Thread._id created) = Some created /\
      (faults ThreadModel FindById w' = None ->
       faults ThreadModel Populate w' = None ->
       exists c,
         fetchThreadById faults (Thread._id created) w'
         = (Return
              (Some (PT created
                        (Populated
                           (option_map
                              (User_project (Some ["_id"; "id"; "name"; "image"]))
                              (User_byId (User_collection w') author)))
                        c (inr []))),
            w')) /\
      (forall u,
          User_byId (User_collection w) author = Some u ->
          exists u',
            User_byId (User_collection w') author = Some u' /\
            User.threads u' = User.threads u ++ [Thread._id created]) /\
      (forall i, i <> author ->
                 User_byId (User_collection w') i = User_byId (User_collection w) i) /\
      match Community_byExtId (Community_collection w) communityId with
      | Some found =>
          Thread.community created = Some (Community._id found) /\
          (forall c,
              Community_byId (Community_collection w) (Community._id found) = Some c ->
              exists c',
                Community_byId (Community_collection w') (Community._id found)
                = Some c' /\
                Community.threads c' = Community.threads c ++ [Thread._id created]) /\
          (forall i, i <> Community._id found ->
                     Community_byId (Community_collection w') i
                     = Community_byId (Community_collection w) i)
      | None =>
          Thread.community created = None /\
          Community_collection w' = Community_collection w
      end.
Proof.
  intros faults text author communityId path w w' H.
  apply createThread_Return in H. cbv zeta in H.
  destruct H as (Htext & Hfresh & Hthreads & Husers & Hcomms & _).
  set (resolved := Community_byExtId (Community_collection w) communityId) in *.
  set (created := Thread.mk (nextId w) text author
                            (option_map Community._id resolved) (now w) None []) in *.
  assert (Hfound : Thread_byId (Thread_collection w') (Thread._id created)
                   = Some created).
  { rewrite Hthreads. unfold Thread_byId in *. rewrite find_app_r by exact Hfresh.
    simpl. rewrite Nat.eqb_refl. reflexivity. }
  exists created. repeat (split; [reflexivity || assumption|]).
  split; [|split; [|split]].
  - intros Hf Hp.
    unfold fetchThreadById, connectToDB, try_catch, bind, ret, Thread_findById,
      exec_populate, query.
    rewrite Hf, Hfound, Hp. cbn. eexists. reflexivity.
  - intros u Hu. exists (User_push (Thread._id created) u). split; [|reflexivity].
    rewrite Husers. unfold User_byId in *.
    rewrite (find_update_first_same User._id); [|reflexivity].
    rewrite Hu. reflexivity.
  - intros i Hi. rewrite Husers. unfold User_byId.
    apply (find_update_first_other User._id); [reflexivity | assumption].
  - destruct resolved as [found|]; [|split; [reflexivity | assumption]].
    split; [reflexivity|]. split.
    + intros c Hc. exists (Community_push (Thread._id created) c).
      split; [|reflexivity].
      rewrite Hcomms. unfold Community_byId in *.
      rewrite (find_update_first_same Community._id); [|reflexivity].
      rewrite Hc. reflexivity.
    + intros i Hi. rewrite Hcomms. unfold Community_byId.
      apply (find_update_first_other Community._id); [reflexivity | assumption].
Qed.


Lemma createThread_inserts_post_witness :
  let forum' := snd (createThread no_faults "hello" 100 (Some "org_guild") "/" forum) in
    exists created,
      Thread.text created = "hello" /\
      Thread.author created = 100 /\
      Thread.parentId created = None /\
      Thread.children created = [] /\
      Thread_collection forum' = Thread_collection forum ++ [created] /\
      Thread_byId (Thread_collection forum') (Thread._id created) = Some created /\
      (no_faults ThreadModel FindById forum' = None ->
       no_faults ThreadModel Populate forum' = None ->
       exists c,
         fetchThreadById no_faults (Thread._id created) forum'
         = (Return
              (Some (PT created
                        (Populated
                           (option_map
                              (User_project (Some ["_id"; "id"; "name"; "image"]))
                              (User_byId (User_collection forum') 100)))
                        c (inr []))),
            forum')) /\
      (forall u,
          User_byId (User_collection forum) 100 = Some u ->
          exists u',
            User_byId (User_collection forum') 100 = Some u' /\
            User.threads u' = User.threads u ++ [Thread._id created]) /\
      (forall i, i <> 100 ->
                 User_byId (User_collection forum') i = User_byId (User_collection forum) i) /\
      match Community_byExtId (Community_collection forum) (Some "org_guild") with
      | Some found =>
          Thread.community created = Some (Community._id found) /\
          (forall c,
              Community_byId (Community_collection forum) (Community._id found) = Some c ->
              exists c',
                Community_byId (Community_collection forum') (Community._id found)
                = Some c' /\
                Community.threads c' = Community.threads c ++ [Thread._id created]) /\
          (forall i, i <> Community._id found ->
                     Community_byId (Community_collection forum') i
                     = Community_byId (Community_collection forum) i)
      | None =>
          Thread.community created = None /\
          Community_collection forum' = Community_collection forum
      end.
Proof.
  apply (createThread_inserts_post no_faults "hello" 100 (Some "org_guild") "/" forum).
  reflexivity.
Defined.

Example createThread_forum :
  createThread no_faults "hello" 100 (Some "org_guild") "/" forum
  = (Return tt,
     mkWorld (Thread_collection forum
              ++ [Thread.mk 9 "hello" 100 (Some 200) 1000 None []])
             [User.mk 100 "user_alice" "Alice" "alice.png" [1; 8; 9]; bob]
             [Community.mk 200 "org_guild" "Guild" "guild.png" [1; 6; 9]]
             1000 10 []).
Proof. reflexivity. Qed.

Lemma Thread_push_children_app ids ids' t :
  Thread_push_children ids' (Thread_push_children ids t)
  = Thread_push_children (ids ++ ids') t.
Proof. unfold Thread_push_children. simpl. rewrite app_assoc. reflexivity. Qed.

(** One successful comment: the parent was there, the comment is stored under
    a fresh id, the parent has that id pushed, every other id resolves as
    before. *)
Lemma addCommentToThread_Return faults threadId commentText userId path w w' :
  addCommentToThread faults threadId commentText userId path w = (Return tt, w') ->
  exists post,
    let comment :=
      Thread.mk (nextId w) commentText userId None (now w) (Some threadId) [] in
    Thread_byId (Thread_collection w) threadId = Some post /\
    Thread_byId (Thread_collection w') threadId
    = Some (Thread_push_children [nextId w] post) /\
    Thread_byId (Thread_collection w') (nextId w) = Some comment /\
    nextId w <> threadId /\
    (forall j t, j <> threadId ->
                 Thread_byId (Thread_collection w) j = Some t ->
                 Thread_byId (Thread_collection w') j = Some t) /\
    User_collection w' = User_collection w /\
    Community_collection w' = Community_collection w /\
    Thread_collection w'
    = update_first (fun t => Nat.eqb (Thread._id t) threadId)
                   (Thread_push_children [nextId w])
                   (Thread_collection w ++ [comment]) /\
    nextId w' = S (nextId w).
Proof.
  unfold addCommentToThread, connectToDB, try_catch, bind, ret, throw, console_error,
    Thread_findById, Thread_insert, Thread_save_children, revalidatePath, query.
  simpl. intros H.
  destruct (faults ThreadModel FindById w); [discriminate|].
  destruct (Thread_byId (Thread_collection w) threadId) as [post|] eqn:Hpost;
    [|discriminate].
  destruct (String.eqb commentText ""); [discriminate|].
  destruct (faults ThreadModel Save w); [discriminate|].
  destruct (mem (nextId w) (map Thread._id (Thread_collection w))) eqn:Emem;
    [discriminate|].
  simpl in H.
  destruct (faults ThreadModel Save _); [discriminate|].
  destruct (Thread_byId _ (Thread._id post)); [|discriminate].
  injection H as <-. simpl.
  assert (Hfresh : Thread_byId (Thread_collection w) (nextId w) = None).
  { unfold Thread_byId. destruct (find _ _) as [t|] eqn:Ft; [|reflexivity].
    apply find_some in Ft. destruct Ft as [Ht Hid]. apply Nat.eqb_eq in Hid.
    apply mem_not_In in Emem. exfalso. apply Emem. rewrite <- Hid.
    apply in_map. assumption. }
  destruct (Thread_byId_Some _ _ _ Hpost) as [_ Hid]. rewrite Hid.
  assert (Hne : nextId w <> threadId) by congruence.
  exists post. unfold Thread_byId in *.
  split; [reflexivity|].
  split; [|split; [|split; [assumption|split; [|repeat split]]]].
  - rewrite (find_update_first_same Thread._id); [|reflexivity].
    rewrite (find_app_l _ _ _ _ Hpost). reflexivity.
  - rewrite (find_update_first_other Thread._id); [|reflexivity | assumption].
    rewrite find_app_r by exact Hfresh. simpl. rewrite Nat.eqb_refl. reflexivity.
  - intros j t Hj Ht.
    rewrite (find_update_first_other Thread._id); [|reflexivity | assumption].
    apply find_app_l. assumption.
Qed.

Lemma addComments_Return faults threadId path :
  forall comments w w' post,
    Thread_byId (Thread_collection w) threadId = Some post ->
    addComments faults threadId comments path w = (Return tt, w') ->
    exists ids,
      Thread_byId (Thread_collection w') threadId
      = Some (Thread_push_children ids post) /\
      Forall2 (fun i comment =>
                 exists c,
                   Thread_byId (Thread_collection w') i = Some c /\
                   Thread.parentId c = Some threadId /\
                   Thread.text c = fst comment /\
                   Thread.author c = snd comment)
              ids comments /\
      (forall j t, j <> threadId ->
                   Thread_byId (Thread_collection w) j = Some t ->
                   Thread_byId (Thread_collection w') j = Some t).
Proof.
  induction comments as [|[commentText userId] rest IH]; intros w w' post Hpost; simpl.
  - unfold ret. intros [= <-]. exists []. split; [|split; [constructor | auto]].
    rewrite Hpost. unfold Thread_push_children. rewrite app_nil_r.
    destruct post; reflexivity.
  - unfold bind at 1.
    destruct (addCommentToThread faults threadId commentText userId path w)
      as [[[]|e|] w1] eqn:Hfirst; try discriminate.
    intros Hrest.
    apply addCommentToThread_Return in Hfirst. cbv zeta in Hfirst.
    destruct Hfirst as (post0 & Hpost0 & Hpost1 & Hcomment & Hne & Hkeep & _).
    rewrite Hpost in Hpost0. injection Hpost0 as <-.
    destruct (IH w1 w' _ Hpost1 Hrest) as (ids & Hpost' & Hall & Hkeep').
    exists (nextId w :: ids). split; [|split].
    + rewrite Hpost', Thread_push_children_app. reflexivity.
    + constructor; [|assumption].
      eexists. split; [apply Hkeep'; [assumption | exact Hcomment]|].
      simpl. auto.
    + intros j t Hj Ht. apply Hkeep'; [assumption|]. apply Hkeep; assumption.
Qed.

Lemma update_first_ids {A} (key : A -> ObjectId) (p : A -> bool) (f : A -> A) l :
  (forall x, key (f x) = key x) ->
  map key (update_first p f l) = map key l.
Proof.
  intros Hkey. induction l as [|x l IH]; simpl; [reflexivity|].
  destruct (p x); simpl; [rewrite Hkey | rewrite IH]; reflexivity.
Qed.

(** With the driver up, a stored parent, a non-empty text and an id
    generator ahead of the collection, a comment goes through, and the
    generator stays ahead. *)
Lemma addCommentToThread_runs threadId commentText userId path w post :
  Thread_byId (Thread_collection w) threadId = Some post ->
  commentText <> "" ->
  (forall i, In i (map Thread._id (Thread_collection w)) -> i < nextId w) ->
  exists w',
    addCommentToThread no_faults threadId commentText userId path w = (Return tt, w') /\
    (forall i, In i (map Thread._id (Thread_collection w')) -> i < nextId w').
Proof.
  intros Hpost Htext Hahead.
  unfold addCommentToThread, connectToDB, try_catch, bind, ret, throw, console_error,
    Thread_findById, Thread_insert, Thread_save_children, revalidatePath, query.
  simpl. rewrite Hpost.
  apply String.eqb_neq in Htext. rewrite Htext.
  replace (mem (nextId w) (map Thread._id (Thread_collection w))) with false.
  2:{ symmetry. apply mem_not_In. intros Hin. apply Hahead in Hin. lia. }
  simpl. unfold Thread_byId in *.
  destruct (Thread_byId_Some _ _ _ Hpost) as [_ Hid]. rewrite Hid.
  rewrite (find_app_l _ _ _ _ Hpost).
  eexists. split; [reflexivity|]. simpl.
  rewrite (update_first_ids Thread._id) by reflexivity.
  rewrite map_app. simpl. intros i Hi. apply in_app_iff in Hi.
  destruct Hi as [Hi | [<- | []]]; [apply Hahead in Hi|]; lia.
Qed.

Lemma addComments_runs threadId path :
  forall comments w post,
    Thread_byId (Thread_collection w) threadId = Some post ->
    Forall (fun comment => fst comment <> "") comments ->
    (forall i, In i (map Thread._id (Thread_collection w)) -> i < nextId w) ->
    exists w', addComments no_faults threadId comments path w = (Return tt, w').
Proof.
  induction comments as [|[commentText userId] rest IH]; intros w post Hpost Htexts Hahead;
    simpl.
  - eexists. reflexivity.
  - inversion Htexts as [|? ? Htext Hrest]; subst. simpl in Htext.
    destruct (addCommentToThread_runs threadId commentText userId path w post
                Hpost Htext Hahead) as (w1 & Hrun & Hahead1).
    unfold bind at 1. rewrite Hrun.
    apply addCommentToThread_Return in Hrun. cbv zeta in Hrun.
    destruct Hrun as (post0 & _ & Hpost1 & _).
    eapply IH; eassumption.
Qed.

(** C8, as the code has it.  Starting from a post without replies, after N
    successful calls of [addCommentToThread] on it the post's [children] has
    N entries, and the i-th of them resolves to a thread whose [parentId] is
    the post, whose text is the i-th comment text and whose author is the
    i-th user.  When the parent id does not resolve, the call fails; the
    error the caller gets is the fixed ["Unable to add comment"], and
    ["Thread not found"] goes to the console only. *)
Theorem addCommentToThread_appends_comments :
  (forall faults threadId comments path w w' post,
      Thread_byId (Thread_collection w) threadId = Some post ->
      Thread.children post = [] ->
      addComments faults threadId comments path w = (Return tt, w') ->
      exists post',
        Thread_byId (Thread_collection w') threadId = Some post' /\
        List.length (Thread.children post') = List.length comments /\
        Forall2 (fun i comment =>
                   exists c,
                     Thread_byId (Thread_collection w') i = Some c /\
                     Thread.parentId c = Some threadId /\
                     Thread.text c = fst comment /\
                     Thread.author c = snd comment)
                (Thread.children post') comments) /\
  (forall faults threadId commentText userId path w,
      Thread_byId (Thread_collection w) threadId = None ->
      faults ThreadModel FindById w = None ->
      addCommentToThread faults threadId commentText userId path w
      = (Throw "Unable to add comment",
         log w "Error while adding comment: Thread not found")).
Proof.
  split.
  - intros faults threadId comments path w w' post Hpost Hempty Hrun.
    destruct (addComments_Return faults threadId path comments w w' post Hpost Hrun)
      as (ids & Hpost' & Hall & _).
    exists (Thread_push_children ids post). split; [assumption|].
    unfold Thread_push_children at 1 2. cbn [Thread.children].
    rewrite Hempty. cbn [app]. split; [|assumption].
    eapply Forall2_length. eassumption.
  - intros faults threadId commentText userId path w Hmissing Hf.
    unfold addCommentToThread, connectToDB, try_catch, bind, ret, throw,
      console_error, Thread_findById, query.
    rewrite Hf, Hmissing. reflexivity.
Qed.

Lemma addCommentToThread_appends_comments_witness :
  let comments := [("nice", 101); ("thanks", 100)] in
  let forum' := snd (addComments no_faults 8 comments "/" forum) in
  exists post',
    Thread_byId (Thread_collection forum') 8 = Some post' /\
    List.length (Thread.children post') = List.length comments /\
    Forall2 (fun i comment =>
               exists c,
                 Thread_byId (Thread_collection forum') i = Some c /\
                 Thread.parentId c = Some 8 /\
                 Thread.text c = fst comment /\
                 Thread.author c = snd comment)
            (Thread.children post') comments.
Proof.
  apply (proj1 addCommentToThread_appends_comments no_faults 8
               [("nice", 101); ("thanks", 100)] "/" forum
               (snd (addComments no_faults 8 [("nice", 101); ("thanks", 100)]
                                 "/" forum))
               post8);
    reflexivity.
Defined.

Example addComments_forum :
  let forum' := snd (addComments no_faults 8 [("nice", 101); ("thanks", 100)]
                                 "/" forum) in
  Thread_byId (Thread_collection forum') 8
  = Some (Thread.mk 8 "third post" 100 None 80 None [9; 10]) /\
  Thread_byId (Thread_collection forum') 9
  = Some (Thread.mk 9 "nice" 101 None 1000 (Some 8) []) /\
  Thread_byId (Thread_collection forum') 10
  = Some (Thread.mk 10 "thanks" 100 None 1000 (Some 8) []).
Proof. repeat split; reflexivity. Qed.

(** No thread has the id 42; commenting on it fails, but what the caller
    catches is not the not-found error. *)
Lemma addCommentToThread_missing_parent_error :
  Thread_byId (Thread_collection forum) 42 = None /\
  addCommentToThread no_faults 42 "hi" 100 "/" forum
  = (Throw "Unable to add comment",
     log forum "Error while adding comment: Thread not found") /\
  "Unable to add comment" <> "Thread not found" /\
  index 0 "Thread not found" "Unable to add comment" = None.
Proof. repeat split; try reflexivity. discriminate. Qed.

(** ** Stores the operations build are forests *)

Lemma forallb_update_first {A} (q p : A -> bool) (f : A -> A) l :
  (forall x, q (f x) = q x) ->
  forallb q (update_first p f l) = forallb q l.
Proof.
  intros Hq. induction l as [|x l IH]; simpl; [reflexivity|].
  destruct (p x); simpl; [rewrite Hq | rewrite IH]; reflexivity.
Qed.

Lemma forallb_filter {A} (q p : A -> bool) l :
  forallb q l = true -> forallb q (filter p l) = true.
Proof.
  rewrite !forallb_forall. intros H x Hx. apply filter_In in Hx. apply H. tauto.
Qed.

Lemma Generated_forest w :
  Generated w -> UniqueIds (Thread_collection w) /\ Acyclic (Thread_collection w).
Proof.
  intros (_ & U & R). split; [assumption|]. eapply ranked_acyclic. exact R.
Qed.

Lemma Generated_insert w text author community parentId :
  Generated w ->
  (forall p, parentId = Some p -> In p (map Thread._id (Thread_collection w))) ->
  forall ts,
    map Thread._id ts = map Thread._id (Thread_collection w) ++ [nextId w] ->
    ranked ts (fun i => i)
    = ranked (Thread_collection w
              ++ [Thread.mk (nextId w) text author community (now w) parentId []])
             (fun i => i) ->
    Generated (set_threads (set_nextId w (S (nextId w))) ts).
Proof.
  intros (Hahead & U & R) Hparent ts Hids Hranked.
  unfold Generated, UniqueIds. simpl. rewrite Hids. split; [|split].
  - intros i Hi. apply in_app_iff in Hi.
    destruct Hi as [Hi | [<- | []]]; [apply Hahead in Hi|]; lia.
  - apply NoDup_app; [exact U | repeat constructor; intros [] |].
    intros i Hi [<- | []]. apply Hahead in Hi. lia.
  - rewrite Hranked. unfold ranked in *. rewrite forallb_app, R. simpl.
    destruct parentId as [p|]; [|reflexivity].
    rewrite andb_true_r. apply Nat.ltb_lt. apply Hahead, Hparent. reflexivity.
Qed.

Lemma Generated_ext w w' :
  Thread_collection w' = Thread_collection w -> nextId w' = nextId w ->
  Generated w -> Generated w'.
Proof. unfold Generated. intros -> ->. auto. Qed.

(** The three writing operations keep the store generated. *)
Lemma createThread_Generated faults text author communityId path w w' :
  createThread faults text author communityId path w = (Return tt, w') ->
  Generated w -> Generated w'.
Proof.
  intros H G. apply createThread_Return in H. cbv zeta in H.
  destruct H as (_ & _ & Hthreads & _ & _ & _ & Hnext & _).
  set (ts := Thread_collection w') in *.
  apply (Generated_ext (set_threads (set_nextId w (S (nextId w))) ts));
    [reflexivity | simpl; congruence |].
  eapply Generated_insert with (parentId := None); [exact G | discriminate | |].
  - rewrite Hthreads, map_app. reflexivity.
  - rewrite Hthreads. reflexivity.
Qed.

Lemma addCommentToThread_Generated faults threadId commentText userId path w w' :
  addCommentToThread faults threadId commentText userId path w = (Return tt, w') ->
  Generated w -> Generated w'.
Proof.
  intros H G. apply addCommentToThread_Return in H. cbv zeta in H.
  destruct H as (post & Hpost & _ & _ & _ & _ & _ & _ & Hthreads & Hnext).
  set (ts := Thread_collection w') in *.
  apply (Generated_ext (set_threads (set_nextId w (S (nextId w))) ts));
    [reflexivity | simpl; congruence |].
  eapply Generated_insert with (parentId := Some threadId); [exact G | | |].
  - intros p [= <-]. destruct (Thread_byId_Some _ _ _ Hpost) as [Hin <-].
    apply in_map. assumption.
  - rewrite Hthreads, (update_first_ids Thread._id) by reflexivity.
    rewrite map_app. reflexivity.
  - rewrite Hthreads. apply forallb_update_first. reflexivity.
Qed.

Lemma deleteThread_Generated faults fuel id path w w' :
  deleteThread faults fuel id path w = (Return tt, w') ->
  Generated w -> Generated w'.
Proof.
  intros H (Hahead & U & R). apply deleteThread_Return in H.
  destruct H as (main & l & _ & _ & _ & _ & _ & _ & Hthreads & _ & _ & _ & Hnext & _).
  unfold Generated, UniqueIds. rewrite Hthreads, Hnext. split; [|split].
  - intros i Hi. apply Hahead. apply in_map_iff in Hi.
    destruct Hi as (t & <- & Ht). apply filter_In in Ht. apply in_map. tauto.
  - apply NoDup_map_filter. exact U.
  - apply forallb_filter. exact R.
Qed.

Example forum_Generated : Generated forum.
Proof.
  split; [|split].
  - simpl. intros i Hi. repeat (destruct Hi as [<- | Hi]; [lia|]). destruct Hi.
  - distinct_ids.
  - reflexivity.
Qed.

(** * Further properties *)

Ltac each_stored :=
  let x := fresh "x" in
  let H := fresh "H" in
  intros x H; simpl in H;
  repeat (destruct H as [<- | H]; [simpl; try lia; try discriminate;
                                   try (intuition (lia || discriminate))|]);
  destruct H.

Lemma reply5_in_subtree : in_subtree (Thread_collection forum) 1 reply5.
Proof.
  right. apply (descends_deeper _ _ reply4); [|simpl; tauto | reflexivity].
  apply (descends_deeper _ _ reply2); [|simpl; tauto | reflexivity].
  apply descends_child; [simpl; tauto | reflexivity].
Qed.

(** ** Failures part-way *)



(** X2. When [createThread] fails, the communities are as before, and either
    no thread was stored and no user list changed, or the new thread is
    stored and the author's list is as before, or the new thread is stored
    and the author's list has its id: the three writes are not undone. *)
Theorem createThread_failure_states :
  forall faults text author communityId path w e w',
    createThread faults text author communityId path w = (Throw e, w') ->
    let created :=
      Thread.mk (nextId w) text author
                (option_map Community._id
                            (Community_byExtId (Community_collection w) communityId))
                (now w) None [] in
    Community_collection w' = Community_collection w /\
    console w' = console w /\
    ((Thread_collection w' = Thread_collection w /\
      User_collection w' = User_collection w) \/
     (Thread_collection w' = Thread_collection w ++ [created] /\
      (User_collection w' = User_collection w \/
       User_collection w'
       = update_first (fun u => Nat.eqb (User._id u) author)
                      (User_push (nextId w)) (User_collection w)))).
Proof.
  unfold createThread, try_catch. intros faults text author communityId path w e w' H.
  match type of H with
  | (match ?b with _ => _ end) = _ => destruct b as [[[]|cause|] w1] eqn:E
  end; try discriminate.
  unfold throw in H. injection H as _ <-.
  unfold connectToDB, bind, ret, Community_findOne_id, Thread_insert,
    User_findByIdAndUpdate_push, Community_findByIdAndUpdate_push, query, command,
    revalidatePath in E. simpl in E.
  destruct (faults CommunityModel FindOne w);
    [injection E as _ <-; repeat split; auto|].
  destruct (String.eqb text "");
    [injection E as _ <-; repeat split; auto|].
  destruct (faults ThreadModel Create w);
    [injection E as _ <-; repeat split; auto|].
  destruct (mem (nextId w) (map Thread._id (Thread_collection w)));
    [injection E as _ <-; repeat split; auto|].
  destruct (faults UserModel FindByIdAndUpdate _).
  { injection E as _ <-. repeat split; auto. right. split; [|left; reflexivity].
    cbn. destruct (Community_byExtId _ _); reflexivity. }
  destruct (Community_byExtId (Community_collection w) communityId) as [c|];
    simpl in E; [|discriminate].
  destruct (faults CommunityModel FindByIdAndUpdate _); [|discriminate].
  injection E as _ <-. repeat split; auto.
Qed.

Lemma createThread_failure_states_witness :
  let forum' := snd (createThread users_down "hello" 100 (Some "org_guild") "/" forum) in
  let created :=
    {|
      Thread._id := nextId forum;
      Thread.text := "hello";
      Thread.author := 100;
      Thread.community :=
        option_map Community._id
          (Community_byExtId (Community_collection forum) (Some "org_guild"));
      Thread.createdAt := now forum;
      Thread.parentId := None;
      Thread.children := []
    |} in
  Community_collection forum' = Community_collection forum /\
  console forum' = console forum /\
  (Thread_collection forum' = Thread_collection forum /\
   User_collection forum' = User_collection forum \/
   Thread_collection forum' = Thread_collection forum ++ [created] /\
   (User_collection forum' = User_collection forum \/
    User_collection forum' =
    update_first (fun u : User.doc => (User._id u =? 100)%nat)
      (User_push (nextId forum)) (User_collection forum))).
Proof.
  intros forum'.
  exact (createThread_failure_states users_down "hello" 100 (Some "org_guild") "/" forum
       "Failed to create post: users unavailable" forum' eq_refl).
Defined.

(** X3. When [addCommentToThread] fails, users and communities are as before,
    and either the Thread collection is as before, or the comment is stored
    while the parent is still the document it was: a comment that names its
    parent but that the parent's [children] does not list. *)
Theorem addCommentToThread_failure_states :
  forall faults threadId commentText userId path w e w',
    addCommentToThread faults threadId commentText userId path w = (Throw e, w') ->
    let comment :=
      Thread.mk (nextId w) commentText userId None (now w) (Some threadId) [] in
    User_collection w' = User_collection w /\
    Community_collection w' = Community_collection w /\
    (Thread_collection w' = Thread_collection w \/
     (Thread_collection w' = Thread_collection w ++ [comment] /\
      exists post, Thread_byId (Thread_collection w') threadId = Some post /\
                   Thread_byId (Thread_collection w) threadId = Some post)).
Proof.
  unfold addCommentToThread, connectToDB, try_catch, bind, ret, throw, console_error,
    Thread_findById, Thread_insert, Thread_save_children, revalidatePath, query.
  simpl. intros faults threadId commentText userId path w e w' H.
  destruct (faults ThreadModel FindById w);
    [injection H as _ <-; repeat split; auto|].
  destruct (Thread_byId (Thread_collection w) threadId) as [post|] eqn:Hpost;
    [|injection H as _ <-; repeat split; auto].
  destruct (String.eqb commentText "");
    [injection H as _ <-; repeat split; auto|].
  destruct (faults ThreadModel Save w);
    [injection H as _ <-; repeat split; auto|].
  destruct (mem (nextId w) (map Thread._id (Thread_collection w))) eqn:Emem;
    [injection H as _ <-; repeat split; auto|].
  simpl in H.
  assert (Hstill : Thread_byId (Thread_collection w ++
                      [Thread.mk (nextId w) commentText userId None (now w)
                                 (Some threadId) []]) threadId = Some post).
  { unfold Thread_byId in *. apply find_app_l. assumption. }
  destruct (faults ThreadModel Save _).
  - injection H as _ <-. repeat split; auto. right. split; [reflexivity|].
    exists post. auto.
  - destruct (Thread_byId _ (Thread._id post)); [discriminate|].
    injection H as _ <-. repeat split; auto. right. split; [reflexivity|].
    exists post. auto.
Qed.

Lemma addCommentToThread_failure_states_witness :
  let forum' := snd (addCommentToThread saves_down 8 "nice" 101 "/" forum) in
  let comment :=
    {|
      Thread._id := nextId forum;
      Thread.text := "nice";
      Thread.author := 101;
      Thread.community := None;
      Thread.createdAt := now forum;
      Thread.parentId := Some 8;
      Thread.children := []
    |} in
  User_collection forum' = User_collection forum /\
  Community_collection forum' = Community_collection forum /\
  (Thread_collection forum' = Thread_collection forum \/
   Thread_collection forum' = Thread_collection forum ++ [comment] /\
   exists post : Thread.doc,
     Thread_byId (Thread_collection forum') 8 = Some post /\
     Thread_byId (Thread_collection forum) 8 = Some post).
Proof.
  intros forum'.
  exact (addCommentToThread_failure_states saves_down 8 "nice" 101 "/" forum
       "Unable to add comment" forum' eq_refl).
Defined.

(** ** After a cascade delete *)

(** After a successful cascade no id of the subtree resolves any more. *)
Lemma deleted_unresolvable faults fuel id path w w' :
  deleteThread faults fuel id path w = (Return tt, w') ->
  forall t, in_subtree (Thread_collection w) id t ->
            Thread_byId (Thread_collection w') (Thread._id t) = None.
Proof.
  intros H t Ht. apply deleteThread_Return in H.
  destruct H as (main & l & _ & _ & Hmain & Hl & _ & _ & Hthreads & _).
  pose proof (fetch_Return_find_ok _ _ _ _ _ _ Hl) as Hfind.
  rewrite Hthreads. apply find_filter_None. intros x _ Hx.
  apply Nat.eqb_eq in Hx. apply negb_false_iff, mem_In. rewrite Hx.
  destruct Ht as [-> | Hd]; [left; reflexivity | right].
  apply in_map. eapply fetch_complete; eassumption.
Qed.

(** X4. After a successful [deleteThread], [fetchThreadById] on the id of the
    target or of any thread that descended from it returns [null]. *)
Theorem deleteThread_then_fetchThreadById :
  forall faults fuel id path w w',
    deleteThread faults fuel id path w = (Return tt, w') ->
    faults ThreadModel FindById w' = None ->
    forall t, in_subtree (Thread_collection w) id t ->
              fetchThreadById faults (Thread._id t) w' = (Return None, w').
Proof.
  intros faults fuel id path w w' H Hf t Ht.
  pose proof (deleted_unresolvable _ _ _ _ _ _ H t Ht) as Hgone.
  unfold fetchThreadById, connectToDB, try_catch, bind, ret, Thread_findById,
    exec_populate, query.
  rewrite Hf, Hgone. reflexivity.
Qed.

Lemma deleteThread_then_fetchThreadById_witness :
  let forum' := snd (deleteThread no_faults 9 1 "/" forum) in
  fetchThreadById no_faults (Thread._id reply5) forum' = (Return None, forum').
Proof.
  intros forum'.
  exact (deleteThread_then_fetchThreadById no_faults 9 1 "/" forum forum'
       eq_refl eq_refl reply5 reply5_in_subtree).
Defined.

(** X5. Deleting the same thread a second time fails with
    ["Failed to delete thread: Thread not found"] and changes nothing. *)
Theorem deleteThread_twice :
  forall faults fuel fuel' id path path' w w',
    deleteThread faults fuel id path w = (Return tt, w') ->
    faults ThreadModel FindById w' = None ->
    deleteThread faults fuel' id path' w'
    = (Throw "Failed to delete thread: Thread not found", w').
Proof.
  intros faults fuel fuel' id path path' w w' H Hf.
  assert (Hgone : Thread_byId (Thread_collection w') id = None).
  { apply deleteThread_Return in H.
    destruct H as (main & l & _ & _ & Hmain & _ & _ & _ & Hthreads & _).
    rewrite Hthreads. apply find_filter_None. intros x _ Hx.
    apply Nat.eqb_eq in Hx. apply negb_false_iff, mem_In. left. congruence. }
  unfold deleteThread, connectToDB, try_catch, bind, ret, throw, Thread_findById,
    exec_populate, query.
  rewrite Hf, Hgone. reflexivity.
Qed.

Lemma deleteThread_twice_witness :
  let forum' := snd (deleteThread no_faults 9 1 "/" forum) in
  deleteThread no_faults 9 1 "/" forum' =
  (Throw "Failed to delete thread: Thread not found", forum').
Proof.
  intros forum'.
  exact (deleteThread_twice no_faults 9 9 1 "/" "/" forum forum' eq_refl eq_refl).
Defined.

(** ** The feed *)

Lemma doc_populate_all w os t : doc (populate_all w os t) = t.
Proof.
  unfold populate_all. change t with (doc (unresolved t)) at 2.
  generalize (unresolved t) as q. induction os as [|o os IH]; intros q; simpl.
  - reflexivity.
  - rewrite IH. destruct o as [path select nested], q as [d a c k]. simpl.
    destruct (path =? "author"); [reflexivity|].
    destruct (path =? "community"); [reflexivity|].
    destruct (path =? "children"); reflexivity.
Qed.

(** What [fetchPosts] returns when the driver answers, for a page >= 1 of a
    positive size. *)
Lemma fetchPosts_runs faults pageNumber pageSize w :
  faults ThreadModel CountDocuments w = None ->
  faults ThreadModel Find w = None ->
  faults ThreadModel Populate w = None ->
  (1 <= pageNumber)%Z -> (0 < pageSize)%Z ->
  let page := firstn (Z.to_nat pageSize)
                     (skipn (Z.to_nat ((pageNumber - 1) * pageSize)) (feed w)) in
  fetchPosts faults pageNumber pageSize w
  = (Return (map (populate_all w feed_populate) page,
             (pageNumber * pageSize <? Z.of_nat (List.length (feed w)))%Z),
     w).
Proof.
  intros Hc Hf Hp Hpage Hsize page.
  unfold fetchPosts, connectToDB, bind, ret, Thread_countDocuments_posts, query.
  rewrite Hc, (Thread_find_posts_populated faults _ _ _ w Hf Hp).
  unfold skip_limit.
  assert (Hskip : (0 <= (pageNumber - 1) * pageSize)%Z) by nia.
  destruct ((pageNumber - 1) * pageSize <? 0)%Z eqn:E1;
    [apply Z.ltb_lt in E1; lia|].
  destruct (pageSize =? 0)%Z eqn:E2; [apply Z.eqb_eq in E2; lia|].
  replace (Z.abs_nat pageSize) with (Z.to_nat pageSize) by lia.
  fold (feed w). fold feed_populate. fold page.
  do 2 f_equal. f_equal.
  rewrite length_map. unfold page. rewrite length_firstn, length_skipn.
  assert (Hlen : List.length (feed w)
                 = List.length (filter top_level (Thread_collection w))).
  { apply Permutation_length, sort_createdAt_desc_Permutation. }
  rewrite <- Hlen.
  replace (pageNumber * pageSize)%Z
    with ((pageNumber - 1) * pageSize + pageSize)%Z by ring.
  rewrite Z.gtb_ltb. clear E1 Hlen. clearbody page.
  generalize dependent ((pageNumber - 1) * pageSize)%Z. intros k Hk.
  generalize (List.length (feed w)). intros n.
  destruct (Z.ltb_spec (k + Z.of_nat (Nat.min (Z.to_nat pageSize) (n - Z.to_nat k)))
                       (Z.of_nat n)),
           (Z.ltb_spec (k + pageSize) (Z.of_nat n)); try reflexivity; lia.
Qed.

Lemma feed_page_runs faults pageSize w page :
  faults ThreadModel CountDocuments w = None ->
  faults ThreadModel Find w = None ->
  faults ThreadModel Populate w = None ->
  1 <= page -> (0 < pageSize)%Z ->
  feed_page faults pageSize w page
  = firstn (Z.to_nat pageSize) (skipn ((page - 1) * Z.to_nat pageSize) (feed w)).
Proof.
  intros Hc Hf Hp Hpage Hsize. unfold feed_page.
  rewrite fetchPosts_runs by (assumption || lia). cbv zeta.
  rewrite map_map.
  rewrite (map_ext _ (fun t => t)) by (intros; apply doc_populate_all).
  rewrite map_id. do 2 f_equal. nia.
Qed.

Lemma firstn_plus {A} (a b : nat) (l : list A) :
  firstn (a + b) l = firstn a l ++ firstn b (skipn a l).
Proof.
  revert l. induction a as [|a IH]; intros l; simpl; [reflexivity|].
  destruct l as [|x l]; simpl.
  - rewrite firstn_nil. reflexivity.
  - rewrite IH. reflexivity.
Qed.

(** X6. The pages of [fetchPosts] tile the feed: for a positive page size,
    pages 1 to k one after the other are the first k * size posts of the
    feed, none left out and none twice. *)
Theorem fetchPosts_pages_tile_the_feed :
  forall faults pageSize w,
    faults ThreadModel CountDocuments w = None ->
    faults ThreadModel Find w = None ->
    faults ThreadModel Populate w = None ->
    (0 < pageSize)%Z ->
    forall k,
      flat_map (feed_page faults pageSize w) (seq 1 k)
      = firstn (k * Z.to_nat pageSize) (feed w).
Proof.
  intros faults pageSize w Hc Hf Hp Hsize k.
  induction k as [|k IH]; [reflexivity|].
  rewrite seq_S, flat_map_app, IH. cbn [flat_map]. rewrite app_nil_r.
  rewrite feed_page_runs by (assumption || lia).
  replace (1 + k - 1) with k by lia.
  replace (S k * Z.to_nat pageSize) with (k * Z.to_nat pageSize + Z.to_nat pageSize)
    by lia.
  symmetry. apply firstn_plus.
Qed.

Lemma fetchPosts_pages_tile_the_feed_witness :
  flat_map (feed_page no_faults 10 busy) (seq 1 3) =
  firstn (3 * Z.to_nat 10) (feed busy).
Proof.
  exact (fetchPosts_pages_tile_the_feed no_faults 10 busy eq_refl eq_refl eq_refl eq_refl 3).
Defined.

(** X7. A page that starts at or after the end of the feed is empty and has
    no next page. *)
Theorem fetchPosts_past_the_end :
  forall faults pageNumber pageSize w,
    faults ThreadModel CountDocuments w = None ->
    faults ThreadModel Find w = None ->
    (1 <= pageNumber)%Z -> (0 < pageSize)%Z ->
    (Z.of_nat (List.length (filter top_level (Thread_collection w)))
     <= (pageNumber - 1) * pageSize)%Z ->
    fetchPosts faults pageNumber pageSize w = (Return ([], false), w).
Proof.
  intros faults pageNumber pageSize w Hc Hf Hpage Hsize Hpast.
  unfold fetchPosts, connectToDB, bind, ret, Thread_countDocuments_posts,
    Thread_find_posts, skip_limit, query.
  rewrite Hc, Hf.
  destruct ((pageNumber - 1) * pageSize <? 0)%Z eqn:E1;
    [apply Z.ltb_lt in E1; lia|].
  destruct (pageSize =? 0)%Z eqn:E2; [apply Z.eqb_eq in E2; lia|].
  assert (Hlen : List.length (sort_createdAt_desc
                                (filter top_level (Thread_collection w)))
                 = List.length (filter top_level (Thread_collection w))).
  { apply Permutation_length, sort_createdAt_desc_Permutation. }
  rewrite skipn_all2 by lia. rewrite firstn_nil. cbn [List.length].
  replace (_ >? _)%Z with false; [reflexivity|].
  symmetry. rewrite Z.gtb_ltb. apply Z.ltb_ge. lia.
Qed.

Lemma fetchPosts_past_the_end_witness :
  fetchPosts no_faults 4 10 busy = (Return ([], false), busy).
Proof.
  exact (fetchPosts_past_the_end no_faults 4 10 busy eq_refl eq_refl
       ltac:(lia) eq_refl ltac:(simpl; lia)).
Defined.

Lemma feed_In w t :
  In t (feed w) <-> In t (Thread_collection w) /\ Thread.parentId t = None.
Proof.
  unfold feed. split.
  - intros H. apply (Permutation_in _ (sort_createdAt_desc_Permutation _)) in H.
    apply filter_In in H. unfold top_level in H.
    destruct (Thread.parentId t); [destruct H; discriminate | tauto].
  - intros [H Hp].
    apply (Permutation_in _ (Permutation_sym (sort_createdAt_desc_Permutation _))).
    apply filter_In. unfold top_level. rewrite Hp. auto.
Qed.




(** The first page of two of the sample: post 8, and post 6 with its reply 7
    as a document whose author has no external id. *)
Example fetchPosts_forum :
  exists a8 c8 a6 c6 c7,
    fetchPosts no_faults 1 2 forum
    = (Return ([PT post8 a8 c8 (inr []);
                PT post6 a6 c6
                   (inr [PT reply7
                            (Populated
                               (Some (User.mkPartial 100 None (Some "Alice")
                                                     (Some "alice.png") None)))
                            c7 (inl [])])],
               true),
       forum).
Proof. do 5 eexists. vm_compute. reflexivity. Qed.

Lemma sort_newest_last l c :
  (forall t, In t l -> (Thread.createdAt t < Thread.createdAt c)%Z) ->
  sort_createdAt_desc (l ++ [c]) = c :: sort_createdAt_desc l.
Proof.
  induction l as [|t l IH]; intros Hold; simpl; [reflexivity|].
  rewrite IH by auto using in_cons. simpl.
  destruct (Z.leb_spec (Thread.createdAt c) (Thread.createdAt t)); [|reflexivity].
  specialize (Hold t (in_eq _ _)). lia.
Qed.

(** X9. When every stored post is older than the clock, a post just created is
    the first post of page 1, with the given text and author and no replies,
    followed by the former head of the feed. *)
Theorem createThread_then_fetchPosts :
  forall faults text author communityId path pageSize w w',
    createThread faults text author communityId path w = (Return tt, w') ->
    (forall t, In t (Thread_collection w) -> Thread.parentId t = None ->
               (Thread.createdAt t < now w)%Z) ->
    faults ThreadModel CountDocuments w' = None ->
    faults ThreadModel Find w' = None ->
    faults ThreadModel Populate w' = None ->
    (0 < pageSize)%Z ->
    exists first rest hasNext,
      fetchPosts faults 1 pageSize w' = (Return (first :: rest, hasNext), w') /\
      Thread.text (doc first) = text /\
      Thread.author (doc first) = author /\
      Thread.children (doc first) = [] /\
      children first = inr [] /\
      map doc rest = firstn (Z.to_nat pageSize - 1) (feed w).
Proof.
  intros faults text author communityId path pageSize w w' H Hold Hc Hf Hp Hsize.
  apply createThread_Return in H. cbv zeta in H.
  destruct H as (_ & _ & Hthreads & _).
  set (created := Thread.mk _ _ _ _ _ _ _) in Hthreads.
  assert (Hfeed : feed w' = created :: feed w).
  { unfold feed. rewrite Hthreads, filter_app. cbn [filter top_level created].
    cbn. apply sort_newest_last. intros t Ht. apply filter_In in Ht.
    destruct Ht as [Ht Htop]. apply Hold; [assumption|].
    unfold top_level in Htop. destruct (Thread.parentId t); [discriminate | reflexivity]. }
  rewrite fetchPosts_runs by (assumption || lia). cbv zeta.
  rewrite Hfeed. change (Z.to_nat ((1 - 1) * pageSize)) with 0. cbn [skipn].
  destruct (Z.to_nat pageSize) as [|n] eqn:En; [lia|].
  cbn [firstn map]. eexists _, _, _. split; [reflexivity|].
  rewrite doc_populate_all. cbn.
  repeat (split; [reflexivity|]).
  rewrite map_map, (map_ext _ (fun t => t)) by (intros; apply doc_populate_all).
  rewrite map_id, Nat.sub_0_r. reflexivity.
Qed.

Lemma createThread_then_fetchPosts_witness :
  let forum' := snd (createThread no_faults "hello" 100 None "/" forum) in
  exists (first : PThread) (rest : list PThread) (hasNext : bool),
    fetchPosts no_faults 1 2 forum' =
    (Return (first :: rest, hasNext), forum') /\
    Thread.text (doc first) = "hello" /\
    Thread.author (doc first) = 100 /\
    Thread.children (doc first) = [] /\
    children first = inr [] /\
    map doc rest = firstn (Z.to_nat 2 - 1) (feed forum).
Proof.
  intros forum'.
  exact (createThread_then_fetchPosts no_faults "hello" 100 None "/" 2 forum forum'
       eq_refl ltac:(each_stored) eq_refl eq_refl eq_refl eq_refl).
Defined.

Lemma same_but_children_refl t : same_but_children t t.
Proof. unfold same_but_children. tauto. Qed.

Lemma Forall2_refl_list {A} (R : A -> A -> Prop) l :
  (forall x, R x x) -> Forall2 R l l.
Proof. intros H. induction l; constructor; auto. Qed.

Lemma Forall2_update_first {A} (R : A -> A -> Prop) (p : A -> bool) (f : A -> A) l :
  (forall x, R x x) -> (forall x, R x (f x)) -> Forall2 R l (update_first p f l).
Proof.
  intros Hrefl Hf. induction l as [|x l IH]; simpl; [constructor|].
  destruct (p x); constructor; auto. apply Forall2_refl_list. assumption.
Qed.

Lemma Forall2_filter_top_level l l' :
  Forall2 same_but_children l l' ->
  Forall2 same_but_children (filter top_level l) (filter top_level l').
Proof.
  induction 1 as [|t t' l l' Ht _ IH]; simpl; [constructor|].
  assert (E : top_level t' = top_level t).
  { unfold top_level. destruct Ht as (_ & _ & _ & _ & _ & ->). reflexivity. }
  rewrite E. destruct (top_level t); [constructor|]; assumption.
Qed.

Lemma Forall2_insert_desc t t' s s' :
  same_but_children t t' -> Forall2 same_but_children s s' ->
  Forall2 same_but_children (insert_desc t s) (insert_desc t' s').
Proof.
  intros Ht Hs. induction Hs as [|x x' s s' Hx Hs IH]; simpl.
  - constructor; [assumption | constructor].
  - assert (E : (Thread.createdAt x' <=? Thread.createdAt t')%Z
                = (Thread.createdAt x <=? Thread.createdAt t)%Z).
    { destruct Ht as (_ & _ & _ & _ & -> & _), Hx as (_ & _ & _ & _ & -> & _).
      reflexivity. }
    rewrite E. destruct (Thread.createdAt x <=? Thread.createdAt t)%Z.
    + constructor; [assumption|]. constructor; assumption.
    + constructor; assumption.
Qed.

Lemma Forall2_sort l l' :
  Forall2 same_but_children l l' ->
  Forall2 same_but_children (sort_createdAt_desc l) (sort_createdAt_desc l').
Proof.
  induction 1; simpl; [constructor|]. apply Forall2_insert_desc; assumption.
Qed.

Lemma Forall2_skipn {A B} (R : A -> B -> Prop) n :
  forall l l', Forall2 R l l' -> Forall2 R (skipn n l) (skipn n l').
Proof.
  induction n as [|n IH]; intros l l' H; [assumption|].
  destruct H; simpl; [constructor | auto].
Qed.

Lemma Forall2_firstn {A B} (R : A -> B -> Prop) n :
  forall l l', Forall2 R l l' -> Forall2 R (firstn n l) (firstn n l').
Proof.
  induction n as [|n IH]; intros l l' H; [constructor|].
  destruct H; simpl; constructor; auto.
Qed.

(** The feed after a comment: the same posts, the commented one with one
    more child. *)
Lemma addCommentToThread_feed faults threadId commentText userId path w w' :
  addCommentToThread faults threadId commentText userId path w = (Return tt, w') ->
  Forall2 same_but_children (feed w) (feed w').
Proof.
  intros H. apply addCommentToThread_Return in H. cbv zeta in H.
  destruct H as (post & _ & _ & _ & _ & _ & _ & _ & Hthreads & _).
  unfold feed. apply Forall2_sort. rewrite Hthreads.
  replace (filter top_level (Thread_collection w))
    with (filter top_level
            (Thread_collection w
             ++ [Thread.mk (nextId w) commentText userId None (now w)
                           (Some threadId) []]))
    by (rewrite filter_app, app_nil_r; reflexivity).
  apply Forall2_filter_top_level, Forall2_update_first.
  - apply same_but_children_refl.
  - intros x. unfold same_but_children. simpl. tauto.
Qed.

(** X10. A comment does not change the feed: before and after a successful
    [addCommentToThread], [fetchPosts] returns for every page the same posts
    up to their [children], and the same [isNext]. *)
Theorem addCommentToThread_keeps_the_feed :
  forall faults threadId commentText userId path pageNumber pageSize w w',
    addCommentToThread faults threadId commentText userId path w = (Return tt, w') ->
    faults ThreadModel CountDocuments w = None ->
    faults ThreadModel Find w = None ->
    faults ThreadModel Populate w = None ->
    faults ThreadModel CountDocuments w' = None ->
    faults ThreadModel Find w' = None ->
    faults ThreadModel Populate w' = None ->
    (1 <= pageNumber)%Z -> (0 < pageSize)%Z ->
    exists posts posts' hasNext,
      fetchPosts faults pageNumber pageSize w = (Return (posts, hasNext), w) /\
      fetchPosts faults pageNumber pageSize w' = (Return (posts', hasNext), w') /\
      Forall2 same_but_children (map doc posts) (map doc posts').
Proof.
  intros faults threadId commentText userId path pageNumber pageSize w w'
         H Hc Hf Hp Hc' Hf' Hp' Hpage Hsize.
  pose proof (addCommentToThread_feed _ _ _ _ _ _ _ H) as Hfeed.
  rewrite !fetchPosts_runs by assumption. cbv zeta.
  rewrite (Forall2_length Hfeed).
  eexists _, _, _. split; [reflexivity|]. split; [reflexivity|].
  rewrite !map_map.
  rewrite !(map_ext (fun x => doc (populate_all _ feed_populate x)) (fun t => t))
    by (intros; apply doc_populate_all).
  rewrite !map_id. apply Forall2_firstn, Forall2_skipn. assumption.
Qed.

Lemma addCommentToThread_keeps_the_feed_witness :
  let forum' := snd (addCommentToThread no_faults 8 "nice" 101 "/" forum) in
  exists (posts posts' : list PThread) (hasNext : bool),
    fetchPosts no_faults 1 2 forum = (Return (posts, hasNext), forum) /\
    fetchPosts no_faults 1 2 forum' = (Return (posts', hasNext), forum') /\
    Forall2 same_but_children (map doc posts) (map doc posts').
Proof.
  intros forum'.
  exact (addCommentToThread_keeps_the_feed no_faults 8 "nice" 101 "/" 1 2 forum forum'
       eq_refl eq_refl eq_refl eq_refl eq_refl eq_refl eq_refl ltac:(lia) eq_refl).
Defined.

Lemma insert_desc_head t s :
  (forall y, In y s -> (Thread.createdAt y <= Thread.createdAt t)%Z) ->
  insert_desc t s = t :: s.
Proof.
  destruct s as [|x s]; simpl; [reflexivity|]. intros H.
  destruct (Z.leb_spec (Thread.createdAt x) (Thread.createdAt t)); [reflexivity|].
  specialize (H x (or_introl eq_refl)). lia.
Qed.

Lemma insert_desc_filter p t s :
  newest_first s ->
  filter p (insert_desc t s)
  = if p t then insert_desc t (filter p s) else filter p s.
Proof.
  unfold newest_first. induction 1 as [|x s Hs IH Hx]; simpl.
  - destruct (p t); reflexivity.
  - destruct (Z.leb_spec (Thread.createdAt x) (Thread.createdAt t)) as [E|E]; simpl.
    + destruct (p t) eqn:Pt, (p x) eqn:Px; simpl; try reflexivity.
      * destruct (Z.leb_spec (Thread.createdAt x) (Thread.createdAt t));
          [reflexivity | lia].
      * symmetry. apply insert_desc_head. intros y Hy. apply filter_In in Hy.
        rewrite Forall_forall in Hx. specialize (Hx y (proj1 Hy)). lia.
    + rewrite IH. destruct (p t) eqn:Pt, (p x) eqn:Px; simpl; try reflexivity.
      destruct (Z.leb_spec (Thread.createdAt x) (Thread.createdAt t));
        [lia | reflexivity].
Qed.

Lemma sort_createdAt_desc_filter p l :
  sort_createdAt_desc (filter p l) = filter p (sort_createdAt_desc l).
Proof.
  induction l as [|t l IH]; simpl; [reflexivity|].
  rewrite insert_desc_filter by apply sort_createdAt_desc_newest_first.
  destruct (p t); simpl; rewrite IH; reflexivity.
Qed.

Lemma filter_filter_comm {A} (p q : A -> bool) l :
  filter p (filter q l) = filter q (filter p l).
Proof.
  induction l as [|x l IH]; simpl; [reflexivity|].
  destruct (p x) eqn:P, (q x) eqn:Q; simpl; rewrite ?P, ?Q, IH; reflexivity.
Qed.

Lemma descends_has_parent threads a t :
  descends threads a t -> Thread.parentId t <> None.
Proof. destruct 1 as [t _ H | p t _ _ H]; rewrite H; discriminate. Qed.

(** X11. A successful [deleteThread] takes out of the feed the thread with the
    target id, if it is a post, and nothing else, keeping the order; deleting
    a comment leaves the feed as it was. *)
Theorem deleteThread_feed :
  forall faults fuel id path w w',
    deleteThread faults fuel id path w = (Return tt, w') ->
    UniqueIds (Thread_collection w) ->
    feed w' = filter (fun t => negb (Nat.eqb (Thread._id t) id)) (feed w) /\
    (forall main, Thread_byId (Thread_collection w) id = Some main ->
                  Thread.parentId main <> None -> feed w' = feed w).
Proof.
  intros faults fuel id path w w' H U.
  apply deleteThread_Return in H.
  destruct H as (main & l & _ & _ & Hmain & Hl & _ & _ & Hthreads & _).
  pose proof (fetch_Return_find_ok _ _ _ _ _ _ Hl) as Hfind.
  assert (Hfeed : feed w'
                  = filter (fun t => negb (Nat.eqb (Thread._id t) id)) (feed w)).
  { unfold feed. rewrite Hthreads, filter_filter_comm.
    rewrite <- sort_createdAt_desc_filter. f_equal.
    apply filter_ext_in. intros t Ht. apply filter_In in Ht.
    destruct Ht as [Ht Htop]. f_equal.
    change (mem (Thread._id t) (id :: map Thread._id l))
      with (Nat.eqb (Thread._id t) id || mem (Thread._id t) (map Thread._id l)).
    destruct (Nat.eqb (Thread._id t) id) eqn:E; [reflexivity|].
    simpl. apply mem_not_In. intros Hin.
    apply in_map_iff in Hin. destruct Hin as (t' & Hid & Ht').
    pose proof (fetch_sound faults w Hfind fuel id l Hl t' Ht') as Hd.
    assert (t' = t) as ->.
    { apply (unique_doc (Thread_collection w)); auto.
      eapply descends_In; eassumption. }
    apply descends_has_parent in Hd. unfold top_level in Htop.
    destruct (Thread.parentId t); [discriminate | congruence]. }
  split; [exact Hfeed|].
  intros main' Hmain' Hcomment. rewrite Hfeed.
  rewrite Hmain in Hmain'. injection Hmain' as <-.
  destruct (Thread_byId_Some _ _ _ Hmain) as [Hin Hid].
  apply forallb_filter_id. apply forallb_forall. intros t Ht.
  apply feed_In in Ht. destruct Ht as [Ht Hp].
  apply negb_true_iff, Nat.eqb_neq. intros Heq.
  assert (t = main) as -> by (apply (unique_doc (Thread_collection w)); auto; congruence).
  contradiction.
Qed.

Lemma deleteThread_feed_witness :
  let forum' := snd (deleteThread no_faults 9 3 "/" forum) in
  feed forum' =
  filter (fun t : Thread.doc => negb (Thread._id t =? 3)%nat) (feed forum) /\
  (forall main : Thread.doc,
   Thread_byId (Thread_collection forum) 3 = Some main ->
   Thread.parentId main <> None -> feed forum' = feed forum).
Proof.
  intros forum'.
  exact (deleteThread_feed no_faults 9 3 "/" forum forum' eq_refl ltac:(distinct_ids)).
Defined.

(** ** Creation and deletion together *)

Lemma update_first_none {A} (p : A -> bool) (f : A -> A) l :
  find p l = None -> update_first p f l = l.
Proof.
  induction l as [|x l IH]; simpl; [reflexivity|].
  destruct (p x); [discriminate|]. intros H. rewrite IH by assumption. reflexivity.
Qed.

(** X12. [createThread] does not check that the author exists: with an author
    id no user has, the thread is stored all the same, naming an author that
    does not resolve, and the User collection is left as it was. *)
Theorem createThread_unknown_author :
  forall faults text author communityId path w w',
    createThread faults text author communityId path w = (Return tt, w') ->
    User_byId (User_collection w) author = None ->
    User_collection w' = User_collection w /\
    exists created,
      Thread_byId (Thread_collection w') (Thread._id created) = Some created /\
      Thread.author created = author /\
      User_byId (User_collection w') (Thread.author created) = None.
Proof.
  intros faults text author communityId path w w' H Hnone.
  apply createThread_Return in H. cbv zeta in H.
  destruct H as (_ & Hfresh & Hthreads & Husers & _).
  assert (Hsame : User_collection w' = User_collection w).
  { rewrite Husers. apply update_first_none. exact Hnone. }
  split; [exact Hsame|].
  match type of Hthreads with _ = _ ++ [?c] => exists c end.
  split; [|split; [reflexivity|]].
  - rewrite Hthreads. unfold Thread_byId in *. rewrite find_app_r by exact Hfresh.
    simpl. rewrite Nat.eqb_refl. reflexivity.
  - simpl. rewrite Hsame. exact Hnone.
Qed.

Lemma createThread_unknown_author_witness :
  let forum' := snd (createThread no_faults "ghost" 555 None "/" forum) in
  User_collection forum' = User_collection forum /\
  exists created : Thread.doc,
    Thread_byId (Thread_collection forum') (Thread._id created) = Some created /\
    Thread.author created = 555 /\
    User_byId (User_collection forum') (Thread.author created) = None.
Proof.
  intros forum'.
  exact (createThread_unknown_author no_faults "ghost" 555 None "/" forum forum'
       eq_refl eq_refl).
Defined.

Lemma pull_absent i refs : ~ In i refs -> pull [i] refs = refs.
Proof.
  intros H. unfold pull. apply forallb_filter_id, forallb_forall. intros r Hr.
  apply negb_true_iff, mem_not_In. intros [<- | []]. contradiction.
Qed.

Lemma pull_pushed i refs : ~ In i refs -> pull [i] (refs ++ [i]) = refs.
Proof.
  intros H. unfold pull. rewrite filter_app. simpl. rewrite Nat.eqb_refl. simpl.
  rewrite app_nil_r. apply (pull_absent i refs H).
Qed.

Lemma User_pull_absent authors i u :
  ~ In i (User.threads u) -> User_pull authors [i] u = u.
Proof.
  intros H. unfold User_pull. destruct (mem (User._id u) authors); [|reflexivity].
  rewrite pull_absent by assumption. destruct u; reflexivity.
Qed.

Lemma Community_pull_absent communities i c :
  ~ In i (Community.threads c) -> Community_pull communities [i] c = c.
Proof.
  intros H. unfold Community_pull.
  destruct (mem (Community._id c) communities); [|reflexivity].
  rewrite pull_absent by assumption. destruct c; reflexivity.
Qed.

Lemma User_pull_pushed authors author i us :
  (forall u, In u us -> ~ In i (User.threads u)) ->
  (User_byId us author <> None -> In author authors) ->
  map (User_pull authors [i])
      (update_first (fun u => Nat.eqb (User._id u) author) (User_push i) us)
  = us.
Proof.
  unfold User_byId. induction us as [|u us IH]; intros Hfresh Hauthor; simpl;
    [reflexivity|].
  destruct (Nat.eqb (User._id u) author) eqn:E; simpl.
  - f_equal.
    + unfold User_pull, User_push. simpl. apply Nat.eqb_eq in E.
      replace (mem (User._id u) authors) with true.
      * rewrite pull_pushed by (apply Hfresh; left; reflexivity).
        destruct u; reflexivity.
      * symmetry. apply mem_In. rewrite E. apply Hauthor. simpl.
        rewrite <- E, Nat.eqb_refl. discriminate.
    + rewrite <- (map_id us) at 2. apply map_ext_in. intros x Hx.
      apply User_pull_absent. apply Hfresh. right. assumption.
  - f_equal.
    + apply User_pull_absent. apply Hfresh. left. reflexivity.
    + apply IH; [intros x Hx; apply Hfresh; right; assumption|].
      intros Hsome. apply Hauthor. simpl. rewrite E. assumption.
Qed.

Lemma Community_pull_pushed communities key i cs :
  (forall c, In c cs -> ~ In i (Community.threads c)) ->
  (Community_byId cs key <> None -> In key communities) ->
  map (Community_pull communities [i])
      (update_first (fun c => Nat.eqb (Community._id c) key) (Community_push i) cs)
  = cs.
Proof.
  unfold Community_byId. induction cs as [|c cs IH]; intros Hfresh Hkey; simpl;
    [reflexivity|].
  destruct (Nat.eqb (Community._id c) key) eqn:E; simpl.
  - f_equal.
    + unfold Community_pull, Community_push. simpl. apply Nat.eqb_eq in E.
      replace (mem (Community._id c) communities) with true.
      * rewrite pull_pushed by (apply Hfresh; left; reflexivity).
        destruct c; reflexivity.
      * symmetry. apply mem_In. rewrite E. apply Hkey. simpl.
        rewrite <- E, Nat.eqb_refl. discriminate.
    + rewrite <- (map_id cs) at 2. apply map_ext_in. intros x Hx.
      apply Community_pull_absent. apply Hfresh. right. assumption.
  - f_equal.
    + apply Community_pull_absent. apply Hfresh. left. reflexivity.
    + apply IH; [intros x Hx; apply Hfresh; right; assumption|].
      intros Hsome. apply Hkey. simpl. rewrite E. assumption.
Qed.

(** Below an id that no stored thread names as its parent there is nothing. *)
Lemma fetch_leaf faults fuel x w l :
  (forall t, In t (Thread_collection w) -> Thread.parentId t <> Some x) ->
  fetchAllChildThreads faults fuel x w = (Return l, w) -> l = [].
Proof.
  intros Hleaf Hl. pose proof (fetch_Return_find_ok _ _ _ _ _ _ Hl) as Hfind.
  destruct l as [|t l]; [reflexivity|]. exfalso.
  pose proof (fetch_sound faults w Hfind fuel x _ Hl t (in_eq _ _)) as Hd.
  apply descends_first in Hd. destruct Hd as (c & Hc & Hp & _).
  exact (Hleaf c Hc Hp).
Qed.

Lemma find_update_first_Some {A} (key : A -> ObjectId) (f : A -> A) i j l x :
  (forall y, key (f y) = key y) ->
  find (fun y => Nat.eqb (key y) j) l = Some x ->
  find (fun y => Nat.eqb (key y) j)
       (update_first (fun y => Nat.eqb (key y) i) f l) <> None.
Proof.
  intros Hkey Hx. destruct (Nat.eq_dec j i) as [-> | Hne].
  - rewrite (find_update_first_same key f Hkey), Hx. discriminate.
  - rewrite (find_update_first_other key f Hkey i j l Hne), Hx. discriminate.
Qed.

(** X13. Creating a post and then deleting it brings the three collections back
    to what they were, when the id it got was not in use before (no stored
    thread names it as parent, no back-reference list holds it). *)
Theorem createThread_then_deleteThread :
  forall faults text author communityId path fuel path' w w1 w2,
    createThread faults text author communityId path w = (Return tt, w1) ->
    deleteThread faults fuel (nextId w) path' w1 = (Return tt, w2) ->
    (forall t, In t (Thread_collection w) -> Thread.parentId t <> Some (nextId w)) ->
    (forall u, In u (User_collection w) -> ~ In (nextId w) (User.threads u)) ->
    (forall c, In c (Community_collection w) ->
               ~ In (nextId w) (Community.threads c)) ->
    Thread_collection w2 = Thread_collection w /\
    User_collection w2 = User_collection w /\
    Community_collection w2 = Community_collection w.
Proof.
  intros faults text author communityId path fuel path' w w1 w2
         Hcreate Hdelete Hleaf Husers Hcomms.
  apply createThread_Return in Hcreate. cbv zeta in Hcreate.
  destruct Hcreate as (_ & Hfresh & Hthreads1 & Husers1 & Hcomms1 & _).
  set (resolved := Community_byExtId (Community_collection w) communityId) in *.
  set (created := Thread.mk (nextId w) text author
                            (option_map Community._id resolved) (now w) None []) in *.
  apply deleteThread_Return in Hdelete.
  destruct Hdelete as (main & l & authors & communities & Hmain & Hl & Hauthors
                       & Hcommunities & Hthreads2 & Husers2 & Hcomms2 & _).
  assert (main = created) as ->.
  { rewrite Hthreads1 in Hmain. unfold Thread_byId in *.
    rewrite find_app_r in Hmain by exact Hfresh. simpl in Hmain.
    rewrite Nat.eqb_refl in Hmain. congruence. }
  assert (l = []) as ->.
  { eapply fetch_leaf; [|exact Hl]. rewrite Hthreads1. intros t Ht.
    apply in_app_iff in Ht. destruct Ht as [Ht | [<- | []]]; [auto | discriminate]. }
  split; [|split].
  - rewrite Hthreads2, Hthreads1, filter_app. simpl. rewrite Nat.eqb_refl. simpl.
    rewrite app_nil_r. apply forallb_filter_id, forallb_forall. intros t Ht.
    rewrite orb_false_r. apply negb_true_iff, Nat.eqb_neq. intros Heq.
    unfold Thread_byId in Hfresh. apply (find_none _ _ Hfresh) in Ht.
    apply Nat.eqb_neq in Ht. contradiction.
  - rewrite Husers2, Husers1. apply User_pull_pushed; [assumption|].
    intros Hsome. apply Hauthors. right. split; [reflexivity|]. cbn [Thread.author created].
    rewrite Husers1. unfold User_byId in *.
    destruct (find _ (User_collection w)) as [u|] eqn:Hu; [|congruence].
    destruct (find _ (update_first _ _ _)) as [u'|] eqn:Hu'; [eauto|].
    exfalso. revert Hu'.
    apply (find_update_first_Some User._id (User_push (nextId w)) author author _ u);
      [reflexivity | exact Hu].
  - rewrite Hcomms2, Hcomms1. destruct resolved as [found|] eqn:Hres.
    + apply Community_pull_pushed; [assumption|].
      intros Hsome. apply Hcommunities. right. split; [reflexivity|].
      rewrite Hcomms1. unfold Community_byId in *.
      destruct (find _ (Community_collection w)) as [c|] eqn:Hc; [|congruence].
      destruct (find _ (update_first _ _ _)) as [c'|] eqn:Hc'; [eauto|].
      exfalso. revert Hc'.
      apply (find_update_first_Some Community._id (Community_push (nextId w))
               (Community._id found) (Community._id found) _ c);
        [reflexivity | exact Hc].
    + rewrite <- (map_id (Community_collection w)) at 2. apply map_ext_in.
      intros c Hc. apply Community_pull_absent. auto.
Qed.

Lemma createThread_then_deleteThread_witness :
  let forum' := snd (createThread no_faults "hello" 100 (Some "org_guild") "/" forum) in
  let forum'' := snd (deleteThread no_faults 10 9 "/" forum') in
  Thread_collection forum'' = Thread_collection forum /\
  User_collection forum'' = User_collection forum /\
  Community_collection forum'' = Community_collection forum.
Proof.
  intros forum' forum''.
  exact (createThread_then_deleteThread no_faults "hello" 100 (Some "org_guild") "/" 10 "/"
       forum forum' forum'' eq_refl eq_refl
       ltac:(each_stored) ltac:(each_stored) ltac:(each_stored)).
Defined.













(** ** Invariants *)

Lemma Generated_later w w' :
  Thread_collection w' = Thread_collection w -> nextId w <= nextId w' ->
  Generated w -> Generated w'.
Proof.
  unfold Generated. intros -> Hle (Hahead & U & R). repeat split; auto.
  intros i Hi. apply Hahead in Hi. lia.
Qed.

Lemma Generated_inserted w ts text author community parentId w' :
  Generated w ->
  (forall p, parentId = Some p -> In p (map Thread._id (Thread_collection w))) ->
  Thread_collection w'
  = Thread_collection w
    ++ [Thread.mk (nextId w) text author community (now w) parentId ts] ->
  nextId w' = S (nextId w) ->
  Generated w'.
Proof.
  intros (Hahead & U & R) Hparent Hthreads Hnext.
  unfold Generated, UniqueIds. rewrite Hthreads, Hnext, map_app. simpl.
  split; [|split].
  - intros i Hi. apply in_app_iff in Hi.
    destruct Hi as [Hi | [<- | []]]; [apply Hahead in Hi|]; lia.
  - apply NoDup_app; [exact U | repeat constructor; intros [] |].
    intros i Hi [<- | []]. apply Hahead in Hi. lia.
  - unfold ranked in *. rewrite forallb_app, R. simpl.
    destruct parentId as [p|]; [|reflexivity].
    rewrite andb_true_r. apply Nat.ltb_lt. apply Hahead, Hparent. reflexivity.
Qed.

Lemma createThread_outcome_Generated faults text author communityId path w r w' :
  createThread faults text author communityId path w = (r, w') ->
  Generated w -> Generated w'.
Proof.
  intros H G. destruct r as [[]|e|].
  - eapply createThread_Generated; eassumption.
  - revert H. unfold createThread, try_catch.
    match goal with
    | |- (match ?b with _ => _ end) = _ -> _ => destruct b as [[[]|cause|] w1] eqn:E
    end; try discriminate.
    unfold throw. intros [= _ <-].
    unfold connectToDB, bind, ret, Community_findOne_id, Thread_insert,
      User_findByIdAndUpdate_push, Community_findByIdAndUpdate_push, query, command,
      revalidatePath in E. simpl in E.
    destruct (faults CommunityModel FindOne w);
      [injection E as _ <-; assumption|].
    destruct (String.eqb text "");
      [injection E as _ <-; apply (Generated_later w); simpl; auto|].
    destruct (faults ThreadModel Create w);
      [injection E as _ <-; apply (Generated_later w); simpl; auto|].
    destruct (mem (nextId w) (map Thread._id (Thread_collection w)));
      [injection E as _ <-; apply (Generated_later w); simpl; auto|].
    destruct (faults UserModel FindByIdAndUpdate _).
    { injection E as _ <-.
      eapply (Generated_inserted w) with (parentId := None);
        [exact G | discriminate | reflexivity | reflexivity]. }
    destruct (option_map _ _) as [c|]; simpl in E; [|discriminate].
    destruct (faults CommunityModel FindByIdAndUpdate _); [|discriminate].
    injection E as _ <-.
    eapply (Generated_inserted w) with (parentId := None);
      [exact G | discriminate | reflexivity | reflexivity].
  - revert H. unfold createThread, try_catch.
    match goal with
    | |- (match ?b with _ => _ end) = _ -> _ => destruct b as [[[]|cause|] w1] eqn:E
    end; try discriminate.
    intros _. exfalso. revert E.
    unfold connectToDB, bind, ret, Community_findOne_id, Thread_insert,
      User_findByIdAndUpdate_push, Community_findByIdAndUpdate_push, query, command,
      revalidatePath. simpl.
    repeat match goal with
           | |- context [match faults ?m ?o ?x with _ => _ end] =>
               destruct (faults m o x)
           | |- context [if ?b then _ else _] => destruct b
           | |- context [match option_map ?f ?x with _ => _ end] =>
               destruct (option_map f x)
           end; simpl; discriminate.
Qed.

Lemma addCommentToThread_outcome_Generated
      faults threadId commentText userId path w r w' :
  addCommentToThread faults threadId commentText userId path w = (r, w') ->
  Generated w -> Generated w'.
Proof.
  intros H G. destruct r as [[]|e|].
  - eapply addCommentToThread_Generated; eassumption.
  - revert H.
    unfold addCommentToThread, connectToDB, try_catch, bind, ret, throw,
      console_error, Thread_findById, Thread_insert, Thread_save_children,
      revalidatePath, query. simpl.
    destruct (faults ThreadModel FindById w);
      [intros [= _ <-]; apply (Generated_later w); auto|].
    destruct (Thread_byId (Thread_collection w) threadId) as [post|] eqn:Hpost;
      [|intros [= _ <-]; apply (Generated_later w); auto].
    destruct (String.eqb commentText "");
      [intros [= _ <-]; apply (Generated_later w); simpl; auto|].
    destruct (faults ThreadModel Save w);
      [simpl; intros [= _ <-]; apply (Generated_later w); simpl; auto|].
    destruct (mem (nextId w) (map Thread._id (Thread_collection w)));
      [intros [= _ <-]; apply (Generated_later w); simpl; auto|].
    simpl.
    assert (Hparent : forall p, Some threadId = Some p ->
                                In p (map Thread._id (Thread_collection w))).
    { intros p [= <-]. destruct (Thread_byId_Some _ _ _ Hpost) as [Hin <-].
      apply in_map. assumption. }
    destruct (faults ThreadModel Save _).
    + intros [= _ <-].
      eapply (Generated_inserted w); [exact G | exact Hparent | reflexivity | reflexivity].
    + destruct (Thread_byId _ (Thread._id post)); [discriminate|].
      intros [= _ <-].
      eapply (Generated_inserted w); [exact G | exact Hparent | reflexivity | reflexivity].
  - exfalso. revert H.
    unfold addCommentToThread, connectToDB, try_catch, bind, ret, throw,
      console_error, Thread_findById, Thread_insert, Thread_save_children,
      revalidatePath, query. simpl.
    repeat match goal with
           | |- context [match faults ?m ?o ?x with _ => _ end] =>
               destruct (faults m o x)
           | |- context [if ?b then _ else _] => destruct b
           | |- context [match Thread_byId ?a ?b with _ => _ end] =>
               destruct (Thread_byId a b)
           end; simpl; discriminate.
Qed.

Lemma Generated_filtered w w' p :
  Thread_collection w' = filter p (Thread_collection w) -> nextId w' = nextId w ->
  Generated w -> Generated w'.
Proof.
  intros Hthreads Hnext (Hahead & U & R).
  unfold Generated, UniqueIds. rewrite Hthreads, Hnext. split; [|split].
  - intros i Hi. apply Hahead. apply in_map_iff in Hi.
    destruct Hi as (t & <- & Ht). apply filter_In in Ht. apply in_map. tauto.
  - apply NoDup_map_filter. exact U.
  - apply forallb_filter. exact R.
Qed.

Lemma deleteThread_outcome_Generated faults fuel id path w r w' :
  deleteThread faults fuel id path w = (r, w') ->
  Generated w -> Generated w'.
Proof.
  intros H G. destruct r as [[]|e|].
  - eapply deleteThread_Generated; eassumption.
  - revert H. unfold deleteThread, try_catch.
    match goal with
    | |- (match ?b with _ => _ end) = _ -> _ => destruct b as [[[]|cause|] w1] eqn:E
    end; try discriminate.
    unfold throw. intros [= _ <-].
    unfold connectToDB, bind, ret, throw, Thread_findById, exec_populate, query in E.
    simpl in E.
    destruct (faults ThreadModel FindById w); [injection E as _ <-; assumption|].
    destruct (Thread_byId (Thread_collection w) id) as [main|]; simpl in E;
      [|injection E as _ <-; assumption].
    destruct (faults ThreadModel Populate w); simpl in E;
      [injection E as _ <-; assumption|].
    destruct (fetchAllChildThreads_reads faults fuel id w) as [r Hr].
    rewrite Hr in E. destruct r as [l|e0|]; [| |discriminate].
    + unfold Thread_deleteMany, User_updateMany_pull, Community_updateMany_pull,
        command, revalidatePath, ret in E.
      destruct (faults ThreadModel DeleteMany w);
        [injection E as _ <-; assumption|].
      destruct (faults UserModel UpdateMany _);
        [injection E as _ <-; eapply (Generated_filtered w); [reflexivity.. | exact G]|].
      destruct (faults CommunityModel UpdateMany _); [|discriminate].
      injection E as _ <-. eapply (Generated_filtered w); [reflexivity.. | exact G].
    + injection E as _ <-. assumption.
  - revert H. unfold deleteThread, try_catch.
    match goal with
    | |- (match ?b with _ => _ end) = _ -> _ => destruct b as [[[]|cause|] w1] eqn:E
    end; try discriminate.
    intros [= <-].
    unfold connectToDB, bind, ret, throw, Thread_findById, exec_populate, query in E.
    simpl in E.
    destruct (faults ThreadModel FindById w); [discriminate|].
    destruct (Thread_byId (Thread_collection w) id) as [main|]; simpl in E;
      [|discriminate].
    destruct (faults ThreadModel Populate w); simpl in E; [discriminate|].
    destruct (fetchAllChildThreads_reads faults fuel id w) as [r Hr].
    rewrite Hr in E. destruct r as [l|e0|]; [|discriminate|].
    + unfold Thread_deleteMany, User_updateMany_pull, Community_updateMany_pull,
        command, revalidatePath, ret in E.
      destruct (faults ThreadModel DeleteMany w); [discriminate|].
      destruct (faults UserModel UpdateMany _); [discriminate|].
      destruct (faults CommunityModel UpdateMany _); discriminate.
    + injection E as <-. assumption.
Qed.

(** X17. From a store whose ids were all handed out by the generator, each
    once, and whose replies are all younger than their parents, each of
    [createThread], [addCommentToThread] and [deleteThread] leads to such a
    store again, whatever its outcome: no failure part-way can leave two
    threads with one id or a cycle of [parentId] links. *)
Theorem writes_keep_the_forest :
  forall faults w,
    Generated w ->
    (forall text author communityId path r w',
        createThread faults text author communityId path w = (r, w') ->
        Generated w' /\ UniqueIds (Thread_collection w') /\
        Acyclic (Thread_collection w')) /\
    (forall threadId commentText userId path r w',
        addCommentToThread faults threadId commentText userId path w = (r, w') ->
        Generated w' /\ UniqueIds (Thread_collection w') /\
        Acyclic (Thread_collection w')) /\
    (forall fuel id path r w',
        deleteThread faults fuel id path w = (r, w') ->
        Generated w' /\ UniqueIds (Thread_collection w') /\
        Acyclic (Thread_collection w')).
Proof.
  intros faults w G.
  assert (Hforest : forall w', Generated w' ->
                               Generated w' /\ UniqueIds (Thread_collection w') /\
                               Acyclic (Thread_collection w')).
  { intros w' G'. split; [assumption | apply Generated_forest; assumption]. }
  split; [|split]; intros; apply Hforest.
  - eapply createThread_outcome_Generated; eassumption.
  - eapply addCommentToThread_outcome_Generated; eassumption.
  - eapply deleteThread_outcome_Generated; eassumption.
Qed.

Lemma writes_keep_the_forest_witness :
  let forum' := snd (addCommentToThread saves_down 8 "nice" 101 "/" forum) in
  Generated forum' /\
  UniqueIds (Thread_collection forum') /\ Acyclic (Thread_collection forum').
Proof.
  intros forum'.
  exact (proj1 (proj2 (writes_keep_the_forest saves_down forum forum_Generated))
       8 "nice" 101 "/" (Throw "Unable to add comment") forum' eq_refl).
Defined.

(** X18. [fetchPosts] and [fetchAllChildThreads] never change anything,
    whatever their outcome; [fetchThreadById] never changes a collection, and
    changes the console only when it fails. *)
Theorem reads_do_not_write :
  forall faults w,
    (forall pageNumber pageSize r w',
        fetchPosts faults pageNumber pageSize w = (r, w') -> w' = w) /\
    (forall fuel threadId r w',
        fetchAllChildThreads faults fuel threadId w = (r, w') -> w' = w) /\
    (forall threadId r w',
        fetchThreadById faults threadId w = (r, w') ->
        Thread_collection w' = Thread_collection w /\
        User_collection w' = User_collection w /\
        Community_collection w' = Community_collection w /\
        now w' = now w /\ nextId w' = nextId w /\
        (forall found, r = Return found -> w' = w)).
Proof.
  intros faults w. split; [|split].
  - intros pageNumber pageSize r w'.
    unfold fetchPosts, connectToDB, bind, ret, Thread_countDocuments_posts, query.
    destruct (faults ThreadModel CountDocuments w); [intros [= _ <-]; reflexivity|].
    destruct (Thread_find_posts faults _ _ _ w) as [q w1] eqn:E.
    assert (w1 = w) as ->.
    { revert E. unfold Thread_find_posts, skip_limit.
      repeat match goal with
             | |- context [match faults ?m ?o ?x with _ => _ end] =>
                 destruct (faults m o x)
             | |- context [if ?b then _ else _] => destruct b
             | |- context [match ?l with [] => _ | _ :: _ => _ end] => destruct l
             end; intros [= _ <-]; reflexivity. }
    destruct q; intros [= _ <-]; reflexivity.
  - intros fuel threadId r w' H.
    destruct (fetchAllChildThreads_reads faults fuel threadId w) as [r0 Hr].
    congruence.
  - intros threadId r w'.
    unfold fetchThreadById, connectToDB, try_catch, bind, ret, throw, console_error,
      Thread_findById, exec_populate, query. simpl.
    destruct (faults ThreadModel FindById w);
      [intros [= <- <-]; repeat split; discriminate|].
    destruct (Thread_byId (Thread_collection w) threadId);
      [|intros [= <- <-]; repeat split; discriminate].
    destruct (faults ThreadModel Populate w); intros [= <- <-]; repeat split;
      discriminate.
Qed.

Lemma reads_do_not_write_witness :
  let forum' := snd (fetchThreadById outage 1 forum) in
  Thread_collection forum' = Thread_collection forum /\
  User_collection forum' = User_collection forum /\
  Community_collection forum' = Community_collection forum /\
  now forum' = now forum /\
  nextId forum' = nextId forum /\
  (forall found : option PThread,
   Throw "Unable to fetch thread" = Return found -> forum' = forum).
Proof.
  intros forum'.
  exact (proj2 (proj2 (reads_do_not_write outage forum)) 1
       (Throw "Unable to fetch thread") forum' eq_refl).
Defined.

(** X19. An empty [text] does not pass the schema's [required], which is
    checked before the driver is asked to write: [createThread] fails with
    the validation message behind its prefix and [addCommentToThread] with
    its fixed message, and neither stores a thread or changes a user or a
    community. *)
Theorem empty_text_is_rejected :
  forall faults w,
    (forall author communityId path,
        faults CommunityModel FindOne w = None ->
        exists w',
          createThread faults "" author communityId path w
          = (Throw ("Failed to create post: " ++ text_required)%string, w') /\
          Thread_collection w' = Thread_collection w /\
          User_collection w' = User_collection w /\
          Community_collection w' = Community_collection w) /\
    (forall threadId userId path post,
        faults ThreadModel FindById w = None ->
        Thread_byId (Thread_collection w) threadId = Some post ->
        exists w',
          addCommentToThread faults threadId "" userId path w
          = (Throw "Unable to add comment", w') /\
          Thread_collection w' = Thread_collection w /\
          User_collection w' = User_collection w /\
          Community_collection w' = Community_collection w /\
          console w'
          = console w ++ [("Error while adding comment: " ++ text_required)%string]).
Proof.
  intros faults w. split.
  - intros author communityId path Hf.
    unfold createThread, connectToDB, try_catch, bind, ret, throw,
      Community_findOne_id, Thread_insert, query. simpl.
    rewrite Hf. simpl. eexists. split; [reflexivity|]. repeat split.
  - intros threadId userId path post Hf Hpost.
    unfold addCommentToThread, connectToDB, try_catch, bind, ret, throw,
      console_error, Thread_findById, Thread_insert, query. simpl.
    rewrite Hf, Hpost. simpl. eexists. split; [reflexivity|]. repeat split.
Qed.

Lemma empty_text_is_rejected_witness :
  exists w' : World,
    addCommentToThread no_faults 8 "" 101 "/" forum =
    (Throw "Unable to add comment", w') /\
    Thread_collection w' = Thread_collection forum /\
    User_collection w' = User_collection forum /\
    Community_collection w' = Community_collection forum /\
    console w' =
    console forum ++ [("Error while adding comment: " ++ text_required)%string].
Proof.
  exact (proj2 (empty_text_is_rejected no_faults forum) 8 101 "/" post8
       eq_refl eq_refl).
Defined.

(** ** Back-reference lists *)

Lemma In_update_first {A} (p : A -> bool) (f : A -> A) l y :
  In y (update_first p f l) ->
  In y l \/ exists x, In x l /\ p x = true /\ y = f x.
Proof.
  induction l as [|x l IH]; simpl; [tauto|].
  destruct (p x) eqn:E; simpl.
  - intros [<- | H]; [right; exists x; auto | auto].
  - intros [<- | H]; [auto|]. destruct (IH H) as [H' | (z & Hz & Hp & ->)]; [auto|].
    right. exists z. auto.
Qed.

(** The threads change, by documents that keep the id, author and community
    of a stored one or carry an id the generator had not yet handed out. *)
Lemma Owned_threads w w' :
  Owned w ->
  (forall t', In t' (Thread_collection w') ->
              (exists t, In t (Thread_collection w) /\
                         Thread._id t' = Thread._id t /\
                         Thread.author t' = Thread.author t /\
                         Thread.community t' = Thread.community t) \/
              nextId w <= Thread._id t') ->
  User_collection w' = User_collection w ->
  Community_collection w' = Community_collection w ->
  nextId w <= nextId w' ->
  Owned w'.
Proof.
  intros [Hu Hc] Hthreads Husers Hcomms Hnext. unfold Owned.
  rewrite Husers, Hcomms. split.
  - intros u i Hin Hi. destruct (Hu u i Hin Hi) as [Hlt Hown].
    split; [lia|]. intros t' Ht' Hid.
    destruct (Hthreads t' Ht') as [(t & Ht & Hi' & Ha & _) | Hnew]; [|lia].
    rewrite Ha. apply Hown; [assumption | congruence].
  - intros c i Hin Hi. destruct (Hc c i Hin Hi) as [Hlt Hown].
    split; [lia|]. intros t' Ht' Hid.
    destruct (Hthreads t' Ht') as [(t & Ht & Hi' & _ & Hcm) | Hnew]; [|lia].
    rewrite Hcm. apply Hown; [assumption | congruence].
Qed.

Lemma Owned_same w w' :
  Owned w ->
  Thread_collection w' = Thread_collection w ->
  User_collection w' = User_collection w ->
  Community_collection w' = Community_collection w ->
  nextId w <= nextId w' ->
  Owned w'.
Proof.
  intros O Ht Hu Hc Hn. apply (Owned_threads w); auto.
  rewrite Ht. intros t' Hin. left. exists t'. auto.
Qed.

Lemma Owned_user_push w w' author i :
  Owned w ->
  i < nextId w ->
  (forall t, In t (Thread_collection w) -> Thread._id t = i ->
             Thread.author t = author) ->
  Thread_collection w' = Thread_collection w ->
  User_collection w'
  = update_first (fun u => Nat.eqb (User._id u) author) (User_push i)
                 (User_collection w) ->
  Community_collection w' = Community_collection w ->
  nextId w' = nextId w ->
  Owned w'.
Proof.
  intros [Hu Hc] Hi Hauthor Hthreads Husers Hcomms Hnext. unfold Owned.
  rewrite Hthreads, Husers, Hcomms, Hnext. split; [|exact Hc].
  intros u' j Hin Hj. apply In_update_first in Hin.
  destruct Hin as [Hin | (u & Hin & Hp & ->)]; [auto|].
  apply Nat.eqb_eq in Hp. cbn [User.threads User_push User._id] in *.
  apply in_app_iff in Hj. destruct Hj as [Hj | [<- | []]]; [auto|].
  split; [assumption|]. intros t Ht Hid. rewrite Hp. auto.
Qed.

Lemma Owned_community_push w w' key i :
  Owned w ->
  i < nextId w ->
  (forall t, In t (Thread_collection w) -> Thread._id t = i ->
             Thread.community t = Some key) ->
  Thread_collection w' = Thread_collection w ->
  User_collection w' = User_collection w ->
  Community_collection w'
  = update_first (fun c => Nat.eqb (Community._id c) key) (Community_push i)
                 (Community_collection w) ->
  nextId w' = nextId w ->
  Owned w'.
Proof.
  intros [Hu Hc] Hi Hposted Hthreads Husers Hcomms Hnext. unfold Owned.
  rewrite Hthreads, Husers, Hcomms, Hnext. split; [exact Hu|].
  intros c' j Hin Hj. apply In_update_first in Hin.
  destruct Hin as [Hin | (c & Hin & Hp & ->)]; [auto|].
  apply Nat.eqb_eq in Hp. cbn [Community.threads Community_push Community._id] in *.
  apply in_app_iff in Hj. destruct Hj as [Hj | [<- | []]]; [auto|].
  split; [assumption|]. intros t Ht Hid. rewrite Hp. auto.
Qed.

Lemma Owned_user_pull w w' authors ids :
  Owned w ->
  Thread_collection w' = Thread_collection w ->
  User_collection w' = map (User_pull authors ids) (User_collection w) ->
  Community_collection w' = Community_collection w ->
  nextId w' = nextId w ->
  Owned w'.
Proof.
  intros [Hu Hc] Hthreads Husers Hcomms Hnext. unfold Owned.
  rewrite Hthreads, Husers, Hcomms, Hnext. split; [|exact Hc].
  intros u' j Hin Hj. apply in_map_iff in Hin. destruct Hin as (u & <- & Hin).
  unfold User_pull in *. destruct (mem (User._id u) authors); [|auto].
  cbn [User.threads User._id] in *. apply pull_In in Hj. apply Hu; tauto.
Qed.

Lemma Owned_community_pull w w' communities ids :
  Owned w ->
  Thread_collection w' = Thread_collection w ->
  User_collection w' = User_collection w ->
  Community_collection w'
  = map (Community_pull communities ids) (Community_collection w) ->
  nextId w' = nextId w ->
  Owned w'.
Proof.
  intros [Hu Hc] Hthreads Husers Hcomms Hnext. unfold Owned.
  rewrite Hthreads, Husers, Hcomms, Hnext. split; [exact Hu|].
  intros c' j Hin Hj. apply in_map_iff in Hin. destruct Hin as (c & <- & Hin).
  unfold Community_pull in *. destruct (mem (Community._id c) communities); [|auto].
  cbn [Community.threads Community._id] in *. apply pull_In in Hj. apply Hc; tauto.
Qed.

Lemma Owned_inserted w text author community parentId :
  Owned w ->
  Owned (set_threads (set_nextId w (S (nextId w)))
           (Thread_collection w
            ++ [Thread.mk (nextId w) text author community (now w) parentId []])).
Proof.
  intros O.
  apply (Owned_threads w); [exact O | | reflexivity | reflexivity | simpl; lia].
  simpl. intros t' Hin. apply in_app_iff in Hin.
  destruct Hin as [Hin | [<- | []]]; [left; exists t'; auto | right; simpl; lia].
Qed.

Lemma Owned_filtered w p :
  Owned w -> Owned (set_threads w (filter p (Thread_collection w))).
Proof.
  intros O.
  apply (Owned_threads w); [exact O | | reflexivity | reflexivity | simpl; lia].
  simpl. intros t' Hin. apply filter_In in Hin. left. exists t'. tauto.
Qed.

Lemma In_push_children pushed p ts t' :
  In t' (update_first p (Thread_push_children pushed) ts) ->
  exists t, In t ts /\ Thread._id t' = Thread._id t /\
            Thread.author t' = Thread.author t /\
            Thread.community t' = Thread.community t.
Proof.
  intros Hin. apply In_update_first in Hin.
  destruct Hin as [Hin | (t & Hin & _ & ->)]; [exists t' | exists t]; auto.
Qed.

Lemma createThread_outcome_Owned faults text author communityId path w r w' :
  createThread faults text author communityId path w = (r, w') ->
  Owned w -> Owned w'.
Proof.
  intros H O. revert H. unfold createThread, try_catch.
  match goal with
  | |- (match ?b with _ => _ end) = _ -> _ => destruct b as [q w1] eqn:E
  end.
  assert (Hw1 : Owned w1).
  { revert E.
    unfold connectToDB, bind, ret, Community_findOne_id, Thread_insert,
      User_findByIdAndUpdate_push, Community_findByIdAndUpdate_push, query, command,
      revalidatePath. simpl.
    destruct (faults CommunityModel FindOne w); [intros [= _ <-]; assumption|].
    destruct (String.eqb text "");
      [intros [= _ <-]; apply (Owned_same w); simpl; auto|].
    destruct (faults ThreadModel Create w);
      [intros [= _ <-]; apply (Owned_same w); simpl; auto|].
    destruct (mem (nextId w) (map Thread._id (Thread_collection w))) eqn:Emem;
      [intros [= _ <-]; apply (Owned_same w); simpl; auto|].
    apply mem_not_In in Emem.
    set (found := Community_byExtId (Community_collection w) communityId).
    set (created := Thread.mk (nextId w) text author _ (now w) None []).
    set (wi := set_threads (set_nextId w (S (nextId w)))
                           (Thread_collection w ++ [created])).
    assert (Oi : Owned wi) by apply Owned_inserted, O.
    assert (Hnew : forall t, In t (Thread_collection wi) ->
                             Thread._id t = nextId w -> t = created).
    { intros t Hin Hid. simpl in Hin. apply in_app_iff in Hin.
      destruct Hin as [Hin | [<- | []]]; [|reflexivity].
      exfalso. apply Emem. rewrite <- Hid. apply in_map. assumption. }
    destruct (faults UserModel FindByIdAndUpdate _); [intros [= _ <-]; exact Oi|].
    set (wu := set_users wi _).
    assert (Ou : Owned wu).
    { apply (Owned_user_push wi wu author (nextId w)); try reflexivity;
        [exact Oi | simpl; lia |].
      intros t Hin Hid. rewrite (Hnew t Hin Hid). reflexivity. }
    destruct found as [c|]; simpl; [|intros [= _ <-]; exact Ou].
    destruct (faults CommunityModel FindByIdAndUpdate _); intros [= _ <-];
      [exact Ou|].
    apply (Owned_community_push wu _ (Community._id c) (nextId w));
      try reflexivity; [exact Ou | simpl; lia |].
    intros t Hin Hid. rewrite (Hnew t Hin Hid). reflexivity. }
  destruct q; intros [= _ <-]; assumption.
Qed.

Lemma Owned_log w line : Owned w -> Owned (log w line).
Proof. intros O. apply (Owned_same w); auto. Qed.

Lemma addCommentToThread_outcome_Owned
      faults threadId commentText userId path w r w' :
  addCommentToThread faults threadId commentText userId path w = (r, w') ->
  Owned w -> Owned w'.
Proof.
  intros H O. revert H.
  unfold addCommentToThread, connectToDB, try_catch, bind, ret, throw,
    console_error, Thread_findById, Thread_insert, Thread_save_children,
    revalidatePath, query. simpl.
  destruct (faults ThreadModel FindById w);
    [intros [= _ <-]; apply Owned_log, O|].
  destruct (Thread_byId (Thread_collection w) threadId) as [post|];
    [|intros [= _ <-]; apply Owned_log, O].
  destruct (String.eqb commentText "");
    [intros [= _ <-]; apply Owned_log, (Owned_same w); simpl; auto|].
  destruct (faults ThreadModel Save w);
    [simpl; intros [= _ <-]; apply Owned_log, (Owned_same w); simpl; auto|].
  destruct (mem (nextId w) (map Thread._id (Thread_collection w)));
    [intros [= _ <-]; apply Owned_log, (Owned_same w); simpl; auto|].
  simpl.
  set (wi := set_threads (set_nextId w (S (nextId w))) _).
  assert (Oi : Owned wi) by apply Owned_inserted, O.
  destruct (faults ThreadModel Save _);
    [intros [= _ <-]; apply Owned_log, Oi|].
  destruct (Thread_byId _ (Thread._id post));
    [|intros [= _ <-]; apply Owned_log, Oi].
  intros [= _ <-].
  apply (Owned_threads wi); [exact Oi | | reflexivity | reflexivity | simpl; lia].
  intros t' Hin. left. cbn [Thread_collection set_threads] in Hin.
  apply In_push_children in Hin. exact Hin.
Qed.

Lemma deleteThread_outcome_Owned faults fuel id path w r w' :
  deleteThread faults fuel id path w = (r, w') ->
  Owned w -> Owned w'.
Proof.
  intros H O. revert H. unfold deleteThread, try_catch.
  match goal with
  | |- (match ?b with _ => _ end) = _ -> _ => destruct b as [q w1] eqn:E
  end.
  assert (Hw1 : Owned w1).
  { revert E.
    unfold connectToDB, bind, ret, throw, Thread_findById, exec_populate, query.
    simpl.
    destruct (faults ThreadModel FindById w); [intros [= _ <-]; assumption|].
    destruct (Thread_byId (Thread_collection w) id) as [main|]; simpl;
      [|intros [= _ <-]; assumption].
    destruct (faults ThreadModel Populate w); simpl;
      [intros [= _ <-]; assumption|].
    destruct (fetchAllChildThreads_reads faults fuel id w) as [r0 Hr].
    rewrite Hr. destruct r0 as [l|e0|]; try (intros [= _ <-]; assumption).
    unfold Thread_deleteMany, User_updateMany_pull, Community_updateMany_pull,
      command, revalidatePath, ret.
    destruct (faults ThreadModel DeleteMany w); [intros [= _ <-]; assumption|].
    set (wd := set_threads w _).
    assert (Od : Owned wd) by apply Owned_filtered, O.
    destruct (faults UserModel UpdateMany _); [intros [= _ <-]; exact Od|].
    set (wu := set_users wd _).
    assert (Ou : Owned wu)
      by (eapply (Owned_user_pull wd wu); try reflexivity; exact Od).
    destruct (faults CommunityModel UpdateMany _); intros [= _ <-]; [exact Ou|].
    eapply (Owned_community_pull wu); try reflexivity. exact Ou. }
  destruct q; intros [= _ <-]; assumption.
Qed.

Example forum_Owned : Owned forum.
Proof.
  split.
  - intros u i Hu Hi. simpl in Hu.
    destruct Hu as [<- | [<- | []]]; simpl in Hi;
      repeat (destruct Hi as [<- | Hi]; [split; [simpl; lia|]; each_stored|]);
      destruct Hi.
  - intros c i Hc Hi. simpl in Hc.
    destruct Hc as [<- | []]; simpl in Hi;
      repeat (destruct Hi as [<- | Hi]; [split; [simpl; lia|]; each_stored|]);
      destruct Hi.
Qed.

(** X20. The back-reference lists stay with their owners: from a store in
    which every id a [threads] list holds was handed out by the id generator
    and names, if any stored thread at all, a thread of that user or that
    community, each of [createThread], [addCommentToThread] and
    [deleteThread] leads to such a store again, whatever its outcome.  In
    such a store every list names only threads of its own user or
    community. *)
Theorem writes_keep_the_lists_owned :
  forall faults w,
    Owned w ->
    (forall text author communityId path r w',
        createThread faults text author communityId path w = (r, w') -> Owned w') /\
    (forall threadId commentText userId path r w',
        addCommentToThread faults threadId commentText userId path w = (r, w') ->
        Owned w') /\
    (forall fuel id path r w',
        deleteThread faults fuel id path w = (r, w') -> Owned w') /\
    (forall u t, In u (User_collection w) -> In t (Thread_collection w) ->
                 In (Thread._id t) (User.threads u) ->
                 Thread.author t = User._id u) /\
    (forall c t, In c (Community_collection w) -> In t (Thread_collection w) ->
                 In (Thread._id t) (Community.threads c) ->
                 Thread.community t = Some (Community._id c)).
Proof.
  intros faults w O. split; [|split; [|split; [|split]]].
  - intros text author communityId path r w' H.
    eapply createThread_outcome_Owned; eassumption.
  - intros threadId commentText userId path r w' H.
    eapply addCommentToThread_outcome_Owned; eassumption.
  - intros fuel id path r w' H.
    eapply deleteThread_outcome_Owned; eassumption.
  - intros u t Hu Ht Hi. destruct O as [Ou _].
    destruct (Ou u _ Hu Hi) as [_ Hown]. apply Hown; auto.
  - intros c t Hc Ht Hi. destruct O as [_ Oc].
    destruct (Oc c _ Hc Hi) as [_ Hown]. apply Hown; auto.
Qed.

Lemma writes_keep_the_lists_owned_witness :
  Owned (snd (createThread users_down "hello" 100 (Some "org_guild") "/" forum)) /\
  Owned (snd (deleteThread no_faults 9 1 "/" forum)).
Proof.
  split.
  - exact (proj1 (writes_keep_the_lists_owned users_down forum forum_Owned)
                 "hello" 100 (Some "org_guild") "/" _ _ eq_refl).
  - exact (proj1 (proj2 (proj2 (writes_keep_the_lists_owned no_faults forum
                                  forum_Owned)))
                 9 1 "/" _ _ eq_refl).
Defined.
